(** * Beat-to-Music: the pulse sensor core ([pulse_sensor.py])

    A shallow embedding of [PulseSensor] (moving-average filter, adaptive
    threshold, beat detection with hysteresis and refractory gating, BPM
    averaging, calibration, signal strength) and the properties of it that
    the specification states.

    Modelling conventions.
    - Python integers are [Z]; [//] is [Z.div] and [%] is [Z.modulo]
      (both floor, as in Python).
    - The float-valued expressions of the source ([x * threshold_factor],
      [threshold * 0.9], [sum / len], [60000 / avg]) are evaluated exactly
      over the rationals [Q]; [int(...)] truncates toward zero.  The exact
      value is the one double-precision arithmetic gives for
      [int(x * 0.6)], the factor the application uses, on every range [x]
      up to 200000, for the BPM of every interval window whose entries all
      exceed 300 ms (the default refractory interval), and for the
      comparison with [threshold * 0.9] on the thresholds 16-bit samples
      give.  Elsewhere the two can differ by one: [int(1290 * 0.7)] is 902
      in floating point and 903 exactly, and the window [266, 267, 267]
      gives 224 in floating point and 225 exactly.  This is why a theorem
      below that gives the adapted threshold or the BPM as a value does so
      for the factor 0.6 or for intervals above 300 ms, and states bounds
      that no rounding can break for the other factors.
    - The ADC ([adc.read_u16]) and the clock ([utime.ticks_ms]) are inputs:
      every call receives the value read.  [utime.ticks_diff a b] is [a - b].
    - The object's attributes are the fields of the record [PulseSensor];
      a method is a function from the object to a result and the updated
      object.  Python exceptions are the [Raise] results. *)

From Stdlib Require Import ZArith QArith Lia.
From stdpp Require Import base tactics option list strings pretty gmap.

Local Open Scope Z_scope.

(** ** Results and exceptions *)

Inductive exn : Type :=
| IndexError
| ZeroDivisionError.

Inductive result (A : Type) : Type :=
| OK (a : A)
| Raise (e : exn).

Arguments OK {A} a.
Arguments Raise {A} e.

#[global] Instance result_ret : MRet result := fun A a => OK a.
#[global] Instance result_bind : MBind result := fun A B f m =>
  match m with
  | OK a => f a
  | Raise e => Raise e
  end.

(** ** Python primitives *)

(** [sum(l)]: left-to-right addition starting from [0]. *)
Definition py_sum (l : list Z) : Z := fold_left Z.add l 0.

(** [len(l)]. *)
Definition len (l : list Z) : Z := Z.of_nat (length l).

(** [l[i] = x] for a Python list: a negative index counts from the end,
    an index outside [-len, len) raises [IndexError]. *)
Definition list_setitem (l : list Z) (i x : Z) : result (list Z) :=
  if decide (0 <= i < len l) then OK (<[Z.to_nat i := x]> l)
  else if decide (- len l <= i < 0) then OK (<[Z.to_nat (len l + i) := x]> l)
  else Raise IndexError.

(** [a % b] on integers. *)
Definition py_mod (a b : Z) : result Z :=
  if decide (b = 0) then Raise ZeroDivisionError else OK (a `mod` b).

(** [a // b] on integers. *)
Definition py_floordiv (a b : Z) : result Z :=
  if decide (b = 0) then Raise ZeroDivisionError else OK (a `div` b).

(** [a / b] (true division). *)
Definition py_truediv (a b : Q) : result Q :=
  if Qeq_bool b 0 then Raise ZeroDivisionError else OK (a / b)%Q.

(** [int(q)]: truncation toward zero. *)
Definition int (q : Q) : Z := Z.quot (Qnum q) (Z.pos (Qden q)).

(** [utime.ticks_diff(a, b)]. *)
Definition ticks_diff (a b : Z) : Z := a - b.

(** ** The sensor object *)

Record PulseSensor : Type := mkPulseSensor {
  threshold_factor : Q;
  min_beat_interval : Z;
  filter_size : Z;
  readings : list Z;
  reading_index : Z;
  filtered_value : Z;
  baseline : Z;
  threshold : Z;
  last_beat_time : Z;
  beat_detected : bool;
  peak_value : Z;
  valley_value : Z;
  beat_intervals : list Z;
  max_intervals : Z;
  current_bpm : Z;
  calibration_samples : nat;
  calibrated : bool
}.

Definition set_readings (v : list Z) (s : PulseSensor) : PulseSensor :=
  mkPulseSensor (threshold_factor s) (min_beat_interval s) (filter_size s)
    v (reading_index s) (filtered_value s) (baseline s) (threshold s)
    (last_beat_time s) (beat_detected s) (peak_value s) (valley_value s)
    (beat_intervals s) (max_intervals s) (current_bpm s)
    (calibration_samples s) (calibrated s).

Definition set_reading_index (v : Z) (s : PulseSensor) : PulseSensor :=
  mkPulseSensor (threshold_factor s) (min_beat_interval s) (filter_size s)
    (readings s) v (filtered_value s) (baseline s) (threshold s)
    (last_beat_time s) (beat_detected s) (peak_value s) (valley_value s)
    (beat_intervals s) (max_intervals s) (current_bpm s)
    (calibration_samples s) (calibrated s).

Definition set_filtered_value (v : Z) (s : PulseSensor) : PulseSensor :=
  mkPulseSensor (threshold_factor s) (min_beat_interval s) (filter_size s)
    (readings s) (reading_index s) v (baseline s) (threshold s)
    (last_beat_time s) (beat_detected s) (peak_value s) (valley_value s)
    (beat_intervals s) (max_intervals s) (current_bpm s)
    (calibration_samples s) (calibrated s).

Definition set_baseline (v : Z) (s : PulseSensor) : PulseSensor :=
  mkPulseSensor (threshold_factor s) (min_beat_interval s) (filter_size s)
    (readings s) (reading_index s) (filtered_value s) v (threshold s)
    (last_beat_time s) (beat_detected s) (peak_value s) (valley_value s)
    (beat_intervals s) (max_intervals s) (current_bpm s)
    (calibration_samples s) (calibrated s).

Definition set_threshold (v : Z) (s : PulseSensor) : PulseSensor :=
  mkPulseSensor (threshold_factor s) (min_beat_interval s) (filter_size s)
    (readings s) (reading_index s) (filtered_value s) (baseline s) v
    (last_beat_time s) (beat_detected s) (peak_value s) (valley_value s)
    (beat_intervals s) (max_intervals s) (current_bpm s)
    (calibration_samples s) (calibrated s).

Definition set_last_beat_time (v : Z) (s : PulseSensor) : PulseSensor :=
  mkPulseSensor (threshold_factor s) (min_beat_interval s) (filter_size s)
    (readings s) (reading_index s) (filtered_value s) (baseline s)
    (threshold s) v (beat_detected s) (peak_value s) (valley_value s)
    (beat_intervals s) (max_intervals s) (current_bpm s)
    (calibration_samples s) (calibrated s).

Definition set_beat_detected (v : bool) (s : PulseSensor) : PulseSensor :=
  mkPulseSensor (threshold_factor s) (min_beat_interval s) (filter_size s)
    (readings s) (reading_index s) (filtered_value s) (baseline s)
    (threshold s) (last_beat_time s) v (peak_value s) (valley_value s)
    (beat_intervals s) (max_intervals s) (current_bpm s)
    (calibration_samples s) (calibrated s).

Definition set_peak_value (v : Z) (s : PulseSensor) : PulseSensor :=
  mkPulseSensor (threshold_factor s) (min_beat_interval s) (filter_size s)
    (readings s) (reading_index s) (filtered_value s) (baseline s)
    (threshold s) (last_beat_time s) (beat_detected s) v (valley_value s)
    (beat_intervals s) (max_intervals s) (current_bpm s)
    (calibration_samples s) (calibrated s).

Definition set_valley_value (v : Z) (s : PulseSensor) : PulseSensor :=
  mkPulseSensor (threshold_factor s) (min_beat_interval s) (filter_size s)
    (readings s) (reading_index s) (filtered_value s) (baseline s)
    (threshold s) (last_beat_time s) (beat_detected s) (peak_value s) v
    (beat_intervals s) (max_intervals s) (current_bpm s)
    (calibration_samples s) (calibrated s).

Definition set_beat_intervals (v : list Z) (s : PulseSensor) : PulseSensor :=
  mkPulseSensor (threshold_factor s) (min_beat_interval s) (filter_size s)
    (readings s) (reading_index s) (filtered_value s) (baseline s)
    (threshold s) (last_beat_time s) (beat_detected s) (peak_value s)
    (valley_value s) v (max_intervals s) (current_bpm s)
    (calibration_samples s) (calibrated s).

Definition set_current_bpm (v : Z) (s : PulseSensor) : PulseSensor :=
  mkPulseSensor (threshold_factor s) (min_beat_interval s) (filter_size s)
    (readings s) (reading_index s) (filtered_value s) (baseline s)
    (threshold s) (last_beat_time s) (beat_detected s) (peak_value s)
    (valley_value s) (beat_intervals s) (max_intervals s) v
    (calibration_samples s) (calibrated s).

Definition set_calibrated (v : bool) (s : PulseSensor) : PulseSensor :=
  mkPulseSensor (threshold_factor s) (min_beat_interval s) (filter_size s)
    (readings s) (reading_index s) (filtered_value s) (baseline s)
    (threshold s) (last_beat_time s) (beat_detected s) (peak_value s)
    (valley_value s) (beat_intervals s) (max_intervals s) (current_bpm s)
    (calibration_samples s) v.

(** [PulseSensor.__init__(adc_pin, threshold_factor, min_beat_interval)];
    the ADC handle is not part of the model. *)
Definition init (threshold_factor : Q) (min_beat_interval : Z) : PulseSensor :=
  {| threshold_factor := threshold_factor;
     min_beat_interval := min_beat_interval;
     filter_size := 10;
     readings := replicate 10 0;
     reading_index := 0;
     filtered_value := 0;
     baseline := 32768;
     threshold := 35000;
     last_beat_time := 0;
     beat_detected := false;
     peak_value := 0;
     valley_value := 65535;
     beat_intervals := [];
     max_intervals := 5;
     current_bpm := 0;
     calibration_samples := 100;
     calibrated := false |}.

(** [PulseSensor()] with the default arguments: factor 0.6, 300 ms. *)
Definition default_sensor : PulseSensor := init (6 # 10) 300.

(** ** [calibrate] *)

(** The sampling loop of [calibrate]: [n] more iterations, the loop variable
    is [i], [adc i] is the value read in iteration [i]. *)
Fixpoint calibrate_loop (adc : nat -> Z) (i n : nat) (min_val max_val : Z)
  : Z * Z :=
  match n with
  | O => (min_val, max_val)
  | S n' =>
      let raw := adc i in
      calibrate_loop adc (S i) n' (Z.min min_val raw) (Z.max max_val raw)
  end.

Definition calibrate (adc : nat -> Z) (self : PulseSensor) : PulseSensor :=
  let '(min_val, max_val) :=
    calibrate_loop adc 0 (calibration_samples self) 65535 0 in
  let self := set_baseline ((min_val + max_val) `div` 2) self in
  let self :=
    set_threshold
      (baseline self
       + int (inject_Z (max_val - min_val) * threshold_factor self)) self in
  let self := set_valley_value min_val self in
  let self := set_peak_value max_val self in
  set_calibrated true self.

(** ** [read_filtered] *)

Definition read_filtered (raw_reading : Z) (self : PulseSensor)
  : result (Z * Z * PulseSensor) :=
  rs ← list_setitem (readings self) (reading_index self) raw_reading;
  let self := set_readings rs self in
  ix ← py_mod (reading_index self + 1) (filter_size self);
  let self := set_reading_index ix self in
  fv ← py_floordiv (py_sum (readings self)) (filter_size self);
  let self := set_filtered_value fv self in
  OK (raw_reading, filtered_value self, self).

(** Successive [read_filtered] calls, one per raw value read; the result
    lists the pairs [(raw, filtered)] returned. *)
Fixpoint read_all (raws : list Z) (self : PulseSensor)
  : result (list (Z * Z) * PulseSensor) :=
  match raws with
  | [] => OK ([], self)
  | raw_reading :: rest =>
      '(raw, filtered, self) ← read_filtered raw_reading self;
      '(outs, self) ← read_all rest self;
      OK ((raw, filtered) :: outs, self)
  end.

(** ** [detect_beat] *)

(** Lines 94-98: the running peak and valley. *)
Definition update_peak_valley (filtered_val : Z) (self : PulseSensor)
  : PulseSensor :=
  let self :=
    if decide (filtered_val > peak_value self)
    then set_peak_value filtered_val self else self in
  if decide (filtered_val < valley_value self)
  then set_valley_value filtered_val self else self.

(** Lines 100-103: the dynamic threshold. *)
Definition adjust_threshold (self : PulseSensor) : PulseSensor :=
  let signal_range := peak_value self - valley_value self in
  if decide (signal_range > 1000)
  then set_threshold
         (valley_value self
          + int (inject_Z signal_range * threshold_factor self)) self
  else self.

(** Lines 125-127: the BPM of the interval window. *)
Definition average_bpm (intervals : list Z) : result Z :=
  avg_interval ← py_truediv (inject_Z (py_sum intervals))
                            (inject_Z (len intervals));
  q ← py_truediv (inject_Z 60000) avg_interval;
  OK (int q).

(** Lines 116-127: the interval is recorded when a beat was seen before. *)
Definition calculate_bpm (current_time : Z) (self : PulseSensor)
  : result PulseSensor :=
  if decide (last_beat_time self > 0) then
    let interval := ticks_diff current_time (last_beat_time self) in
    let self := set_beat_intervals (beat_intervals self ++ [interval]) self in
    (* pop(0): the list is not empty, an element has just been appended *)
    let self :=
      if decide (len (beat_intervals self) > max_intervals self)
      then set_beat_intervals (drop 1 (beat_intervals self)) self
      else self in
    if decide (len (beat_intervals self) >= 2) then
      bpm ← average_bpm (beat_intervals self);
      OK (set_current_bpm bpm self)
    else OK self
  else OK self.

(** The condition [filtered_val < self.threshold * 0.9]. *)
Definition below_hysteresis (filtered_val thr : Z) : bool :=
  if Qlt_le_dec (inject_Z filtered_val) (inject_Z thr * (9 # 10))
  then true else false.

(** The rising-edge condition of line 108-110. *)
Definition rising_edge (filtered_val current_time : Z) (self : PulseSensor)
  : bool :=
  bool_decide (filtered_val > threshold self)
  && negb (beat_detected self)
  && bool_decide (ticks_diff current_time (last_beat_time self)
                  > min_beat_interval self).

(** [detect_beat]: [adc_read] is the value [read_u16] returns in this call
    and [ticks_ms] the value of the clock. *)
Definition detect_beat (adc_read ticks_ms : Z) (self : PulseSensor)
  : result (bool * Z * Z * Z * PulseSensor) :=
  '(raw_val, filtered_val, self) ← read_filtered adc_read self;
  let current_time := ticks_ms in
  let self := update_peak_valley filtered_val self in
  let self := adjust_threshold self in
  if rising_edge filtered_val current_time self then
    let self := set_beat_detected true self in
    self ← calculate_bpm current_time self;
    let self := set_last_beat_time current_time self in
    OK (true, raw_val, filtered_val, current_bpm self, self)
  else if below_hysteresis filtered_val (threshold self) then
    let self := set_beat_detected false self in
    OK (false, raw_val, filtered_val, current_bpm self, self)
  else
    OK (false, raw_val, filtered_val, current_bpm self, self).

(** ** [get_signal_strength] *)

Definition get_signal_strength (self : PulseSensor) : Z :=
  let signal_range := peak_value self - valley_value self in
  Z.min 100 (Z.max 0 ((signal_range - 500) `div` 100)).

(** ** Runs of the sampling loop *)

(** One iteration of the main loop: the clock value of the call, the tuple
    [detect_beat] returned and the object after the call. *)
Record tick : Type := mkTick {
  tick_now : Z;
  tick_beat : bool;
  tick_raw : Z;
  tick_filtered : Z;
  tick_bpm : Z;
  tick_state : PulseSensor
}.

(** Successive [detect_beat] calls, one per input [(adc_read, ticks_ms)],
    with no [calibrate] in between. *)
Fixpoint run (inputs : list (Z * Z)) (self : PulseSensor)
  : result (list tick) :=
  match inputs with
  | [] => OK []
  | (adc_read, ticks_ms) :: rest =>
      '(beat, raw_val, filtered_val, bpm, self) ←
        detect_beat adc_read ticks_ms self;
      ticks ← run rest self;
      OK (mkTick ticks_ms beat raw_val filtered_val bpm self :: ticks)
  end.

(** The object after a run. *)
Definition final_state (self : PulseSensor) (ticks : list tick)
  : PulseSensor :=
  default self (tick_state <$> last ticks).

(** The object before call number [i] of a run (calls count from 0). *)
Definition state_before (self : PulseSensor) (ticks : list tick) (i : nat)
  : PulseSensor :=
  final_state self (take i ticks).

(** The observed signal range [peak_value - valley_value]. *)
Definition signal_range (self : PulseSensor) : Z :=
  peak_value self - valley_value self.

(** The clock values of the calls that reported a beat. *)
Definition beat_times (ticks : list tick) : list Z :=
  tick_now <$> filter (fun t => tick_beat t = true) ticks.

(** Successive values of [l] are exactly [d] apart. *)
Fixpoint spaced (d : Z) (l : list Z) : Prop :=
  match l with
  | x :: ((y :: _) as l') => y - x = d /\ spaced d l'
  | _ => True
  end.

(** The state after [m] beats of a 600 ms train whose latest beat was at
    [T]: the window ends with the intervals of the train (at most five),
    and five of them give a BPM of 100. *)
Definition in_train (m : nat) (T : Z) (s : PulseSensor) : Prop :=
  match m with
  | O => True
  | S n =>
      last_beat_time s = T
      /\ 0 < T
      /\ (exists old, beat_intervals s = old ++ replicate (n `min` 5) 600)
      /\ ((5 <= n)%nat -> current_bpm s = 100)
  end.

(** The beat times [l] continue a 600 ms train of [m] beats ending at [T]. *)
Definition train_continues (m : nat) (T : Z) (l : list Z) : Prop :=
  match l with
  | [] => True
  | x :: _ => (m <> 0%nat -> x = T + 600) /\ spaced 600 l
  end.

(** States reachable from construction by [calibrate] and [detect_beat]. *)
Inductive reachable : PulseSensor -> Prop :=
| reach_init factor interval :
    reachable (init factor interval)
| reach_calibrate adc s :
    reachable s -> reachable (calibrate adc s)
| reach_detect adc_read ticks_ms s beat raw_val filtered_val bpm s' :
    reachable s ->
    detect_beat adc_read ticks_ms s
      = OK (beat, raw_val, filtered_val, bpm, s') ->
    reachable s'.

(** The invariant under which no call raises. *)
Record wf (s : PulseSensor) : Prop := mkWf {
  wf_size : filter_size s = len (readings s);
  wf_size_pos : 0 < filter_size s;
  wf_index : 0 <= reading_index s < filter_size s;
  wf_intervals : Forall (fun d => 0 < d) (beat_intervals s);
  wf_min_interval : 0 <= min_beat_interval s;
  wf_last_beat : 0 <= last_beat_time s
}.

(** The interval window respects its capacity of five. *)
Definition window_ok (s : PulseSensor) : Prop :=
  max_intervals s = 5 /\ (length (beat_intervals s) <= 5)%nat.

(** The BPM agrees with the interval window. *)
Definition bpm_ok (s : PulseSensor) : Prop :=
  ((length (beat_intervals s) < 2)%nat -> current_bpm s = 0)
  /\ ((2 <= length (beat_intervals s))%nat ->
      average_bpm (beat_intervals s) = OK (current_bpm s)).

(** A value of the 16-bit converter ([read_u16]). *)
Definition u16 (x : Z) : Prop := 0 <= x <= 65535.

(** The window, the peak and the valley hold 16-bit values. *)
Definition adc_range (s : PulseSensor) : Prop :=
  Forall u16 (readings s) /\ u16 (peak_value s) /\ u16 (valley_value s).

(** Every interval in the window exceeds the refractory interval. *)
Definition intervals_gated (s : PulseSensor) : Prop :=
  Forall (fun d => min_beat_interval s < d) (beat_intervals s).

(** How far the sensor is on its way to a first BPM: the number of
    intervals in the window, plus one once a beat has been seen. *)
Definition beat_progress (s : PulseSensor) : nat :=
  length (beat_intervals s)
  + (if decide (last_beat_time s > 0) then 1 else 0).

(** The specification's clamp. *)
Definition clamp (lo hi x : Z) : Z := Z.max lo (Z.min hi x).

(** ** Sample inputs *)

(** Calibration readings that alternate between 20000 and 40000. *)
Definition alternating_readings (i : nat) : Z :=
  20000 + 20000 * (Z.of_nat i `mod` 2).


(** A square pulse train sampled every 30 ms: the raw value is low for ten
    calls and high for ten calls, so the filtered value is a triangle wave
    of period 600 ms. *)
Definition pulse_inputs : list (Z * Z) :=
  (fun k : nat =>
     (if (k mod 20 <? 10)%nat then 0 else 60000, 1000 + 30 * Z.of_nat k))
  <$> seq 0 160.

(** The sensor after the first forty calls of [pulse_inputs]. *)
Definition warm_sensor : PulseSensor :=
  Eval vm_compute in
    match run (take 40 pulse_inputs) default_sensor with
    | OK ticks => final_state default_sensor ticks
    | Raise _ => default_sensor
    end.

(** The remaining calls of [pulse_inputs]. *)
Definition steady_inputs : list (Z * Z) := drop 40 pulse_inputs.

(** The ticks of the run of [steady_inputs] from [warm_sensor]. *)
Definition steady_ticks : list tick :=
  Eval vm_compute in
    match run steady_inputs warm_sensor with
    | OK ticks => ticks
    | Raise _ => []
    end.

(** Four calls after the refractory interval of [warm_sensor] has elapsed,
    with the filtered value still above the hysteresis floor. *)
Definition hold_inputs : list (Z * Z) :=
  [(60000, 3000); (60000, 3030); (50000, 3060); (40000, 3090)].

(** The sensor after the first fifty-six calls of [pulse_inputs], just
    before the third beat. *)
Definition bpm_sensor : PulseSensor :=
  Eval vm_compute in
    match run (take 56 pulse_inputs) default_sensor with
    | OK ticks => final_state default_sensor ticks
    | Raise _ => default_sensor
    end.

(** A sensor calibrated on a steady reading of 5000, and eleven calls after
    it: one high reading, nine readings of 0 that keep the filtered value at
    6000, and a reading that brings the filtered value down to 4900. *)
Definition cold_sensor : PulseSensor :=
  calibrate (fun _ => 5000) default_sensor.

Definition cold_inputs : list (Z * Z) :=
  (60000, 1000)
  :: ((fun k : nat => (0, 1020 + 20 * Z.of_nat k)) <$> seq 0 9)
  ++ [(49000, 1200)].

(** A reading of 0, one high reading and eleven more readings of 0: the
    filtered value is 0, then 6000 for ten calls, then 0 again. *)
Definition spike_inputs : list (Z * Z) :=
  (0, 1000) :: (60000, 1020)
  :: ((fun k : nat => (0, 1040 + 20 * Z.of_nat k)) <$> seq 0 11).

(** A square wave of period 280 ms sampled every 20 ms: low for seven
    calls, high for seven calls. *)
Definition chatter_inputs : list (Z * Z) :=
  (fun k : nat =>
     (if (k mod 14 <? 7)%nat then 0 else 60000, 1000 + 20 * Z.of_nat k))
  <$> seq 0 70.

(** Forty readings of 0 every 500 ms: the signal has gone. *)
Definition silence_inputs : list (Z * Z) :=
  (fun k : nat => (0, 3000 + 500 * Z.of_nat k)) <$> seq 0 40.

(** * The music player ([music_player.py]) *)

(** ** Effects and exceptions of the output modules *)

(** The calls made to the hardware drivers and to [utime.sleep_ms], in the
    order in which they are made. *)
Inductive effect : Type :=
| buzzer_freq (frequency : Z)
| buzzer_duty_u16 (duty : Z)
| sleep_ms (ms : Z)
| display_fill (col : Z)
| display_text (text : string) (x y col : Z)
| display_line (x1 y1 x2 y2 col : Z)
| display_rect (x y w h col : Z)
| display_fill_rect (x y w h col : Z)
| display_show.

(** The exceptions of the sensor, and [KeyError]. *)
Inductive exception : Type :=
| Exn (e : exn)
| KeyError (key : string).

Inductive outcome (A : Type) : Type :=
| Returns (a : A)
| Raises (e : exception).

Arguments Returns {A} a.
Arguments Raises {A} e.

(** A computation with effects: the effects made, then the value returned
    or the exception raised.  The effects made before an exception stay. *)
Definition io (A : Type) : Type := (list effect * outcome A)%type.

Definition io_ret {A} (a : A) : io A := ([], Returns a).

Definition io_bind {A B} (m : io A) (k : A -> io B) : io B :=
  match m with
  | (t, Returns a) => let '(t', r) := k a in (t ++ t', r)
  | (t, Raises e) => (t, Raises e)
  end.

Definition emit (e : effect) : io unit := ([e], Returns tt).

Definition raise {A} (e : exception) : io A := ([], Raises e).

#[global] Instance io_mret : MRet io := @io_ret.
#[global] Instance io_mbind : MBind io := fun A B k m => io_bind m k.

(** The effects of a computation. *)
Definition trace {A} (m : io A) : list effect := m.1.

(** [l[i]] for a Python list. *)
Definition list_getitem {A} (l : list A) (i : Z) : io A :=
  if decide (0 <= i < Z.of_nat (length l)) then
    match l !! Z.to_nat i with
    | Some x => io_ret x
    | None => raise (Exn IndexError)
    end
  else if decide (- Z.of_nat (length l) <= i < 0) then
    match l !! Z.to_nat (Z.of_nat (length l) + i) with
    | Some x => io_ret x
    | None => raise (Exn IndexError)
    end
  else raise (Exn IndexError).

(** [d[key]] for a Python dict. *)
Definition dict_getitem (d : gmap string Z) (key : string) : io Z :=
  match d !! key with
  | Some v => io_ret v
  | None => raise (KeyError key)
  end.

(** ** The player object *)

Record MusicPlayer : Type := mkMusicPlayer {
  notes : gmap string Z;
  calm_melody : list string;
  normal_melody : list string;
  fast_melody : list string;
  current_melody : list string;
  melody_index : Z;
  beat_tone_duration : Z;
  melody_note_duration : Z;
  last_sound_time : Z
}.

Definition set_current_melody (v : list string) (p : MusicPlayer)
  : MusicPlayer :=
  mkMusicPlayer (notes p) (calm_melody p) (normal_melody p) (fast_melody p)
    v (melody_index p) (beat_tone_duration p) (melody_note_duration p)
    (last_sound_time p).

Definition set_melody_index (v : Z) (p : MusicPlayer) : MusicPlayer :=
  mkMusicPlayer (notes p) (calm_melody p) (normal_melody p) (fast_melody p)
    (current_melody p) v (beat_tone_duration p) (melody_note_duration p)
    (last_sound_time p).

Definition set_beat_tone_duration (v : Z) (p : MusicPlayer) : MusicPlayer :=
  mkMusicPlayer (notes p) (calm_melody p) (normal_melody p) (fast_melody p)
    (current_melody p) (melody_index p) v (melody_note_duration p)
    (last_sound_time p).

Definition set_last_sound_time (v : Z) (p : MusicPlayer) : MusicPlayer :=
  mkMusicPlayer (notes p) (calm_melody p) (normal_melody p) (fast_melody p)
    (current_melody p) (melody_index p) (beat_tone_duration p)
    (melody_note_duration p) v.

(** The note table of [__init__]. *)
Definition note_table : gmap string Z :=
  list_to_map
    [("C4", 262); ("D4", 294); ("E4", 330); ("F4", 349); ("G4", 392);
     ("A4", 440); ("B4", 494); ("C5", 523); ("D5", 587); ("E5", 659);
     ("F5", 698); ("G5", 784); ("A5", 880); ("B5", 988); ("C6", 1047);
     ("D6", 1175); ("E6", 1319)]%string.

(** The object [MusicPlayer.__init__] builds; the PWM handle is not part of
    the model. *)
Definition new_player : MusicPlayer :=
  {| notes := note_table;
     calm_melody := ["C4"; "E4"; "G4"; "C5"]%string;
     normal_melody :=
       ["C4"; "D4"; "E4"; "F4"; "G4"; "A4"; "B4"; "C5"]%string;
     fast_melody := ["C5"; "E5"; "G5"; "C6"; "G5"; "E5"]%string;
     current_melody :=
       ["C4"; "D4"; "E4"; "F4"; "G4"; "A4"; "B4"; "C5"]%string;
     melody_index := 0;
     beat_tone_duration := 150;
     melody_note_duration := 200;
     last_sound_time := 0 |}.

(** [MusicPlayer.__init__]: the buzzer starts silent. *)
Definition music_player_init : io MusicPlayer :=
  _ ← emit (buzzer_duty_u16 0); io_ret new_player.

(** ** The methods *)

Definition set_mode_by_bpm (bpm : Z) (self : MusicPlayer) : MusicPlayer :=
  if decide (bpm < 60) then
    set_beat_tone_duration 200 (set_current_melody (calm_melody self) self)
  else if decide (bpm > 100) then
    set_beat_tone_duration 100 (set_current_melody (fast_melody self) self)
  else
    set_beat_tone_duration 150 (set_current_melody (normal_melody self) self).

Definition play_tone (frequency duration_ms : Z) : io unit :=
  _ ← (if decide (frequency > 0) then
         _ ← emit (buzzer_freq frequency);
         _ ← emit (buzzer_duty_u16 32767);
         emit (sleep_ms duration_ms)
       else io_ret tt);
  emit (buzzer_duty_u16 0).

(** [play_beat_sound]; [bpm] is an integer, so is the argument of the first
    [int]; the product with 1.2 is evaluated exactly. *)
Definition play_beat_sound (bpm : Z) : io unit :=
  let base_freq := Z.max 200 (Z.min 800 (200 + (bpm - 50) * 8)) in
  _ ← play_tone base_freq 50;
  _ ← emit (sleep_ms 20);
  play_tone (int (inject_Z base_freq * (12 # 10))) 30.

(** The loop of [play_startup_sound] over the notes that remain. *)
Fixpoint play_notes (table : gmap string Z) (names : list string) : io unit :=
  match names with
  | [] => io_ret tt
  | note :: rest =>
      frequency ← dict_getitem table note;
      _ ← play_tone frequency 150;
      _ ← emit (sleep_ms 50);
      play_notes table rest
  end.

Definition play_startup_sound (self : MusicPlayer) : io unit :=
  play_notes (notes self) ["C4"; "E4"; "G4"; "C5"; "G4"; "C5"]%string.

(** The loop of [play_calibration_sound], [n] iterations to go. *)
Fixpoint calibration_beeps (n : nat) : io unit :=
  match n with
  | O => io_ret tt
  | S n' =>
      _ ← play_tone 440 100;
      _ ← emit (sleep_ms 100);
      calibration_beeps n'
  end.

Definition play_calibration_sound : io unit := calibration_beeps 3.

Definition silence : io unit := emit (buzzer_duty_u16 0).

(** [play_ambient_rhythm]; [ticks_ms] is the value of the clock. *)
Definition play_ambient_rhythm (bpm ticks_ms : Z) (self : MusicPlayer)
  : io MusicPlayer :=
  let current_time := ticks_ms in
  let beat_interval := 60000 `div` Z.max bpm 1 in
  if decide (ticks_diff current_time (last_sound_time self) > beat_interval)
  then
    let base_freq := 150 + (bpm - 60) * 2 in
    _ ← emit (buzzer_freq base_freq);
    _ ← emit (buzzer_duty_u16 8192);
    _ ← emit (sleep_ms 20);
    _ ← emit (buzzer_duty_u16 0);
    io_ret (set_last_sound_time current_time self)
  else io_ret self.

Section MelodyPitch.

(** [melody_pitch freq bpm] stands for
    [int(freq * (1.0 + (bpm - 70) / 200.0))].  Its value depends on how
    the floating-point arithmetic of the port rounds the product (for
    A4 = 440 at 75 BPM the exact value is 451, double precision gives
    450), so it is a parameter of [play_melody_note]. *)
Variable melody_pitch : Z -> Z -> Z.

Definition play_melody_note (bpm : Z) (self : MusicPlayer)
  : io MusicPlayer :=
  if decide (Z.of_nat (length (current_melody self)) = 0) then io_ret self
  else
    note ← list_getitem (current_melody self) (melody_index self);
    freq ← dict_getitem (notes self) note;
    let freq := melody_pitch freq bpm in
    _ ← play_tone freq (melody_note_duration self);
    io_ret
      (set_melody_index
         ((melody_index self + 1)
          `mod` Z.of_nat (length (current_melody self))) self).

End MelodyPitch.

(** The pitch evaluated exactly. *)
Definition exact_pitch (freq bpm : Z) : Z :=
  int (inject_Z freq * (1 + inject_Z (bpm - 70) / 200)).

(** The duty cycle of the buzzer after the effects [t], from duty [d]. *)
Definition duty_after (d : Z) (t : list effect) : Z :=
  fold_left
    (fun d e => match e with buzzer_duty_u16 d' => d' | _ => d end) t d.

(** The time spent in [sleep_ms] during the effects [t]. *)
Definition time_slept (t : list effect) : Z :=
  fold_left
    (fun ms e => match e with sleep_ms d => ms + d | _ => ms end) t 0.

(** The frequencies set on the buzzer during the effects [t]. *)
Definition frequencies (t : list effect) : list Z :=
  omap (fun e => match e with buzzer_freq f => Some f | _ => None end) t.

(** Successive [play_melody_note] calls, one per BPM value given. *)
Fixpoint play_melody_notes (melody_pitch : Z -> Z -> Z) (bpms : list Z)
    (self : MusicPlayer) : io MusicPlayer :=
  match bpms with
  | [] => io_ret self
  | bpm :: rest =>
      self ← play_melody_note melody_pitch bpm self;
      play_melody_notes melody_pitch rest self
  end.

(** Every note of the current melody is in the table and the index is
    inside the melody. *)
Definition melody_ok (p : MusicPlayer) : Prop :=
  Forall (fun name => is_Some (notes p !! name)) (current_melody p)
  /\ 0 <= melody_index p < Z.of_nat (length (current_melody p)).

(** The table frequency of the note [k] places after the index, cyclically
    (0 where there is none). *)
Definition note_ahead (p : MusicPlayer) (k : nat) : Z :=
  default 0
    (name ← current_melody p
              !! Z.to_nat ((melody_index p + Z.of_nat k)
                           `mod` Z.of_nat (length (current_melody p)));
     notes p !! name).

(** * The display ([display.py]) *)

(** The calls [HeartDisplay] makes on its [SSD1306_I2C] object are the
    [display_] effects; the driver itself (frame buffer and I2C commands)
    is not part of the model.  [print] output is not modelled. *)

(** A sensor-style result as a computation with effects. *)
Definition lift {A} (r : result A) : io A :=
  match r with
  | OK a => io_ret a
  | Raise e => raise (Exn e)
  end.

(** ** The display object *)

Record HeartDisplay : Type := mkHeartDisplay {
  waveform_width : Z;
  waveform_height : Z;
  waveform_y_offset : Z;
  waveform_buffer : list Z;
  waveform_index : Z;
  heart_beat_time : Z;
  heart_scale : Z;
  last_update_time : Z;
  update_interval : Z
}.

Definition set_waveform_buffer (v : list Z) (d : HeartDisplay)
  : HeartDisplay :=
  mkHeartDisplay (waveform_width d) (waveform_height d) (waveform_y_offset d)
    v (waveform_index d) (heart_beat_time d) (heart_scale d)
    (last_update_time d) (update_interval d).

Definition set_waveform_index (v : Z) (d : HeartDisplay) : HeartDisplay :=
  mkHeartDisplay (waveform_width d) (waveform_height d) (waveform_y_offset d)
    (waveform_buffer d) v (heart_beat_time d) (heart_scale d)
    (last_update_time d) (update_interval d).

Definition set_heart_beat_time (v : Z) (d : HeartDisplay) : HeartDisplay :=
  mkHeartDisplay (waveform_width d) (waveform_height d) (waveform_y_offset d)
    (waveform_buffer d) (waveform_index d) v (heart_scale d)
    (last_update_time d) (update_interval d).

Definition set_heart_scale (v : Z) (d : HeartDisplay) : HeartDisplay :=
  mkHeartDisplay (waveform_width d) (waveform_height d) (waveform_y_offset d)
    (waveform_buffer d) (waveform_index d) (heart_beat_time d) v
    (last_update_time d) (update_interval d).

Definition set_last_update_time (v : Z) (d : HeartDisplay) : HeartDisplay :=
  mkHeartDisplay (waveform_width d) (waveform_height d) (waveform_y_offset d)
    (waveform_buffer d) (waveform_index d) (heart_beat_time d)
    (heart_scale d) v (update_interval d).

(** The object [HeartDisplay.__init__] builds. *)
Definition new_display : HeartDisplay :=
  {| waveform_width := 128;
     waveform_height := 32;
     waveform_y_offset := 32;
     waveform_buffer := replicate 128%nat 32;
     waveform_index := 0;
     heart_beat_time := 0;
     heart_scale := 0;
     last_update_time := 0;
     update_interval := 50 |}.

(** ** The methods *)

Definition show_startup_screen : io unit :=
  _ ← emit (display_fill 0);
  _ ← emit (display_text "Beat to Music" 15 10 1);
  _ ← emit (display_text "Heart Monitor" 15 25 1);
  _ ← emit (display_text "Initializing..." 10 45 1);
  emit display_show.

Definition show_error (message : string) : io unit :=
  _ ← emit (display_fill 0);
  _ ← emit (display_text "ERROR:" 30 20 1);
  _ ← emit (display_text message 10 35 1);
  emit display_show.

(** [max(0, min(31, int(value / 2048)))]: the quotient by a power of two
    is exact. *)
Definition normalized (value : Z) : Z :=
  Z.max 0 (Z.min 31 (int (inject_Z value / 2048))).

Definition add_waveform_point (value : Z) (self : HeartDisplay)
  : io HeartDisplay :=
  let normalized := normalized value in
  buffer ← lift (list_setitem (waveform_buffer self) (waveform_index self)
                   normalized);
  let self := set_waveform_buffer buffer self in
  index ← lift (py_mod (waveform_index self + 1) (waveform_width self));
  io_ret (set_waveform_index index self).

(** The loop of [draw_waveform] from [i], [n] iterations to go. *)
Fixpoint draw_segments (self : HeartDisplay) (i : Z) (n : nat) : io unit :=
  match n with
  | O => io_ret tt
  | S n' =>
      let x1 := i in
      b1 ← list_getitem (waveform_buffer self) i;
      let y1 := waveform_y_offset self + (31 - b1) in
      let x2 := i + 1 in
      j ← lift (py_mod (i + 1) (waveform_width self));
      b2 ← list_getitem (waveform_buffer self) j;
      let y2 := waveform_y_offset self + (31 - b2) in
      _ ← emit (display_line x1 y1 x2 y2 1);
      draw_segments self (i + 1) n'
  end.

Definition draw_waveform (self : HeartDisplay) : io unit :=
  _ ← emit (display_fill_rect 0 (waveform_y_offset self) 128
              (waveform_height self) 0);
  _ ← draw_segments self 0 (Z.to_nat (waveform_width self - 1));
  emit (display_line 0 (waveform_y_offset self + 16)
          127 (waveform_y_offset self + 16) 1).

(** [draw_heart_icon]; [ticks_ms] is the value of the clock. *)
Definition draw_heart_icon (beat_detected : bool) (ticks_ms : Z)
    (self : HeartDisplay) : io HeartDisplay :=
  let current_time := ticks_ms in
  let self :=
    if beat_detected then
      set_heart_scale 3 (set_heart_beat_time current_time self)
    else
      let time_since_beat :=
        ticks_diff current_time (heart_beat_time self) in
      if decide (time_since_beat < 200) then
        set_heart_scale (3 - (time_since_beat * 3) `div` 200) self
      else set_heart_scale 0 self in
  let heart_x := 105 in
  let heart_y := 8 in
  let size := 1 + heart_scale self in
  if decide (size > 1) then
    _ ← emit (display_fill_rect (heart_x - size) heart_y (size * 2) size 1);
    _ ← emit (display_fill_rect (heart_x - size `div` 2)
                (heart_y - size `div` 2) size (size `div` 2) 1);
    _ ← emit (display_fill_rect heart_x (heart_y - size `div` 2)
                size (size `div` 2) 1);
    io_ret self
  else io_ret self.

(** [str(n)] for an integer. *)
Definition str (n : Z) : string := pretty n.

(** [f"{n:3d}"]: the decimal digits, padded with spaces on the left to
    three characters. *)
Definition format_3d (n : Z) : string :=
  let s := str n in
  String.concat "" (replicate (3 - String.length s)%nat " ") +:+ s.

Definition bpm_text (bpm : Z) : string :=
  if decide (bpm > 0) then "BPM: " +:+ format_3d bpm else "BPM: ---".

Definition signal_text (signal_strength : Z) : string :=
  "Sig: " +:+ str signal_strength +:+ "%".

(** The status indicator of [update_display]. *)
Definition status_indicator (bpm signal_strength : Z) : io unit :=
  if decide (signal_strength < 30) then
    emit (display_text "Check sensor!" 5 55 1)
  else if decide (bpm > 100) then emit (display_text "Fast!" 80 5 1)
  else if decide (bpm < 60 /\ bpm > 0) then
    emit (display_text "Calm" 80 5 1)
  else io_ret tt.

(** [update_display]; [ticks_ms] is the value of the clock read by the
    method, [heart_ticks_ms] the value read by [draw_heart_icon]. *)
Definition update_display (bpm signal_strength : Z) (beat_detected : bool)
    (raw_value : Z) (ticks_ms heart_ticks_ms : Z) (self : HeartDisplay)
  : io HeartDisplay :=
  let current_time := ticks_ms in
  if decide (ticks_diff current_time (last_update_time self)
             < update_interval self)
  then io_ret self
  else
    _ ← emit (display_fill 0);
    self ← add_waveform_point raw_value self;
    _ ← draw_waveform self;
    _ ← emit (display_text (bpm_text bpm) 5 5 1);
    _ ← emit (display_text (signal_text signal_strength) 5 15 1);
    self ← draw_heart_icon beat_detected heart_ticks_ms self;
    _ ← status_indicator bpm signal_strength;
    _ ← emit display_show;
    io_ret (set_last_update_time current_time self).

(** ** Runs and invariants of the display *)

(** Successive [add_waveform_point] calls. *)
Fixpoint add_waveform_points (values : list Z) (self : HeartDisplay)
  : io HeartDisplay :=
  match values with
  | [] => io_ret self
  | value :: rest =>
      self ← add_waveform_point value self;
      add_waveform_points rest self
  end.

(** One call of [update_display]: its arguments and the two clock
    values. *)
Record frame : Type := mkFrame {
  frame_bpm : Z;
  frame_strength : Z;
  frame_beat : bool;
  frame_raw : Z;
  frame_now : Z;
  frame_heart_now : Z
}.

(** Successive [update_display] calls. *)
Fixpoint update_displays (frames : list frame) (self : HeartDisplay)
  : io HeartDisplay :=
  match frames with
  | [] => io_ret self
  | f :: rest =>
      self ← update_display (frame_bpm f) (frame_strength f) (frame_beat f)
               (frame_raw f) (frame_now f) (frame_heart_now f) self;
      update_displays rest self
  end.

(** The buffer has one entry per column and the index is a column. *)
Definition wave_ok (d : HeartDisplay) : Prop :=
  waveform_width d = len (waveform_buffer d)
  /\ 0 <= waveform_index d < waveform_width d.

(** Every buffer entry is a height the initial value or a stored point can
    have. *)
Definition heights_ok (d : HeartDisplay) : Prop :=
  Forall (fun b => 0 <= b <= 32) (waveform_buffer d).

(** The invariant of the display object: the geometry [__init__] sets, a
    buffer of that width and heights that fit. *)
Definition display_ok (d : HeartDisplay) : Prop :=
  wave_ok d /\ heights_ok d
  /\ waveform_width d = 128 /\ waveform_height d = 32
  /\ waveform_y_offset d = 32.

(** The pixel rectangle of a drawing call, as [(x_min, y_min, x_max,
    y_max)] with inclusive corners; [None] for the calls that draw no
    shape of their own extent. *)
Definition extent (e : effect) : option (Z * Z * Z * Z) :=
  match e with
  | display_line x1 y1 x2 y2 _ =>
      Some (Z.min x1 x2, Z.min y1 y2, Z.max x1 x2, Z.max y1 y2)
  | display_rect x y w h _ | display_fill_rect x y w h _ =>
      Some (x, y, x + w - 1, y + h - 1)
  | _ => None
  end.

(** The drawing call stays on the 128 x 64 screen. *)
Definition on_screen (e : effect) : Prop :=
  match extent e with
  | Some (x0, y0, x1, y1) => 0 <= x0 /\ x1 <= 127 /\ 0 <= y0 /\ y1 <= 63
  | None => True
  end.

(** The line [draw_waveform] should draw between the columns [i] and
    [i + 1]: each buffer entry [b] is plotted at height [31 - b] below the
    top of the waveform area. *)
Definition segment (d : HeartDisplay) (i : nat) : effect :=
  display_line (Z.of_nat i)
    (waveform_y_offset d + (31 - waveform_buffer d !!! i))
    (Z.of_nat i + 1)
    (waveform_y_offset d + (31 - waveform_buffer d !!! S i)) 1.

(** The texts written during the effects [t], with their positions. *)
Definition texts (t : list effect) : list (string * Z * Z) :=
  omap (fun e => match e with
                 | display_text s x y _ => Some (s, x, y)
                 | _ => None
                 end) t.

(** The number of [show] calls during the effects [t]. *)
Definition shows (t : list effect) : Z :=
  len (omap (fun e => match e with
                      | display_show => Some 0
                      | _ => None
                      end) t).

(** * The application ([main.py]) *)

(** ** The application object *)

Module App.

Record BeatToMusicApp : Type := mkApp {
  display : HeartDisplay;
  pulse_sensor : PulseSensor;
  music_player : MusicPlayer;
  running : bool;
  last_beat_time : Z;
  beat_count : Z;
  app_start_time : Z;
  loop_count : Z;
  last_performance_check : Z
}.

Definition set_display (v : HeartDisplay) (a : BeatToMusicApp)
  : BeatToMusicApp :=
  mkApp v (pulse_sensor a) (music_player a) (running a) (last_beat_time a)
    (beat_count a) (app_start_time a) (loop_count a)
    (last_performance_check a).

Definition set_pulse_sensor (v : PulseSensor) (a : BeatToMusicApp)
  : BeatToMusicApp :=
  mkApp (display a) v (music_player a) (running a) (last_beat_time a)
    (beat_count a) (app_start_time a) (loop_count a)
    (last_performance_check a).

Definition set_music_player (v : MusicPlayer) (a : BeatToMusicApp)
  : BeatToMusicApp :=
  mkApp (display a) (pulse_sensor a) v (running a) (last_beat_time a)
    (beat_count a) (app_start_time a) (loop_count a)
    (last_performance_check a).

Definition set_running (v : bool) (a : BeatToMusicApp) : BeatToMusicApp :=
  mkApp (display a) (pulse_sensor a) (music_player a) v (last_beat_time a)
    (beat_count a) (app_start_time a) (loop_count a)
    (last_performance_check a).

Definition set_last_beat_time (v : Z) (a : BeatToMusicApp)
  : BeatToMusicApp :=
  mkApp (display a) (pulse_sensor a) (music_player a) (running a) v
    (beat_count a) (app_start_time a) (loop_count a)
    (last_performance_check a).

Definition set_beat_count (v : Z) (a : BeatToMusicApp) : BeatToMusicApp :=
  mkApp (display a) (pulse_sensor a) (music_player a) (running a)
    (last_beat_time a) v (app_start_time a) (loop_count a)
    (last_performance_check a).

Definition set_loop_count (v : Z) (a : BeatToMusicApp) : BeatToMusicApp :=
  mkApp (display a) (pulse_sensor a) (music_player a) (running a)
    (last_beat_time a) (beat_count a) (app_start_time a) v
    (last_performance_check a).

Definition set_last_performance_check (v : Z) (a : BeatToMusicApp)
  : BeatToMusicApp :=
  mkApp (display a) (pulse_sensor a) (music_player a) (running a)
    (last_beat_time a) (beat_count a) (app_start_time a) (loop_count a) v.

End App.

(** The object [BeatToMusicApp.__init__] builds when the hardware
    initialises; [start_time] and [check_time] are the two clock values it
    reads. *)
Definition new_app (start_time check_time : Z) : App.BeatToMusicApp :=
  {| App.display := new_display;
     App.pulse_sensor := init (6 # 10) 300;
     App.music_player := new_player;
     App.running := false;
     App.last_beat_time := 0;
     App.beat_count := 0;
     App.app_start_time := start_time;
     App.loop_count := 0;
     App.last_performance_check := check_time |}.

(** ** The methods *)

(** [monitor_performance]: the report is printed only, and its two
    quotients have the divisors 1000 and [max(1, ...)]. *)
Definition monitor_performance (ticks_ms : Z) (self : App.BeatToMusicApp)
  : App.BeatToMusicApp :=
  let current_time := ticks_ms in
  if decide (ticks_diff current_time (App.last_performance_check self)
             > 5000)
  then App.set_last_performance_check current_time self
  else self.

(** [shutdown]. *)
Definition shutdown (self : App.BeatToMusicApp) : io App.BeatToMusicApp :=
  let self := App.set_running false self in
  _ ← silence;
  _ ← emit (display_fill 0);
  _ ← emit (display_text "Goodbye!" 35 28 1);
  _ ← emit display_show;
  io_ret self.

(** The handler of the main loop for an exception other than
    [KeyboardInterrupt]. *)
Definition on_runtime_error : io unit :=
  _ ← show_error "Runtime error!";
  emit (sleep_ms 2000).

(** The clock values one iteration of the main loop reads, in the order of
    the reads: at the top of the loop, in [detect_beat], in
    [handle_beat_detected] (read only after a beat), in [update_display],
    in [draw_heart_icon] (read only when the screen is refreshed), in
    [monitor_performance] and at the end of the loop. *)
Record loop_clock : Type := mkLoopClock {
  t_loop_start : Z;
  t_detect : Z;
  t_beat : Z;
  t_display : Z;
  t_heart : Z;
  t_monitor : Z;
  t_loop_end : Z
}.

Section MainLoop.

Variable melody_pitch : Z -> Z -> Z.

(** [handle_beat_detected]; [ticks_ms] is the value of the clock. *)
Definition handle_beat_detected (bpm ticks_ms : Z) (self : App.BeatToMusicApp)
  : io App.BeatToMusicApp :=
  let current_time := ticks_ms in
  let self := App.set_beat_count (App.beat_count self + 1) self in
  _ ← play_beat_sound bpm;
  self ← (if decide (App.beat_count self `mod` 4 = 0) then
            player ← play_melody_note melody_pitch bpm
                       (App.music_player self);
            io_ret (App.set_music_player player self)
          else io_ret self);
  io_ret (App.set_last_beat_time current_time self).

(** The body of the [try] block of [run_main_loop]: one iteration;
    [adc_read] is the value the converter returns.  [gc.collect] is not
    modelled. *)
Definition loop_body (adc_read : Z) (clock : loop_clock)
    (self : App.BeatToMusicApp) : io App.BeatToMusicApp :=
  let loop_start := t_loop_start clock in
  '(beat_detected, raw_value, filtered_value, bpm, sensor) ←
    lift (detect_beat adc_read (t_detect clock) (App.pulse_sensor self));
  let self := App.set_pulse_sensor sensor self in
  self ← (if beat_detected : bool then
            handle_beat_detected bpm (t_beat clock) self
          else io_ret self);
  let self :=
    App.set_music_player (set_mode_by_bpm bpm (App.music_player self))
      self in
  let signal_strength := get_signal_strength (App.pulse_sensor self) in
  display ← update_display bpm signal_strength beat_detected raw_value
              (t_display clock) (t_heart clock) (App.display self);
  let self := App.set_display display self in
  let self := monitor_performance (t_monitor clock) self in
  let loop_time := ticks_diff (t_loop_end clock) loop_start in
  _ ← (if decide (loop_time < 20) then emit (sleep_ms (20 - loop_time))
       else io_ret tt);
  io_ret (App.set_loop_count (App.loop_count self + 1) self).

(** Successive [handle_beat_detected] calls, one per [(bpm, ticks_ms)]. *)
Fixpoint handle_beats (beats : list (Z * Z)) (self : App.BeatToMusicApp)
  : io App.BeatToMusicApp :=
  match beats with
  | [] => io_ret self
  | (bpm, ticks_ms) :: rest =>
      self ← handle_beat_detected bpm ticks_ms self;
      handle_beats rest self
  end.

End MainLoop.

(** The number of multiples of four among [c + 1], ..., [c + k]. *)
Definition fourth_beats (c k : Z) : Z := (c + k) `div` 4 - c `div` 4.

(** The effects of one pass through the [while] body: those of the [try]
    block, then those of the handler when the block raised. *)
Definition loop_effects (r : io App.BeatToMusicApp) : list effect :=
  match r with
  | (t, Returns _) => t
  | (t, Raises _) => t ++ trace on_runtime_error
  end.

(** ** Effects of an iteration *)

(** The effect is a call on the buzzer. *)
Definition buzzer_call (e : effect) : Prop :=
  match e with
  | buzzer_freq _ | buzzer_duty_u16 _ => True
  | _ => False
  end.

(** The effect is a call on the display. *)
Definition display_call (e : effect) : Prop :=
  match e with
  | display_fill _ | display_text _ _ _ _ | display_line _ _ _ _ _
  | display_rect _ _ _ _ _ | display_fill_rect _ _ _ _ _
  | display_show => True
  | _ => False
  end.

(** The pause at the end of an iteration that took less than 20 ms. *)
Definition loop_pause (clock : loop_clock) : list effect :=
  let loop_time := ticks_diff (t_loop_end clock) (t_loop_start clock) in
  if decide (loop_time < 20) then [sleep_ms (20 - loop_time)] else [].

(** The application after the part of an iteration that follows the beat
    handling: mode, display, performance check and loop count. *)
Definition after_iteration (bpm : Z) (d : HeartDisplay) (clock : loop_clock)
    (a : App.BeatToMusicApp) : App.BeatToMusicApp :=
  App.set_loop_count (App.loop_count a + 1)
    (monitor_performance (t_monitor clock)
       (App.set_display d
          (App.set_music_player
             (set_mode_by_bpm bpm (App.music_player a)) a))).

(** An application with [bpm_sensor] as its sensor and three beats
    counted, and the clock of an iteration that starts at 2680 ms and
    spends 300 ms on the sounds of a beat. *)
Definition sample_app : App.BeatToMusicApp :=
  App.set_beat_count 3 (App.set_pulse_sensor bpm_sensor (new_app 0 0)).

Definition sample_clock : loop_clock :=
  {| t_loop_start := 2680; t_detect := 2680; t_beat := 2681;
     t_display := 2981; t_heart := 2982; t_monitor := 2990;
     t_loop_end := 2991 |}.

(** The same application after five melody notes and a change to the
    calm melody: the index 5 is beyond its four notes. *)
Definition stuck_app : App.BeatToMusicApp :=
  App.set_music_player
    (set_mode_by_bpm 50 (set_melody_index 5 new_player)) sample_app.

(** * Basic facts *)

Lemma bind_OK {A B} (m : result A) (f : A -> result B) (b : B) :
  m ≫= f = OK b -> exists a, m = OK a /\ f a = OK b.
Proof. destruct m as [a|e]; simpl; [eauto | discriminate]. Qed.

(** Proves [wf] of a concrete state by evaluation. *)
Ltac concrete_wf :=
  constructor; simpl;
  first [reflexivity | lia | repeat constructor; lia].

Ltac inv_bind H :=
  let a := fresh "a" in
  let Ha := fresh "Ha" in
  apply bind_OK in H; destruct H as (a & Ha & H).

Lemma py_sum_from (l : list Z) (a : Z) : fold_left Z.add l a = a + py_sum l.
Proof.
  unfold py_sum. revert a.
  induction l as [|x l IH]; intros a; simpl; [lia|].
  rewrite (IH (a + x)), (IH (0 + x)). lia.
Qed.

Lemma py_sum_cons (x : Z) (l : list Z) : py_sum (x :: l) = x + py_sum l.
Proof. unfold py_sum at 1. simpl. apply py_sum_from. Qed.

Lemma py_sum_app (l k : list Z) : py_sum (l ++ k) = py_sum l + py_sum k.
Proof.
  induction l as [|x l IH]; simpl; [reflexivity|].
  rewrite !py_sum_cons, IH. lia.
Qed.

Lemma py_sum_pos (l : list Z) :
  l <> [] -> Forall (fun d => 0 < d) l -> 0 < py_sum l.
Proof.
  intros Hne Hall. destruct Hall as [|x l Hx Hl]; [congruence|].
  rewrite py_sum_cons. clear Hne.
  induction Hl as [|y l Hy Hl IH]; [unfold py_sum; simpl; lia|].
  rewrite py_sum_cons. lia.
Qed.

(** Truncation of a scaled non-negative integer, for a factor in [0, 1]. *)
Lemma int_scale_bounds (r : Z) (f : Q) :
  (0 <= f)%Q -> (f <= 1)%Q -> 0 <= r ->
  0 <= int (inject_Z r * f) <= r.
Proof.
  destruct f as [n d]. unfold Qle, int. simpl. intros H0 H1 Hr.
  rewrite Z.quot_div_nonneg by nia.
  split.
  - apply Z.div_pos; nia.
  - apply Z.div_le_upper_bound; nia.
Qed.

Lemma int_scale_mono (a b : Z) (f : Q) :
  (0 <= f)%Q -> 0 <= a <= b ->
  int (inject_Z a * f) <= int (inject_Z b * f).
Proof.
  destruct f as [n d]. unfold Qle, int. simpl. intros H0 Hab.
  rewrite !Z.quot_div_nonneg by nia.
  apply Z.div_le_mono; nia.
Qed.

(** ** One call of [read_filtered] *)

Lemma read_filtered_inv raw s r f s1 :
  read_filtered raw s = OK (r, f, s1) ->
  exists rs,
    list_setitem (readings s) (reading_index s) raw = OK rs
    /\ filter_size s <> 0
    /\ r = raw
    /\ f = py_sum rs `div` filter_size s
    /\ s1 = set_filtered_value f
              (set_reading_index ((reading_index s + 1) `mod` filter_size s)
                 (set_readings rs s)).
Proof.
  unfold read_filtered. intros H.
  inv_bind H. exists a. split; [assumption|].
  unfold py_mod, py_floordiv in H. simpl in H.
  destruct (decide (filter_size s = 0)); simpl in H; [discriminate|].
  injection H as <- <- <-. auto.
Qed.

(** ** One call of [detect_beat] *)

Lemma detect_beat_inv raw now s b r f bpm s' :
  detect_beat raw now s = OK (b, r, f, bpm, s') ->
  exists s1,
    read_filtered raw s = OK (r, f, s1)
    /\ let s2 := adjust_threshold (update_peak_valley f s1) in
       if b then
         rising_edge f now s2 = true
         /\ exists s3,
              calculate_bpm now (set_beat_detected true s2) = OK s3
              /\ s' = set_last_beat_time now s3
              /\ bpm = current_bpm s3
       else
         rising_edge f now s2 = false
         /\ s' = (if below_hysteresis f (threshold s2)
                  then set_beat_detected false s2 else s2)
         /\ bpm = current_bpm s2.
Proof.
  unfold detect_beat. intros H.
  inv_bind H. destruct a as [[r0 f0] s1]. exists s1.
  destruct (rising_edge f0 now (adjust_threshold (update_peak_valley f0 s1)))
    eqn:Hedge.
  - inv_bind H. injection H as <- <- <- <- <-.
    split; [assumption|]. simpl. split; [assumption|]. eauto.
  - destruct (below_hysteresis f0 _) eqn:Hh;
      injection H as <- <- <- <- <-;
      (split; [assumption|]); simpl; rewrite Hedge, ?Hh; auto.
Qed.

(** Fields that [update_peak_valley] and [adjust_threshold] leave alone. *)
Lemma update_peak_valley_peak f s :
  peak_value (update_peak_valley f s) = Z.max (peak_value s) f.
Proof. unfold update_peak_valley. repeat case_decide; simpl in *; lia. Qed.

Lemma update_peak_valley_valley f s :
  valley_value (update_peak_valley f s) = Z.min (valley_value s) f.
Proof. unfold update_peak_valley. repeat case_decide; simpl in *; lia. Qed.

Lemma update_peak_valley_threshold f s :
  threshold (update_peak_valley f s) = threshold s.
Proof. unfold update_peak_valley. repeat case_decide; reflexivity. Qed.

Lemma update_peak_valley_factor f s :
  threshold_factor (update_peak_valley f s) = threshold_factor s.
Proof. unfold update_peak_valley. repeat case_decide; reflexivity. Qed.

Lemma adjust_threshold_peak s :
  peak_value (adjust_threshold s) = peak_value s.
Proof. unfold adjust_threshold. case_decide; reflexivity. Qed.

Lemma adjust_threshold_valley s :
  valley_value (adjust_threshold s) = valley_value s.
Proof. unfold adjust_threshold. case_decide; reflexivity. Qed.

Lemma adjust_threshold_factor s :
  threshold_factor (adjust_threshold s) = threshold_factor s.
Proof. unfold adjust_threshold. case_decide; reflexivity. Qed.

Lemma adjust_threshold_spec s :
  threshold (adjust_threshold s)
  = if decide (peak_value s - valley_value s > 1000)
    then valley_value s
         + int (inject_Z (peak_value s - valley_value s) * threshold_factor s)
    else threshold s.
Proof. unfold adjust_threshold. case_decide; reflexivity. Qed.

(** What [calculate_bpm] leaves alone. *)
Lemma calculate_bpm_frame now s s3 :
  calculate_bpm now s = OK s3 ->
  threshold_factor s3 = threshold_factor s
  /\ min_beat_interval s3 = min_beat_interval s
  /\ filter_size s3 = filter_size s
  /\ readings s3 = readings s
  /\ reading_index s3 = reading_index s
  /\ threshold s3 = threshold s
  /\ peak_value s3 = peak_value s
  /\ valley_value s3 = valley_value s
  /\ beat_detected s3 = beat_detected s
  /\ last_beat_time s3 = last_beat_time s
  /\ max_intervals s3 = max_intervals s.
Proof.
  unfold calculate_bpm. intros H.
  repeat case_decide; try inv_bind H; injection H as <-; simpl;
    repeat split; reflexivity.
Qed.

(** The detection part of the object after one [detect_beat]: the peak, the
    valley and the threshold depend on the filtered value only. *)
Lemma detect_beat_levels raw now s b r f bpm s' :
  detect_beat raw now s = OK (b, r, f, bpm, s') ->
  peak_value s' = Z.max (peak_value s) f
  /\ valley_value s' = Z.min (valley_value s) f
  /\ threshold_factor s' = threshold_factor s
  /\ threshold s'
     = if decide (peak_value s' - valley_value s' > 1000)
       then valley_value s'
            + int (inject_Z (peak_value s' - valley_value s')
                   * threshold_factor s')
       else threshold s.
Proof.
  intros H. apply detect_beat_inv in H as (s1 & Hread & H).
  apply read_filtered_inv in Hread as (rs & _ & _ & _ & _ & ->).
  set (s0 := set_filtered_value f _) in *.
  assert (Hp : peak_value s0 = peak_value s) by reflexivity.
  assert (Hv : valley_value s0 = valley_value s) by reflexivity.
  assert (Ht : threshold s0 = threshold s) by reflexivity.
  assert (Hf : threshold_factor s0 = threshold_factor s) by reflexivity.
  clearbody s0. simpl in H.
  set (s2 := adjust_threshold (update_peak_valley f s0)) in *.
  assert (H2 : peak_value s2 = Z.max (peak_value s) f
               /\ valley_value s2 = Z.min (valley_value s) f
               /\ threshold_factor s2 = threshold_factor s
               /\ threshold s2
                  = if decide (peak_value s2 - valley_value s2 > 1000)
                    then valley_value s2
                         + int (inject_Z (peak_value s2 - valley_value s2)
                                * threshold_factor s2)
                    else threshold s).
  { subst s2.
    rewrite adjust_threshold_spec, adjust_threshold_peak,
      adjust_threshold_valley, adjust_threshold_factor,
      update_peak_valley_peak, update_peak_valley_valley,
      update_peak_valley_factor, update_peak_valley_threshold, Hp, Hv, Ht, Hf.
    auto. }
  clearbody s2. destruct b.
  - destruct H as (_ & s3 & Hc & -> & _).
    apply calculate_bpm_frame in Hc. simpl in *.
    destruct Hc as (-> & _ & _ & _ & _ & -> & -> & -> & _). exact H2.
  - destruct H as (_ & -> & _).
    destruct (below_hysteresis f (threshold s2)); exact H2.
Qed.

(** ** The BPM of a window of positive intervals *)

Lemma average_bpm_pos (l : list Z) :
  l <> [] -> 0 < py_sum l ->
  average_bpm l = OK ((60000 * len l) `div` py_sum l).
Proof.
  intros Hne Hsum. unfold average_bpm, len.
  destruct l as [|x l]; [congruence|].
  destruct (py_sum (x :: l)) as [|p|p] eqn:Hs; try lia.
  rewrite length_cons, Nat2Z.inj_succ, <- Z.add_1_r.
  destruct (Z.of_nat (length l) + 1) as [|n|n] eqn:Hn; try lia.
  unfold py_truediv. simpl.
  unfold int, Qdiv, Qmult, Qinv, inject_Z. simpl.
  rewrite Z.quot_div_nonneg by lia.
  f_equal. f_equal; lia.
Qed.

(** ** Preservation of the invariant; no call raises *)

Lemma len_insert (l : list Z) (i : nat) (x : Z) : len (<[i := x]> l) = len l.
Proof. unfold len. rewrite length_insert. reflexivity. Qed.

Lemma read_filtered_total raw s :
  wf s ->
  exists s1,
    read_filtered raw s
    = OK (raw, py_sum (<[Z.to_nat (reading_index s) := raw]> (readings s))
               `div` filter_size s, s1)
    /\ s1 = set_filtered_value
              (py_sum (<[Z.to_nat (reading_index s) := raw]> (readings s))
               `div` filter_size s)
              (set_reading_index ((reading_index s + 1) `mod` filter_size s)
                 (set_readings
                    (<[Z.to_nat (reading_index s) := raw]> (readings s)) s))
    /\ wf s1.
Proof.
  intros [Hsz Hpos Hix Hiv Hm Hl].
  eexists. split; [|split; [reflexivity|]].
  - unfold read_filtered, list_setitem.
    rewrite decide_True by lia. simpl.
    unfold py_mod, py_floordiv. simpl.
    rewrite !decide_False by lia. simpl. reflexivity.
  - constructor; simpl; auto.
    + rewrite len_insert. assumption.
    + apply Z.mod_pos_bound. assumption.
Qed.

Lemma calculate_bpm_total now s :
  Forall (fun d => 0 < d) (beat_intervals s) ->
  0 < ticks_diff now (last_beat_time s) ->
  exists s3,
    calculate_bpm now s = OK s3
    /\ Forall (fun d => 0 < d) (beat_intervals s3).
Proof.
  intros Hiv Hd. unfold calculate_bpm.
  destruct (decide (last_beat_time s > 0)); [|eauto].
  set (l := beat_intervals s ++ [ticks_diff now (last_beat_time s)]).
  assert (Hl : Forall (fun d => 0 < d) l).
  { apply Forall_app. split; [assumption|]. constructor; [assumption|constructor]. }
  simpl. fold l.
  set (s1 := if decide (len l > max_intervals s) then _ else _).
  assert (H1 : Forall (fun d => 0 < d) (beat_intervals s1)).
  { subst s1. case_decide; simpl; [apply Forall_drop|]; assumption. }
  clearbody s1.
  destruct (decide (len (beat_intervals s1) >= 2)) as [H2|H2]; [|eauto].
  rewrite average_bpm_pos.
  - simpl. eauto.
  - intros E. rewrite E in H2. unfold len in H2. simpl in H2. lia.
  - apply py_sum_pos; [|assumption].
    intros E. rewrite E in H2. unfold len in H2. simpl in H2. lia.
Qed.

Lemma rising_edge_true f now s :
  rising_edge f now s = true ->
  f > threshold s
  /\ beat_detected s = false
  /\ ticks_diff now (last_beat_time s) > min_beat_interval s.
Proof.
  unfold rising_edge. intros H.
  apply andb_prop in H as [H H3]. apply andb_prop in H as [H1 H2].
  apply bool_decide_eq_true in H1, H3.
  apply negb_true_iff in H2. auto.
Qed.

Lemma detect_beat_total raw now s :
  wf s ->
  exists b r f bpm s',
    detect_beat raw now s = OK (b, r, f, bpm, s') /\ wf s'.
Proof.
  intros Hwf.
  destruct (read_filtered_total raw s Hwf) as (s1 & Hread & _ & Hwf1).
  unfold detect_beat. rewrite Hread. simpl.
  set (f := py_sum _ `div` _). clearbody f. clear Hread.
  set (s2 := adjust_threshold (update_peak_valley f s1)).
  assert (Hwf2 : wf s2).
  { subst s2. unfold adjust_threshold, update_peak_valley.
    destruct Hwf1. repeat case_decide; constructor; assumption. }
  clearbody s2.
  destruct (rising_edge f now s2) eqn:Hedge.
  - apply rising_edge_true in Hedge as (_ & _ & Hgap).
    destruct Hwf2 as [Hsz Hpos Hix Hiv Hm Hl].
    destruct (calculate_bpm_total now (set_beat_detected true s2))
      as (s3 & Hc & Hiv3); simpl; [assumption|lia|].
    rewrite Hc. simpl. do 5 eexists. split; [reflexivity|].
    apply calculate_bpm_frame in Hc. simpl in Hc.
    destruct Hc as (_ & Hm3 & Hfs & Hrs & Hri & _).
    unfold ticks_diff in Hgap.
    constructor; simpl; rewrite ?Hfs, ?Hrs, ?Hri, ?Hm3; auto; lia.
  - destruct (below_hysteresis f (threshold s2));
      do 5 eexists; (split; [reflexivity|]);
      destruct Hwf2; constructor; assumption.
Qed.

Lemma run_total inputs s :
  wf s ->
  exists ticks,
    run inputs s = OK ticks
    /\ length ticks = length inputs
    /\ Forall (fun t => wf (tick_state t)) ticks.
Proof.
  revert s. induction inputs as [|[raw now] inputs IH]; intros s Hwf.
  - exists []. simpl. auto.
  - destruct (detect_beat_total raw now s Hwf)
      as (b & r & f & bpm & s' & Hd & Hwf').
    destruct (IH s' Hwf') as (ticks & Hr & Hlen & Hall).
    simpl. rewrite Hd. simpl. rewrite Hr. simpl.
    eexists. split; [reflexivity|]. split; [simpl; congruence|].
    constructor; assumption.
Qed.



(** * Signal strength *)

(** C8. [get_signal_strength] is [clamp(0, 100, (peak - valley - 500) / 100)]
    in every state, with the floor division of the source as well as with
    truncation; it lies in [0, 100]; a range of 500 gives 0, a range of 1500
    gives 10, a range of 10500 or more gives 100, and a negative range, as
    in the initial state, gives 0. *)
Theorem signal_strength_clamped (s : PulseSensor) :
  let signal_range := peak_value s - valley_value s in
  get_signal_strength s = clamp 0 100 ((signal_range - 500) `div` 100)
  /\ get_signal_strength s = clamp 0 100 ((signal_range - 500) `quot` 100)
  /\ 0 <= get_signal_strength s <= 100
  /\ (signal_range = 500 -> get_signal_strength s = 0)
  /\ (signal_range = 1500 -> get_signal_strength s = 10)
  /\ (signal_range >= 10500 -> get_signal_strength s = 100)
  /\ (signal_range < 0 -> get_signal_strength s = 0).
Proof.
  unfold get_signal_strength, clamp. simpl.
  set (d := peak_value s - valley_value s - 500).
  pose proof (Z.div_mod d 100 ltac:(lia)) as Hdiv.
  pose proof (Z.mod_pos_bound d 100 ltac:(lia)) as Hmod.
  pose proof (Z.quot_rem d 100 ltac:(lia)) as Hquot.
  assert (Hrem : Z.abs (Z.rem d 100) < 100)
    by (pose proof (Z.rem_bound_abs d 100 ltac:(lia)); lia).
  assert (Hsgn : 0 <= d -> 0 <= Z.rem d 100)
    by (intros; apply Z.rem_nonneg; lia).
  assert (Hsgn' : d <= 0 -> Z.rem d 100 <= 0)
    by (intros; apply Z.rem_nonpos; lia).
  repeat split; intros; lia.
Qed.

Lemma signal_strength_clamped_witness :
  get_signal_strength default_sensor = 0
  /\ get_signal_strength (set_peak_value 1500 (set_valley_value 0 default_sensor))
     = 10
  /\ get_signal_strength (set_peak_value 500 (set_valley_value 0 default_sensor))
     = 0
  /\ get_signal_strength
       (set_peak_value 40000 (set_valley_value 20000 default_sensor)) = 100.
Proof.
  split; [|split; [|split]].
  - destruct (signal_strength_clamped default_sensor)
      as (_ & _ & _ & _ & _ & _ & H).
    apply H. simpl. lia.
  - destruct (signal_strength_clamped
                (set_peak_value 1500 (set_valley_value 0 default_sensor)))
      as (_ & _ & _ & _ & H & _).
    apply H. reflexivity.
  - destruct (signal_strength_clamped
                (set_peak_value 500 (set_valley_value 0 default_sensor)))
      as (_ & _ & _ & H & _).
    apply H. reflexivity.
  - destruct (signal_strength_clamped
                (set_peak_value 40000 (set_valley_value 20000 default_sensor)))
      as (_ & _ & _ & _ & _ & H & _).
    apply H. simpl. lia.
Defined.

(** * Calibration *)

(** The sampling loop returns the minimum and the maximum of the start
    values and of the [n] values read. *)
Lemma calibrate_loop_spec adc n : forall i min_val max_val,
  let '(lo, hi) := calibrate_loop adc i n min_val max_val in
  (lo <= min_val /\ max_val <= hi)
  /\ (forall k, (i <= k < i + n)%nat -> lo <= adc k <= hi)
  /\ (lo = min_val \/ exists k, (i <= k < i + n)%nat /\ adc k = lo)
  /\ (hi = max_val \/ exists k, (i <= k < i + n)%nat /\ adc k = hi).
Proof.
  induction n as [|n IH]; intros i min_val max_val; simpl.
  - repeat split; auto; intros; lia.
  - specialize (IH (S i) (Z.min min_val (adc i)) (Z.max max_val (adc i))).
    destruct (calibrate_loop adc (S i) n _ _) as [lo hi].
    destruct IH as ((Hlo & Hhi) & Hall & Hmin & Hmax).
    split; [lia|]. split; [|split].
    + intros k Hk. destruct (decide (k = i)) as [->|Hne]; [lia|].
      apply Hall. lia.
    + destruct Hmin as [Hmin|(k & Hk & Hmin)].
      * destruct (Z.min_spec min_val (adc i)) as [[_ E]|[_ E]].
        -- left. lia.
        -- right. exists i. split; [lia|]. lia.
      * right. exists k. split; [lia|assumption].
    + destruct Hmax as [Hmax|(k & Hk & Hmax)].
      * destruct (Z.max_spec max_val (adc i)) as [[_ E]|[_ E]].
        -- right. exists i. split; [lia|]. lia.
        -- left. lia.
      * right. exists k. split; [lia|assumption].
Qed.

(** For readings in the ADC range the loop returns their extrema. *)
Lemma calibrate_loop_extrema adc n lo hi :
  (forall k, (k < n)%nat -> lo <= adc k <= hi) ->
  (exists k, (k < n)%nat /\ adc k = lo) ->
  (exists k, (k < n)%nat /\ adc k = hi) ->
  0 <= lo -> hi <= 65535 ->
  calibrate_loop adc 0 n 65535 0 = (lo, hi).
Proof.
  intros Hall (kl & Hkl & Hlo) (kh & Hkh & Hhi) H0 H1.
  pose proof (calibrate_loop_spec adc n 0 65535 0) as H.
  destruct (calibrate_loop adc 0 n 65535 0) as [lo' hi'].
  destruct H as ((Hlo' & Hhi') & Hb & Hmin & Hmax).
  pose proof (Hb kl ltac:(lia)). pose proof (Hb kh ltac:(lia)).
  pose proof (Hall kl Hkl). pose proof (Hall kh Hkh).
  assert (lo <= lo').
  { destruct Hmin as [->|(k & Hk & <-)]; [lia|]. apply Hall. lia. }
  assert (hi' <= hi).
  { destruct Hmax as [->|(k & Hk & <-)]; [lia|]. apply Hall. lia. }
  f_equal; lia.
Qed.

(** C6. With the default factor 0.6, one hundred calibration samples whose
    minimum is 20000 and whose maximum is 40000 give baseline 30000,
    threshold 42000, valley 20000 and peak 40000, and set the calibrated
    flag, whatever the order of the samples and the state before. *)
Theorem calibration_determinism (adc : nat -> Z) (s : PulseSensor) :
  calibration_samples s = 100%nat ->
  threshold_factor s = (6 # 10)%Q ->
  (forall i, (i < 100)%nat -> 20000 <= adc i <= 40000) ->
  (exists i, (i < 100)%nat /\ adc i = 20000) ->
  (exists i, (i < 100)%nat /\ adc i = 40000) ->
  let s' := calibrate adc s in
  baseline s' = 30000
  /\ threshold s' = 42000
  /\ valley_value s' = 20000
  /\ peak_value s' = 40000
  /\ calibrated s' = true.
Proof.
  intros Hn Hf Hall Hmin Hmax. unfold calibrate.
  rewrite Hn, (calibrate_loop_extrema adc 100 20000 40000) by (auto; lia).
  simpl. rewrite Hf. repeat split; reflexivity.
Qed.

Lemma calibration_determinism_witness :
  let s' := calibrate alternating_readings default_sensor in
  baseline s' = 30000
  /\ threshold s' = 42000
  /\ valley_value s' = 20000
  /\ peak_value s' = 40000
  /\ calibrated s' = true.
Proof.
  apply (calibration_determinism alternating_readings default_sensor).
  - reflexivity.
  - reflexivity.
  - intros i Hi. unfold alternating_readings.
    pose proof (Z.mod_pos_bound (Z.of_nat i) 2 ltac:(lia)). lia.
  - exists 0%nat. split; [lia|reflexivity].
  - exists 1%nat. split; [lia|reflexivity].
Defined.

(** * Runs *)

Lemma final_state_cons s t ticks :
  final_state s (t :: ticks) = final_state (tick_state t) ticks.
Proof.
  unfold final_state. destruct ticks as [|t' ticks]; [reflexivity|].
  rewrite last_cons_cons.
  destruct (last (t' :: ticks)) eqn:E; [reflexivity|].
  apply last_None in E. discriminate.
Qed.

Lemma state_before_0 s ticks : state_before s ticks 0 = s.
Proof. reflexivity. Qed.

Lemma state_before_cons s t ticks i :
  state_before s (t :: ticks) (S i) = state_before (tick_state t) ticks i.
Proof. unfold state_before. simpl. apply final_state_cons. Qed.

Lemma state_before_S s ticks i t :
  ticks !! i = Some t -> state_before s ticks (S i) = tick_state t.
Proof.
  revert s i. induction ticks as [|t0 ticks IH]; intros s i H; [discriminate|].
  rewrite state_before_cons. destruct i as [|i]; simpl in H.
  - injection H as ->. apply state_before_0.
  - apply IH. assumption.
Qed.

Lemma state_before_all s ticks :
  state_before s ticks (length ticks) = final_state s ticks.
Proof. unfold state_before. rewrite firstn_all. reflexivity. Qed.

Lemma run_cons_inv raw now inputs s ticks :
  run ((raw, now) :: inputs) s = OK ticks ->
  exists b r f bpm s' rest,
    detect_beat raw now s = OK (b, r, f, bpm, s')
    /\ run inputs s' = OK rest
    /\ ticks = mkTick now b r f bpm s' :: rest.
Proof.
  simpl. intros H. inv_bind H.
  destruct a as [[[[b r] f] bpm] s']. inv_bind H. injection H as <-.
  do 6 eexists. eauto.
Qed.

(** Every tick of a run is one [detect_beat] call from the state before. *)
Lemma run_step inputs : forall s ticks i t,
  run inputs s = OK ticks ->
  ticks !! i = Some t ->
  exists raw,
    inputs !! i = Some (raw, tick_now t)
    /\ detect_beat raw (tick_now t) (state_before s ticks i)
       = OK (tick_beat t, tick_raw t, tick_filtered t, tick_bpm t,
             tick_state t).
Proof.
  induction inputs as [|[raw now] inputs IH]; intros s ticks i t Hrun Hi.
  - injection Hrun as <-. discriminate.
  - apply run_cons_inv in Hrun
      as (b & r & f & bpm & s' & rest & Hd & Hrest & ->).
    destruct i as [|i]; simpl in Hi.
    + injection Hi as <-. exists raw. split; [reflexivity|]. exact Hd.
    + rewrite state_before_cons. simpl.
      apply (IH s' rest i t Hrest Hi).
Qed.

(** An induction principle for properties of the successive states. *)
Lemma run_states_ind (P : PulseSensor -> Prop) inputs s ticks :
  run inputs s = OK ticks ->
  P s ->
  (forall raw now s0 b r f bpm s1,
     P s0 -> detect_beat raw now s0 = OK (b, r, f, bpm, s1) -> P s1) ->
  forall i, (i <= length ticks)%nat -> P (state_before s ticks i).
Proof.
  intros Hrun H0 Hstep i. induction i as [|i IH]; intros Hi.
  - rewrite state_before_0. assumption.
  - destruct (lookup_lt_is_Some_2 ticks i ltac:(lia)) as [t Ht].
    destruct (run_step _ _ _ _ _ Hrun Ht) as (raw & _ & Hd).
    rewrite (state_before_S _ _ _ _ Ht).
    eapply Hstep; [|exact Hd]. apply IH. lia.
Qed.

(** * The adaptive range and threshold *)

Lemma detect_beat_range_grows raw now s b r f bpm s' :
  detect_beat raw now s = OK (b, r, f, bpm, s') ->
  peak_value s <= peak_value s'
  /\ valley_value s' <= valley_value s
  /\ valley_value s' <= f <= peak_value s'.
Proof.
  intros H. apply detect_beat_levels in H as (-> & -> & _). lia.
Qed.

Lemma run_range_grows inputs s ticks :
  run inputs s = OK ticks ->
  forall i j, (i <= j <= length ticks)%nat ->
    peak_value (state_before s ticks i) <= peak_value (state_before s ticks j)
    /\ valley_value (state_before s ticks j)
       <= valley_value (state_before s ticks i).
Proof.
  intros Hrun i j [Hij Hj]. induction Hij as [|j Hij IH]; [lia|].
  destruct (lookup_lt_is_Some_2 ticks j ltac:(lia)) as [t Ht].
  destruct (run_step _ _ _ _ _ Hrun Ht) as (raw & _ & Hd).
  rewrite (state_before_S _ _ _ _ Ht).
  apply detect_beat_range_grows in Hd. lia.
Qed.

(** The threshold factor is the same in every state of a run. *)
Lemma run_factor inputs s ticks :
  run inputs s = OK ticks ->
  forall i, (i <= length ticks)%nat ->
    threshold_factor (state_before s ticks i) = threshold_factor s.
Proof.
  intros Hrun.
  apply (run_states_ind
           (fun s0 => threshold_factor s0 = threshold_factor s)
           _ _ _ Hrun); [reflexivity|].
  intros ? ? ? ? ? ? ? ? IH H.
  apply detect_beat_levels in H as (_ & _ & -> & _). exact IH.
Qed.

(** The threshold after a call of a run, in terms of the factor of the
    first state. *)
Lemma run_threshold inputs s ticks i t :
  run inputs s = OK ticks ->
  ticks !! i = Some t ->
  threshold (tick_state t)
  = if decide (signal_range (tick_state t) > 1000)
    then valley_value (tick_state t)
         + int (inject_Z (signal_range (tick_state t)) * threshold_factor s)
    else threshold (state_before s ticks i).
Proof.
  intros Hrun Ht.
  pose proof (lookup_lt_Some _ _ _ Ht) as Hlt.
  destruct (run_step _ _ _ _ _ Hrun Ht) as (raw & _ & Hd).
  apply detect_beat_levels in Hd as (_ & _ & Hf & Hthr).
  rewrite Hf, (run_factor _ _ _ Hrun i ltac:(lia)) in Hthr. exact Hthr.
Qed.

(** C10. Over any run of [detect_beat] calls with no [calibrate] in between
    the peak never decreases and the valley never increases, so the range
    never shrinks; the filtered value of a call (a spike, say) stays below
    the peak of every later state.  With the factor 0.6 the application
    uses, whenever the range exceeds 1000 (and stays within 200000, as
    every range of 16-bit samples does) the threshold is the one adapted to
    that peak, [valley + int(range * 0.6)], which is at least the threshold
    a peak equal to the spike gives. *)
Theorem adaptive_range_monotone (inputs : list (Z * Z)) (s : PulseSensor) :
  wf s ->
  exists ticks,
    run inputs s = OK ticks
    /\ (forall i j, (i <= j <= length ticks)%nat ->
          peak_value (state_before s ticks i)
          <= peak_value (state_before s ticks j)
          /\ valley_value (state_before s ticks j)
             <= valley_value (state_before s ticks i)
          /\ signal_range (state_before s ticks i)
             <= signal_range (state_before s ticks j))
    /\ (forall i j t, ticks !! i = Some t -> (i < j <= length ticks)%nat ->
          tick_filtered t <= peak_value (state_before s ticks j)
          /\ (threshold_factor s = 6 # 10 ->
              1000 < signal_range (state_before s ticks j) <= 200000 ->
              threshold (state_before s ticks j)
              = valley_value (state_before s ticks j)
                + int (inject_Z (signal_range (state_before s ticks j))
                       * (6 # 10))
              /\ valley_value (state_before s ticks j)
                 + int (inject_Z (tick_filtered t
                                  - valley_value (state_before s ticks j))
                        * (6 # 10))
                 <= threshold (state_before s ticks j))).
Proof.
  intros Hwf. destruct (run_total inputs s Hwf) as (ticks & Hrun & _ & _).
  exists ticks. split; [assumption|]. split.
  - intros i j Hij.
    destruct (run_range_grows _ _ _ Hrun i j Hij). unfold signal_range. lia.
  - intros i j t Ht Hij.
    assert (Hspike : valley_value (state_before s ticks j) <= tick_filtered t
                     /\ tick_filtered t
                        <= peak_value (state_before s ticks j)).
    { destruct (run_step _ _ _ _ _ Hrun Ht) as (raw & _ & Hd).
      apply detect_beat_range_grows in Hd.
      rewrite <- (state_before_S s _ _ _ Ht) in Hd.
      destruct (run_range_grows _ _ _ Hrun (S i) j ltac:(lia)). lia. }
    split; [apply Hspike|]. intros Hf [Hrange _].
    assert (Hadapt : threshold (state_before s ticks j)
                     = valley_value (state_before s ticks j)
                       + int (inject_Z (signal_range (state_before s ticks j))
                              * (6 # 10))).
    { destruct j as [|j]; [lia|].
      destruct (lookup_lt_is_Some_2 ticks j ltac:(lia)) as [t' Ht'].
      rewrite (state_before_S _ _ _ _ Ht') in Hrange |- *.
      rewrite (run_threshold _ _ _ _ _ Hrun Ht'), decide_True by lia.
      rewrite Hf. reflexivity. }
    split; [exact Hadapt|]. rewrite Hadapt.
    apply Z.add_le_mono_l, int_scale_mono; [discriminate|].
    unfold signal_range. lia.
Qed.

(** A spike of 60000 in the second call of a quiet signal: the filtered
    value of that call is 6000, and from then on the peak is at least 6000
    and the threshold at least 3600, also after the filtered value has
    fallen back to 0. *)
Lemma adaptive_range_monotone_witness :
  exists ticks,
    run spike_inputs default_sensor = OK ticks
    /\ tick_filtered <$> ticks !! 1%nat = Some 6000
    /\ tick_filtered <$> last ticks = Some 0
    /\ (forall k t, (1 <= k)%nat -> ticks !! k = Some t ->
          6000 <= peak_value (tick_state t)
          /\ 3600 <= threshold (tick_state t)).
Proof.
  destruct (adaptive_range_monotone spike_inputs default_sensor)
    as (ticks & Hrun & Hmono & Hspike).
  - concrete_wf.
  - exists ticks.
    assert (Hticks : tick_filtered <$> ticks !! 1%nat = Some 6000
                     /\ tick_filtered <$> last ticks = Some 0
                     /\ Forall (fun t => valley_value (tick_state t) = 0
                                         /\ 1000 < signal_range (tick_state t)
                                            <= 200000)
                          (drop 1 ticks)).
    { vm_compute in Hrun. injection Hrun as <-.
      split; [reflexivity|]. split; [reflexivity|].
      repeat constructor; vm_compute; congruence. }
    destruct Hticks as (Hfirst & Hlast & Hvalley).
    split; [exact Hrun|]. split; [exact Hfirst|]. split; [exact Hlast|].
    intros k t Hk1 Hk.
    assert (Hk' : drop 1 ticks !! (k - 1)%nat = Some t).
    { rewrite lookup_drop. replace (1 + (k - 1))%nat with k by lia.
      exact Hk. }
    pose proof (proj1 (Forall_lookup _ _) Hvalley _ t Hk') as [Hv Hr].
    destruct (ticks !! 1%nat) as [t1|] eqn:H1; [|discriminate].
    injection Hfirst as Hf1.
    pose proof (lookup_lt_Some _ _ _ Hk) as Hlt.
    destruct (Hspike 1%nat (S k) t1 H1 ltac:(lia)) as (Hge & Hthr).
    rewrite (state_before_S _ _ _ _ Hk), Hf1 in Hge, Hthr.
    split; [exact Hge|].
    destruct (Hthr eq_refl Hr) as [_ Hlow].
    rewrite Hv in Hlow. exact Hlow.
Defined.



(** The product by a factor of at most one half. *)
Lemma int_scale_half (r : Z) (f : Q) :
  (0 <= f)%Q -> (f <= 1 # 2)%Q -> 0 <= r ->
  int (inject_Z r * f) <= r `div` 2.
Proof.
  destruct f as [n d]. unfold Qle, int. simpl. intros H0 H1 Hr.
  rewrite Z.quot_div_nonneg by nia.
  change (1 * d)%positive with d.
  apply Z.div_le_lower_bound; [lia|].
  set (q := (r * n) `div` Z.pos d).
  assert (Hq : Z.pos d * q <= r * n)
    by (apply Z.mul_div_le; lia).
  assert (H2 : 2 * (r * n) <= r * Z.pos d) by nia.
  assert (H3 : Z.pos d * (2 * q) <= Z.pos d * r) by lia.
  apply Z.mul_le_mono_pos_l in H3; lia.
Qed.

(** The fields [calibrate] writes. *)
Lemma calibrate_levels adc s :
  let c := calibrate adc s in
  threshold_factor c = threshold_factor s
  /\ baseline c = (valley_value c + peak_value c) `div` 2
  /\ threshold c
     = baseline c
       + int (inject_Z (signal_range c) * threshold_factor s).
Proof.
  unfold calibrate, signal_range.
  destruct (calibrate_loop adc 0 (calibration_samples s) 65535 0)
    as [lo hi].
  simpl. repeat split; reflexivity.
Qed.

(** The state [calibrate] produces: the threshold is not below the valley,
    and not above the peak for a factor of at most one half. *)
Lemma calibrate_threshold_bounds adc s :
  (0 <= threshold_factor s)%Q ->
  (threshold_factor s <= 1)%Q ->
  signal_range (calibrate adc s) > 1000 ->
  valley_value (calibrate adc s) <= threshold (calibrate adc s)
  /\ ((threshold_factor s <= 1 # 2)%Q ->
      threshold (calibrate adc s) <= peak_value (calibrate adc s)).
Proof.
  intros H0 H1 Hrange.
  destruct (calibrate_levels adc s) as (_ & Hbase & Hthr).
  set (c := calibrate adc s) in *. unfold signal_range in *.
  pose proof (int_scale_bounds (peak_value c - valley_value c)
                (threshold_factor s) H0 H1 ltac:(lia)) as Hb.
  pose proof (Z.div_mod (valley_value c + peak_value c) 2 ltac:(lia)).
  pose proof (Z.mod_pos_bound (valley_value c + peak_value c) 2 ltac:(lia)).
  split; [lia|]. intros Hhalf.
  pose proof (int_scale_half (peak_value c - valley_value c)
                (threshold_factor s) H0 Hhalf ltac:(lia)) as Hh.
  pose proof (Z.div_mod (peak_value c - valley_value c) 2 ltac:(lia)).
  pose proof (Z.mod_pos_bound (peak_value c - valley_value c) 2 ltac:(lia)).
  lia.
Qed.

Lemma reachable_factor_calibrate adc s :
  threshold_factor (calibrate adc s) = threshold_factor s.
Proof. apply calibrate_levels. Qed.

(** C1, as the code has it.  Let the threshold factor lie within its
    documented range 0.0-1.0.  Every state produced by [detect_beat]
    satisfies [valley <= threshold <= peak] once the range exceeds 1000, and
    while the range is at most 1000 the call leaves the threshold at its
    previous (calibrated or default) value; the call returns from every
    state that satisfies [wf].  The state produced by [calibrate] satisfies
    [valley <= threshold] once its range exceeds 1000, and
    [threshold <= peak] as well when the factor is at most 0.5.  Hence
    every reachable state whose range exceeds 1000 satisfies
    [valley <= threshold], and it satisfies [threshold <= peak] unless it is
    a state produced by [calibrate] with a factor above 0.5. *)
Theorem threshold_between_valley_and_peak (s : PulseSensor) :
  (0 <= threshold_factor s)%Q ->
  (threshold_factor s <= 1)%Q ->
  (wf s ->
   forall adc_read ticks_ms,
   exists beat raw_val filtered_val bpm s',
     detect_beat adc_read ticks_ms s
     = OK (beat, raw_val, filtered_val, bpm, s'))
  /\ (forall adc_read ticks_ms beat raw_val filtered_val bpm s',
        detect_beat adc_read ticks_ms s
        = OK (beat, raw_val, filtered_val, bpm, s') ->
        (signal_range s' > 1000 ->
         valley_value s' <= threshold s' <= peak_value s')
        /\ (signal_range s' <= 1000 -> threshold s' = threshold s))
  /\ (forall adc,
        signal_range (calibrate adc s) > 1000 ->
        valley_value (calibrate adc s) <= threshold (calibrate adc s)
        /\ ((threshold_factor s <= 1 # 2)%Q ->
            threshold (calibrate adc s) <= peak_value (calibrate adc s)))
  /\ (reachable s ->
      signal_range s > 1000 ->
      valley_value s <= threshold s
      /\ (threshold s <= peak_value s
          \/ ((1 # 2 < threshold_factor s)%Q
              /\ exists adc s0, reachable s0 /\ s = calibrate adc s0))).
Proof.
  intros H0 H1.
  assert (Hdetect : forall s0 adc_read ticks_ms beat raw_val filtered_val
                           bpm s',
             (0 <= threshold_factor s0)%Q -> (threshold_factor s0 <= 1)%Q ->
             detect_beat adc_read ticks_ms s0
             = OK (beat, raw_val, filtered_val, bpm, s') ->
             (signal_range s' > 1000 ->
              valley_value s' <= threshold s' <= peak_value s')
             /\ (signal_range s' <= 1000 -> threshold s' = threshold s0)).
  { intros s0 raw now b r f bpm s' Hf0 Hf1 Hd.
    apply detect_beat_levels in Hd as (_ & _ & Hf & Hthr).
    unfold signal_range. rewrite Hthr. split; intros Hrange.
    - rewrite decide_True by exact Hrange.
      pose proof (int_scale_bounds (peak_value s' - valley_value s')
                    (threshold_factor s')) as Hb.
      rewrite Hf in Hb. specialize (Hb Hf0 Hf1 ltac:(lia)).
      rewrite Hf. lia.
    - rewrite decide_False by lia. reflexivity. }
  split; [|split; [|split]].
  - intros Hwf raw now.
    destruct (detect_beat_total raw now s Hwf)
      as (b & r & f & bpm & s' & Hd & _).
    exists b, r, f, bpm, s'. exact Hd.
  - intros raw now b r f bpm s' Hd. exact (Hdetect _ _ _ _ _ _ _ _ H0 H1 Hd).
  - intros adc. apply calibrate_threshold_bounds; assumption.
  - intros Hs Hrange.
    destruct Hs as [factor interval|adc s0 Hs0
                   |raw now s0 b r f bpm s' Hs0 Hd].
    + unfold signal_range in Hrange. simpl in Hrange. lia.
    + rewrite reachable_factor_calibrate in H0, H1 |- *.
      destruct (calibrate_threshold_bounds adc s0 H0 H1 Hrange)
        as [Hlow Hhigh].
      split; [exact Hlow|].
      destruct (Qlt_le_dec (1 # 2) (threshold_factor s0)) as [Hgt|Hle].
      * right. split; [exact Hgt|]. exists adc, s0. split; [exact Hs0|].
        reflexivity.
      * left. apply Hhigh, Hle.
    + pose proof (detect_beat_levels _ _ _ _ _ _ _ _ Hd) as (_ & _ & Hf & _).
      rewrite Hf in H0, H1.
      destruct (Hdetect _ _ _ _ _ _ _ _ H0 H1 Hd) as [Hinv _].
      specialize (Hinv Hrange). split; [lia|]. left. lia.
Qed.

(** The calibration on [alternating_readings] with the default factor 0.6:
    the state has its threshold above the valley, and above the peak too,
    being produced by [calibrate]; the first call after it adapts the
    threshold to 26400, between the valley 6000 and the peak 40000. *)
Lemma threshold_between_valley_and_peak_witness :
  let s := calibrate alternating_readings default_sensor in
  (valley_value s <= threshold s
   /\ (threshold s <= peak_value s
       \/ ((1 # 2 < threshold_factor s)%Q
           /\ exists adc s0, reachable s0 /\ s = calibrate adc s0)))
  /\ exists s',
       detect_beat 60000 1000 s = OK (false, 60000, 6000, 0, s')
       /\ signal_range s' = 34000
       /\ threshold s' = 26400
       /\ valley_value s' <= threshold s' <= peak_value s'.
Proof.
  intros s.
  destruct (threshold_between_valley_and_peak s)
    as (Hret & Hcall & _ & Hstate).
  - vm_compute. discriminate.
  - vm_compute. discriminate.
  - split.
    { apply Hstate; [apply reach_calibrate, reach_init|].
      vm_compute. reflexivity. }
    destruct (Hret ltac:(concrete_wf) 60000 1000)
      as (b & r & f & bpm & s' & Hd).
    destruct (Hcall _ _ _ _ _ _ _ Hd) as (Hinv & _).
    exists s'.
    assert (Hs' : b = false /\ r = 60000 /\ f = 6000 /\ bpm = 0
                  /\ signal_range s' = 34000 /\ threshold s' = 26400).
    { vm_compute in Hd. injection Hd as <- <- <- <- <-.
      repeat split; reflexivity. }
    destruct Hs' as (-> & -> & -> & -> & Hrange & Hthr).
    split; [exact Hd|]. split; [exact Hrange|]. split; [exact Hthr|].
    apply Hinv. lia.
Defined.

(** The state produced by [calibrate] is reachable and has a range above
    1000, and its threshold 42000 lies above its peak 40000. *)
Lemma calibrate_threshold_above_peak :
  let s := calibrate alternating_readings default_sensor in
  reachable s
  /\ signal_range s > 1000
  /\ threshold s = baseline s + 12000
  /\ ~ (valley_value s <= threshold s <= peak_value s).
Proof.
  split; [|split; [|split]].
  - apply reach_calibrate, reach_init.
  - vm_compute. reflexivity.
  - vm_compute. reflexivity.
  - vm_compute. intros [_ H]. apply H. reflexivity.
Qed.

(** * The moving-average filter *)

Lemma read_all_cons_inv raw raws s outs s' :
  read_all (raw :: raws) s = OK (outs, s') ->
  exists f s1 rest,
    read_filtered raw s = OK (raw, f, s1)
    /\ read_all raws s1 = OK (rest, s')
    /\ outs = (raw, f) :: rest.
Proof.
  simpl. intros H. inv_bind H. destruct a as [[r f] s1].
  inv_bind H. destruct a as [rest s2]. injection H as <- <-.
  pose proof Ha as Hr.
  apply read_filtered_inv in Hr as (_ & _ & _ & -> & _ & _).
  eauto 6.
Qed.

(** The filtered value returned last is the mean of the final window. *)
Lemma read_all_last raws : forall s outs s',
  read_all raws s = OK (outs, s') ->
  filter_size s' = filter_size s
  /\ outs.*1 = raws
  /\ (raws <> [] ->
      snd <$> last outs = Some (py_sum (readings s') `div` filter_size s)).
Proof.
  induction raws as [|raw raws IH]; intros s outs s' H.
  - injection H as <- <-. split; [reflexivity|]. split; [reflexivity|]. congruence.
  - apply read_all_cons_inv in H as (f & s1 & rest & Hr & Hrest & ->).
    apply read_filtered_inv in Hr as (rs & _ & _ & _ & Hf & Hs1).
    pose proof Hrest as Hrest'.
    apply IH in Hrest as (Hfs & Hfst & Hlast).
    assert (Hfs1 : filter_size s1 = filter_size s) by (subst s1; reflexivity).
    split; [congruence|]. split; [rewrite fmap_cons, Hfst; reflexivity|].
    intros _.
    destruct raws as [|raw' raws].
    + injection Hrest' as <- <-. subst f s1. reflexivity.
    + destruct rest as [|o rest]; [discriminate|].
      rewrite last_cons_cons, <- Hfs1. apply Hlast. discriminate.
Qed.

(** Writing [raws] over the slice [mid] that starts at the write index. *)
Lemma read_all_fill raws : forall s pre mid post,
  wf s ->
  readings s = pre ++ mid ++ post ->
  reading_index s = len pre ->
  length mid = length raws ->
  exists outs s',
    read_all raws s = OK (outs, s')
    /\ readings s' = pre ++ raws ++ post
    /\ reading_index s' = (len pre + len raws) `mod` filter_size s
    /\ wf s'.
Proof.
  induction raws as [|raw raws IH]; intros s pre mid post Hwf Hrs Hix Hlen.
  - destruct mid; [|discriminate]. exists [], s.
    split; [reflexivity|]. split; [assumption|]. split; [|assumption].
    unfold len at 2. simpl. rewrite Z.add_0_r, <- Hix.
    symmetry. apply Z.mod_small. apply Hwf.
  - destruct mid as [|m mid]; [discriminate|]. injection Hlen as Hlen.
    destruct (read_filtered_total raw s Hwf) as (s1 & Hread & Hs1 & Hwf1).
    assert (Hrs1 : readings s1 = (pre ++ [raw]) ++ mid ++ post).
    { subst s1. simpl. rewrite Hrs, Hix. unfold len.
      rewrite Nat2Z.id, <- (Nat.add_0_r (length pre)).
      rewrite insert_app_r. simpl. rewrite <- app_assoc. reflexivity. }
    assert (Hfs1 : filter_size s1 = filter_size s) by (subst s1; reflexivity).
    assert (Hix1 : reading_index s1
                   = (len pre + 1) `mod` filter_size s).
    { subst s1. simpl. rewrite Hix. reflexivity. }
    assert (HN : filter_size s
                 = len pre + 1 + len mid + len post).
    { destruct Hwf as [Hsz _ _ _ _ _]. rewrite Hsz, Hrs. unfold len.
      rewrite !length_app. simpl. lia. }
    simpl. rewrite Hread. simpl.
    destruct raws as [|raw' raws].
    + destruct mid; [|discriminate]. simpl.
      do 2 eexists. split; [reflexivity|].
      split; [rewrite Hrs1, <- app_assoc; reflexivity|].
      split; [|assumption].
      rewrite Hix1. reflexivity.
    + destruct (IH s1 (pre ++ [raw]) mid post Hwf1 Hrs1) as
        (outs & s' & Hrun & Hrs' & Hix' & Hwf').
      * rewrite Hix1. unfold len in *. rewrite length_app. simpl.
        rewrite Nat2Z.inj_add. simpl.
        apply Z.mod_small. destruct mid; [discriminate|]. simpl in HN. lia.
      * assumption.
      * rewrite Hrun. simpl. do 2 eexists. split; [reflexivity|].
        split; [rewrite Hrs', <- app_assoc; reflexivity|].
        split; [|assumption].
        rewrite Hix', Hfs1. f_equal. unfold len. rewrite length_app.
        simpl. lia.
Qed.

Lemma read_all_app raws1 raws2 s outs1 s1 outs2 s2 :
  read_all raws1 s = OK (outs1, s1) ->
  read_all raws2 s1 = OK (outs2, s2) ->
  read_all (raws1 ++ raws2) s = OK (outs1 ++ outs2, s2).
Proof.
  revert s outs1. induction raws1 as [|raw raws1 IH]; intros s outs1 H1 H2.
  - injection H1 as <- <-. exact H2.
  - apply read_all_cons_inv in H1 as (f & s0 & rest & Hr & Hrest & ->).
    simpl. rewrite Hr. simpl. rewrite (IH _ _ Hrest H2). reflexivity.
Qed.

(** After as many reads as the window has slots, the window holds exactly
    the values read, rotated to the start index. *)
Lemma read_all_full_window raws s :
  wf s ->
  len raws = filter_size s ->
  exists outs s',
    read_all raws s = OK (outs, s')
    /\ readings s'
       = drop (Z.to_nat (filter_size s - reading_index s)) raws
         ++ take (Z.to_nat (filter_size s - reading_index s)) raws
    /\ reading_index s' = reading_index s
    /\ wf s'.
Proof.
  intros Hwf Hlen.
  pose proof Hwf as [Hsz Hpos Hix _ _ _].
  set (k := Z.to_nat (filter_size s - reading_index s)).
  set (i := Z.to_nat (reading_index s)).
  assert (Hk : Z.of_nat k = filter_size s - reading_index s) by lia.
  assert (Hi : Z.of_nat i = reading_index s) by lia.
  clearbody k i.
  assert (Hlr : length (readings s) = length raws)
    by (unfold len in *; lia).
  destruct (read_all_fill (take k raws) s (take i (readings s))
              (drop i (readings s)) [] Hwf)
    as (outs1 & s1 & Hrun1 & Hrs1 & Hix1 & Hwf1).
  { rewrite app_nil_r, take_drop. reflexivity. }
  { unfold len in *. rewrite length_take, Nat.min_l by lia. lia. }
  { unfold len in *. rewrite length_drop, length_take, Nat.min_l by lia. lia. }
  assert (Hfs1 : filter_size s1 = filter_size s)
    by (apply read_all_last in Hrun1 as (? & _); assumption).
  assert (Hix1' : reading_index s1 = 0).
  { rewrite Hix1. unfold len in *. rewrite !length_take, !Nat.min_l by lia.
    replace (Z.of_nat i + Z.of_nat k) with (filter_size s) by lia.
    apply Z_mod_same_full. }
  rewrite app_nil_r in Hrs1.
  destruct (read_all_fill (drop k raws) s1 [] (take i (readings s))
              (take k raws) Hwf1)
    as (outs2 & s2 & Hrun2 & Hrs2 & Hix2 & Hwf2).
  { exact Hrs1. }
  { exact Hix1'. }
  { rewrite length_drop, length_take, Nat.min_l; unfold len in *; lia. }
  exists (outs1 ++ outs2), s2.
  split.
  { rewrite <- (take_drop k raws) at 1.
    apply (read_all_app _ _ _ _ _ _ _ Hrun1 Hrun2). }
  split; [exact Hrs2|]. split; [|assumption].
  rewrite Hix2, Hfs1. unfold len in *. simpl. rewrite length_drop.
  replace (Z.of_nat (length raws - k)) with (reading_index s) by lia.
  apply Z.mod_small. lia.
Qed.

(** C5. From a ten-slot window (the zero-initialised one in particular),
    whatever its contents and wherever the write index stands, ten calls of
    [read_filtered] that read [raws] all return, each call writes its raw
    value at the current index and advances the index modulo 10, and the
    filtered value of the tenth call is the integer mean [sum raws // 10]. *)
Theorem ring_buffer_mean (raws : list Z) (s : PulseSensor) :
  wf s ->
  filter_size s = 10 ->
  length raws = 10%nat ->
  exists outs s',
    read_all raws s = OK (outs, s')
    /\ outs.*1 = raws
    /\ snd <$> last outs = Some (py_sum raws `div` 10)
    /\ reading_index s' = reading_index s
    /\ (forall raw, exists f s1,
          read_filtered raw s = OK (raw, f, s1)
          /\ readings s1 = <[Z.to_nat (reading_index s) := raw]> (readings s)
          /\ reading_index s1 = (reading_index s + 1) `mod` 10).
Proof.
  intros Hwf Hfs Hlen.
  destruct (read_all_full_window raws s Hwf)
    as (outs & s' & Hrun & Hrs & Hix & _).
  { unfold len. lia. }
  exists outs, s'. split; [exact Hrun|].
  apply read_all_last in Hrun as (_ & Hfst & Hlast).
  split; [exact Hfst|]. split; [|split; [exact Hix|]].
  - rewrite Hlast by (intros ->; discriminate).
    rewrite Hrs, py_sum_app, Z.add_comm, <- py_sum_app, take_drop, Hfs.
    reflexivity.
  - intros raw.
    destruct (read_filtered_total raw s Hwf) as (s1 & Hread & Hs1 & _).
    do 2 eexists. split; [exact Hread|].
    subst s1. simpl. rewrite Hfs. auto.
Qed.

Lemma ring_buffer_mean_witness :
  exists outs s',
    read_all [10; 20; 30; 40; 50; 60; 70; 80; 90; 107]
      (set_reading_index 7 default_sensor) = OK (outs, s')
    /\ outs.*1 = [10; 20; 30; 40; 50; 60; 70; 80; 90; 107]
    /\ snd <$> last outs = Some 55
    /\ reading_index s' = 7
    /\ (forall raw, exists f s1,
          read_filtered raw (set_reading_index 7 default_sensor)
          = OK (raw, f, s1)
          /\ readings s1 = <[7%nat := raw]> (replicate 10 0)
          /\ reading_index s1 = 8).
Proof.
  apply (ring_buffer_mean [10; 20; 30; 40; 50; 60; 70; 80; 90; 107]
           (set_reading_index 7 default_sensor)).
  - concrete_wf.
  - reflexivity.
  - reflexivity.
Defined.

(** * Beats and BPM *)

(** The state in which [detect_beat] takes its decision: only the filter,
    the peak, the valley and the threshold differ from the state before. *)
Lemma detect_beat_decision raw now s b r f bpm s' :
  detect_beat raw now s = OK (b, r, f, bpm, s') ->
  exists s2,
    (beat_intervals s2 = beat_intervals s
     /\ current_bpm s2 = current_bpm s
     /\ last_beat_time s2 = last_beat_time s
     /\ beat_detected s2 = beat_detected s
     /\ min_beat_interval s2 = min_beat_interval s
     /\ max_intervals s2 = max_intervals s)
    /\ if b then
         rising_edge f now s2 = true
         /\ exists s3,
              calculate_bpm now (set_beat_detected true s2) = OK s3
              /\ s' = set_last_beat_time now s3
              /\ bpm = current_bpm s3
       else
         rising_edge f now s2 = false
         /\ s' = (if below_hysteresis f (threshold s2)
                  then set_beat_detected false s2 else s2)
         /\ bpm = current_bpm s2.
Proof.
  intros H. apply detect_beat_inv in H as (s1 & Hread & H).
  apply read_filtered_inv in Hread as (rs & _ & _ & _ & _ & ->).
  eexists. split; [|exact H].
  unfold adjust_threshold, update_peak_valley.
  repeat case_decide; simpl; auto 10.
Qed.

Lemma detect_beat_frame raw now s b r f bpm s' :
  detect_beat raw now s = OK (b, r, f, bpm, s') ->
  min_beat_interval s' = min_beat_interval s
  /\ max_intervals s' = max_intervals s
  /\ bpm = current_bpm s'.
Proof.
  intros H.
  apply detect_beat_decision in H as (s2 & (_ & _ & _ & _ & Hm & Hx) & H).
  destruct b.
  - destruct H as (_ & s3 & Hc & -> & ->).
    apply calculate_bpm_frame in Hc as (_ & Hm3 & Hrest). simpl in *.
    destruct Hrest as (_ & _ & _ & _ & _ & _ & _ & _ & Hx3).
    split; [congruence|]. split; [congruence|reflexivity].
  - destruct H as (_ & -> & ->).
    destruct (below_hysteresis f (threshold s2)); simpl; auto.
Qed.

Lemma calibrate_frame adc s :
  min_beat_interval (calibrate adc s) = min_beat_interval s
  /\ max_intervals (calibrate adc s) = max_intervals s
  /\ beat_intervals (calibrate adc s) = beat_intervals s
  /\ current_bpm (calibrate adc s) = current_bpm s.
Proof.
  unfold calibrate.
  destruct (calibrate_loop adc 0 (calibration_samples s) 65535 0).
  simpl. auto.
Qed.


Lemma calculate_bpm_bpm_ok now s s3 :
  bpm_ok s -> calculate_bpm now s = OK s3 -> bpm_ok s3.
Proof.
  intros [Hlt Hge]. unfold calculate_bpm.
  destruct (decide (last_beat_time s > 0)); [|intros [= <-]; split; auto].
  set (l := beat_intervals s ++ [ticks_diff now (last_beat_time s)]).
  simpl. fold l.
  set (s1 := if decide (len l > max_intervals s) then _ else _).
  assert (H1 : (length (beat_intervals s) <= length (beat_intervals s1))%nat
               /\ current_bpm s1 = current_bpm s).
  { subst s1 l. case_decide; simpl; rewrite ?length_drop, length_app;
      simpl; split; auto; lia. }
  clearbody s1. destruct H1 as [Hlen Hbpm].
  destruct (decide (len (beat_intervals s1) >= 2)) as [H2|H2];
    unfold len in H2.
  - intros H. inv_bind H. injection H as <-. split; simpl; [lia|].
    intros _. exact Ha.
  - intros [= <-]. split; [|lia]. intros _. rewrite Hbpm. apply Hlt. lia.
Qed.

Lemma detect_beat_bpm_ok raw now s b r f bpm s' :
  bpm_ok s -> detect_beat raw now s = OK (b, r, f, bpm, s') -> bpm_ok s'.
Proof.
  intros Hok H.
  apply detect_beat_decision in H as (s2 & (Hiv & Hbpm & _) & H).
  assert (Hok2 : bpm_ok s2) by (unfold bpm_ok; rewrite Hiv, Hbpm; exact Hok).
  destruct b.
  - destruct H as (_ & s3 & Hc & -> & _).
    apply calculate_bpm_bpm_ok in Hc; [exact Hc|exact Hok2].
  - destruct H as (_ & -> & _).
    destruct (below_hysteresis f (threshold s2)); exact Hok2.
Qed.

Lemma reachable_bpm_ok s : reachable s -> bpm_ok s.
Proof.
  induction 1 as [factor interval|adc s Hs IH
                 |raw now s b r f bpm s' Hs IH Hd].
  - split; simpl; [reflexivity|lia].
  - unfold bpm_ok.
    destruct (calibrate_frame adc s) as (_ & _ & -> & ->). exact IH.
  - eapply detect_beat_bpm_ok; eassumption.
Qed.

Lemma run_reachable inputs : forall s ticks,
  reachable s -> run inputs s = OK ticks -> reachable (final_state s ticks).
Proof.
  induction inputs as [|[raw now] inputs IH]; intros s ticks Hs Hrun.
  - injection Hrun as <-. exact Hs.
  - apply run_cons_inv in Hrun
      as (b & r & f & bpm & s' & rest & Hd & Hrest & ->).
    rewrite final_state_cons. simpl.
    apply (IH s' rest); [|exact Hrest].
    apply (reach_detect _ _ _ _ _ _ _ _ Hs Hd).
Qed.

Lemma bpm_sensor_reachable : reachable bpm_sensor.
Proof.
  assert (H : exists ticks,
             run (take 56 pulse_inputs) default_sensor = OK ticks
             /\ final_state default_sensor ticks = bpm_sensor).
  { eexists. split; vm_compute; reflexivity. }
  destruct H as (ticks & Hrun & <-).
  apply (run_reachable _ _ _ (reach_init _ _) Hrun).
Qed.

(** ** Refractory gating *)

(** What one call does to the beat state. *)
Lemma detect_beat_gate raw now s b r f bpm s' :
  detect_beat raw now s = OK (b, r, f, bpm, s') ->
  if b then
    ticks_diff now (last_beat_time s) > min_beat_interval s
    /\ beat_detected s = false
    /\ f > threshold s'
    /\ last_beat_time s' = now
    /\ beat_detected s' = true
  else
    last_beat_time s' = last_beat_time s
    /\ beat_intervals s' = beat_intervals s
    /\ current_bpm s' = current_bpm s
    /\ (beat_detected s' = true -> beat_detected s = true)
    /\ (beat_detected s = true ->
        beat_detected s' = negb (below_hysteresis f (threshold s'))).
Proof.
  intros H.
  apply detect_beat_decision
    in H as (s2 & (Hiv & Hbpm & Hl & Hb & Hm & _) & H).
  destruct b.
  - destruct H as (Hedge & s3 & Hc & -> & _).
    apply rising_edge_true in Hedge as (Hthr & Hlatch & Hgap).
    apply calculate_bpm_frame in Hc. simpl in Hc.
    destruct Hc as (_ & _ & _ & _ & _ & Ht3 & _ & _ & Hb3 & _).
    simpl. rewrite Ht3, Hb3, <- Hl, <- Hm, <- Hb. auto.
  - destruct H as (_ & -> & _).
    destruct (below_hysteresis f (threshold s2)) eqn:Hh; simpl;
      rewrite ?Hh; repeat split; try congruence.
    intros E. simpl. congruence.
Qed.

Lemma run_min_beat_interval inputs s ticks i :
  run inputs s = OK ticks -> (i <= length ticks)%nat ->
  min_beat_interval (state_before s ticks i) = min_beat_interval s.
Proof.
  intros Hrun.
  apply (run_states_ind
           (fun s0 => min_beat_interval s0 = min_beat_interval s)
           _ _ _ Hrun); [reflexivity|].
  intros ? ? ? ? ? ? ? ? IH H.
  apply detect_beat_frame in H as (-> & _). exact IH.
Qed.

(** For a non-negative refractory interval the time of the last beat never
    goes back. *)
Lemma run_last_beat_monotone inputs s ticks :
  run inputs s = OK ticks ->
  0 <= min_beat_interval s ->
  forall i j, (i <= j <= length ticks)%nat ->
    last_beat_time (state_before s ticks i)
    <= last_beat_time (state_before s ticks j).
Proof.
  intros Hrun Hm i j [Hij Hj]. induction Hij as [|j Hij IH]; [lia|].
  destruct (lookup_lt_is_Some_2 ticks j ltac:(lia)) as [t Ht].
  destruct (run_step _ _ _ _ _ Hrun Ht) as (raw & _ & Hd).
  rewrite (state_before_S _ _ _ _ Ht).
  apply detect_beat_gate in Hd.
  rewrite (run_min_beat_interval _ _ _ j Hrun) in Hd by lia.
  specialize (IH ltac:(lia)).
  unfold ticks_diff in Hd. destruct (tick_beat t).
  - destruct Hd as (Hgap & _ & _ & -> & _). lia.
  - destruct Hd as (-> & _). exact IH.
Qed.

(** C2. Over any run of [detect_beat] calls, a call reports a beat only when
    the time elapsed since [last_beat_time] exceeds [min_beat_interval], and
    any two calls that both report a beat have clock values more than
    [min_beat_interval] apart: of two calls whose clock values differ by
    less than the refractory interval at most one reports a beat. *)
Theorem refractory_gating (inputs : list (Z * Z)) (s : PulseSensor) :
  wf s ->
  exists ticks,
    run inputs s = OK ticks
    /\ (forall i t, ticks !! i = Some t -> tick_beat t = true ->
          ticks_diff (tick_now t) (last_beat_time (state_before s ticks i))
          > min_beat_interval s)
    /\ (forall i j ti tj, (i < j)%nat ->
          ticks !! i = Some ti -> ticks !! j = Some tj ->
          tick_beat ti = true -> tick_beat tj = true ->
          tick_now tj - tick_now ti > min_beat_interval s)
    /\ (forall i j ti tj, i <> j ->
          ticks !! i = Some ti -> ticks !! j = Some tj ->
          Z.abs (tick_now tj - tick_now ti) < min_beat_interval s ->
          ~ (tick_beat ti = true /\ tick_beat tj = true)).
Proof.
  intros Hwf. destruct (run_total inputs s Hwf) as (ticks & Hrun & _ & _).
  pose proof (wf_min_interval s Hwf) as Hm.
  exists ticks. split; [assumption|].
  assert (Hone : forall i t, ticks !! i = Some t -> tick_beat t = true ->
            ticks_diff (tick_now t) (last_beat_time (state_before s ticks i))
            > min_beat_interval s
            /\ last_beat_time (state_before s ticks (S i)) = tick_now t).
  { intros i t Ht Hb.
    destruct (run_step _ _ _ _ _ Hrun Ht) as (raw & _ & Hd).
    apply detect_beat_gate in Hd. rewrite Hb in Hd.
    rewrite (run_min_beat_interval _ _ _ i Hrun) in Hd
      by (apply lookup_lt_Some in Ht; lia).
    rewrite (state_before_S _ _ _ _ Ht).
    destruct Hd as (Hgap & _ & _ & Hl & _). auto. }
  assert (Htwo : forall i j ti tj, (i < j)%nat ->
            ticks !! i = Some ti -> ticks !! j = Some tj ->
            tick_beat ti = true -> tick_beat tj = true ->
            tick_now tj - tick_now ti > min_beat_interval s).
  { intros i j ti tj Hij Hi Hj Hbi Hbj.
    destruct (Hone i ti Hi Hbi) as (_ & Hli).
    destruct (Hone j tj Hj Hbj) as (Hgap & _).
    pose proof (lookup_lt_Some _ _ _ Hj) as Hlen.
    pose proof (run_last_beat_monotone _ _ _ Hrun Hm (S i) j ltac:(lia)).
    unfold ticks_diff in Hgap. lia. }
  split; [intros i t Ht Hb; apply (Hone i t Ht Hb)|].
  split; [exact Htwo|].
  intros i j ti tj Hij Hi Hj Habs [Hbi Hbj].
  destruct (decide (i < j)%nat).
  - pose proof (Htwo i j ti tj ltac:(lia) Hi Hj Hbi Hbj). lia.
  - pose proof (Htwo j i tj ti ltac:(lia) Hj Hi Hbj Hbi). lia.
Qed.

(** A square wave of period 280 ms: the filtered value crosses the
    threshold every 280 ms, but the crossing at 1780 ms, 280 ms after the
    beat at 1500 ms, is gated and the beat is reported at 1820 ms. *)
Lemma refractory_gating_witness :
  exists ticks,
    run chatter_inputs default_sensor = OK ticks
    /\ beat_times ticks = [1140; 1500; 1820; 2140]
    /\ (forall i j ti tj, (i < j)%nat ->
          ticks !! i = Some ti -> ticks !! j = Some tj ->
          tick_beat ti = true -> tick_beat tj = true ->
          tick_now tj - tick_now ti > 300).
Proof.
  destruct (refractory_gating chatter_inputs default_sensor)
    as (ticks & Hrun & _ & Htwo & _).
  - concrete_wf.
  - exists ticks. split; [exact Hrun|]. split; [|exact Htwo].
    vm_compute in Hrun. injection Hrun as <-. vm_compute. reflexivity.
Defined.

(** ** BPM convergence *)

Lemma average_bpm_600 n :
  (2 <= n <= 5)%nat -> average_bpm (replicate n 600) = OK 100.
Proof.
  intros Hn.
  assert (Hcases : n = 2%nat \/ n = 3%nat \/ n = 4%nat \/ n = 5%nat) by lia.
  destruct Hcases as [->|[->|[->| ->]]]; reflexivity.
Qed.

(** The window after [calculate_bpm] respects its capacity. *)
Lemma calculate_bpm_window_ok now s s3 :
  window_ok s -> calculate_bpm now s = OK s3 -> window_ok s3.
Proof.
  intros [Hmax Hlen] H.
  pose proof (calculate_bpm_frame _ _ _ H) as Hfr.
  destruct Hfr as (_ & _ & _ & _ & _ & _ & _ & _ & _ & _ & Hmax3).
  split; [congruence|]. revert H. unfold calculate_bpm.
  destruct (decide (last_beat_time s > 0)); [|intros [= <-]; assumption].
  simpl. rewrite Hmax.
  set (l := beat_intervals s ++ [ticks_diff now (last_beat_time s)]).
  assert (Hl : length l = S (length (beat_intervals s)))
    by (subst l; rewrite length_app; simpl; lia).
  clearbody l.
  set (s1 := if decide (len l > 5) then _ else _).
  assert (H1 : (length (beat_intervals s1) <= 5)%nat).
  { subst s1. unfold len. case_decide; simpl; rewrite ?length_drop; lia. }
  clearbody s1.
  case_decide; intros Hc; [inv_bind Hc|]; injection Hc as <-; exact H1.
Qed.

(** Recording an interval of 600 ms extends the run of 600s that ends the
    window; once the window holds five of them the BPM is 100. *)
Lemma calculate_bpm_600 now s s3 n :
  window_ok s ->
  last_beat_time s > 0 ->
  ticks_diff now (last_beat_time s) = 600 ->
  (exists old, beat_intervals s = old ++ replicate (n `min` 5) 600) ->
  calculate_bpm now s = OK s3 ->
  (exists old, beat_intervals s3 = old ++ replicate (S n `min` 5) 600)
  /\ ((5 <= S n)%nat -> current_bpm s3 = 100).
Proof.
  intros [Hmax Hlen] Hlast Hgap (old & Hw) H.
  unfold calculate_bpm in H. rewrite decide_True in H by exact Hlast.
  simpl in H. rewrite Hgap, Hmax, Hw in H.
  rewrite Hw, length_app, length_replicate in Hlen.
  rewrite <- app_assoc in H.
  change [600] with (replicate 1 600) in H.
  rewrite <- replicate_add in H.
  set (k := (n `min` 5)%nat) in *.
  assert (Hk : (k = n /\ n < 5 \/ k = 5 /\ 5 <= n)%nat) by lia.
  clearbody k.
  set (w := old ++ replicate (k + 1) 600) in *.
  assert (Hdrop :
    exists old',
      (if decide (len w > 5) then drop 1 w else w)
      = old' ++ replicate (S n `min` 5) 600
      /\ (length (if decide (len w > 5)%Z then drop 1 w else w) <= 5)%nat).
  { clear H. subst w. unfold len. rewrite length_app, length_replicate.
    set (m := (S n `min` 5)%nat).
    assert (Hm : (k < 5 /\ m = k + 1 \/ k = 5 /\ m = 5)%nat) by lia.
    clearbody m. clear Hk.
    destruct old as [|o old].
    - exists []. simpl in *. case_decide.
      + assert (k = 5%nat) as -> by lia.
        assert (m = 5%nat) as -> by lia.
        simpl. split; [reflexivity|lia].
      + assert (m = (k + 1)%nat) as -> by lia.
        rewrite length_replicate. split; [reflexivity|lia].
    - simpl in Hlen.
      assert (m = (k + 1)%nat) as -> by lia.
      case_decide.
      + exists old. simpl. rewrite drop_0. split; [reflexivity|].
        rewrite length_app, length_replicate. simpl in *. lia.
      + exists (o :: old). split; [reflexivity|].
        rewrite length_app, length_replicate. simpl in *. lia. }
  destruct Hdrop as (old' & Hw' & Hlen').
  set (s1 := if decide (len w > 5) then _ else _) in H.
  assert (H1 : beat_intervals s1
               = if decide (len w > 5) then drop 1 w else w)
    by (subst s1; case_decide; reflexivity).
  clearbody s1. rewrite <- H1 in Hw', Hlen'. clear H1.
  assert (Hiv3 : beat_intervals s3 = beat_intervals s1
                 /\ ((5 <= S n)%nat -> current_bpm s3 = 100)).
  { destruct (decide (len (beat_intervals s1) >= 2)) as [H2|H2].
    - inv_bind H. injection H as <-. simpl. split; [reflexivity|].
      intros H5. rewrite Hw' in Ha, Hlen'.
      rewrite length_app, length_replicate in Hlen'.
      replace (S n `min` 5)%nat with 5%nat in * by lia.
      destruct old'; [|simpl in Hlen'; lia].
      simpl in Ha. vm_compute in Ha. congruence.
    - injection H as <-. split; [reflexivity|].
      intros H5. exfalso. apply H2. unfold len.
      rewrite Hw', length_app, length_replicate. lia. }
  destruct Hiv3 as [-> Hbpm]. split; [eauto|exact Hbpm].
Qed.

Lemma beat_times_cons t ticks :
  beat_times (t :: ticks)
  = if tick_beat t then tick_now t :: beat_times ticks else beat_times ticks.
Proof.
  unfold beat_times. rewrite filter_cons.
  destruct (tick_beat t) eqn:E; case_decide; try congruence; reflexivity.
Qed.

Lemma detect_beat_window_ok raw now s b r f bpm s' :
  window_ok s -> detect_beat raw now s = OK (b, r, f, bpm, s') ->
  window_ok s'.
Proof.
  intros Hok H.
  apply detect_beat_decision
    in H as (s2 & (Hiv & _ & _ & _ & _ & Hmax) & H).
  assert (Hok2 : window_ok s2)
    by (unfold window_ok; rewrite Hiv, Hmax; exact Hok).
  destruct b.
  - destruct H as (_ & s3 & Hc & -> & _).
    apply calculate_bpm_window_ok in Hc; [exact Hc|exact Hok2].
  - destruct H as (_ & -> & _).
    destruct (below_hysteresis f (threshold s2)); exact Hok2.
Qed.

Lemma detect_beat_wf raw now s b r f bpm s' :
  wf s -> detect_beat raw now s = OK (b, r, f, bpm, s') -> wf s'.
Proof.
  intros Hwf Hd.
  destruct (detect_beat_total raw now s Hwf)
    as (b0 & r0 & f0 & bpm0 & s0 & Hd0 & Hwf0).
  rewrite Hd in Hd0. injection Hd0 as <- <- <- <- <-. exact Hwf0.
Qed.

(** One call inside a 600 ms beat train. *)
Lemma detect_beat_in_train raw now s b r f bpm s' m T :
  wf s -> window_ok s -> in_train m T s ->
  detect_beat raw now s = OK (b, r, f, bpm, s') ->
  if b then
    (m <> 0%nat -> now = T + 600) ->
    in_train (S m) now s' /\ ((5 <= m)%nat -> bpm = 100)
  else
    in_train m T s' /\ ((6 <= m)%nat -> bpm = 100).
Proof.
  intros Hwf Hok Htrain Hd.
  pose proof (detect_beat_gate _ _ _ _ _ _ _ _ Hd) as Hgate.
  pose proof (detect_beat_frame _ _ _ _ _ _ _ _ Hd) as (_ & _ & Hbpm).
  apply detect_beat_decision
    in Hd as (s2 & (Hiv & Hb2 & Hl & _ & _ & Hmax) & H).
  destruct b.
  - destruct H as (_ & s3 & Hc & -> & ->).
    destruct Hgate as (Hgap & _ & _ & Hnow & _).
    pose proof (wf_min_interval s Hwf). pose proof (wf_last_beat s Hwf).
    unfold ticks_diff in Hgap. intros Hnext.
    destruct m as [|n].
    + split; [|lia]. simpl. split; [reflexivity|]. split; [lia|].
      split; [|lia]. exists (beat_intervals s3). rewrite app_nil_r.
      reflexivity.
    + destruct Htrain as (HT & HT0 & Htail & _).
      specialize (Hnext ltac:(lia)).
      assert (H600 : (exists old,
                        beat_intervals s3 = old ++ replicate (S n `min` 5) 600)
                     /\ ((5 <= S n)%nat -> current_bpm s3 = 100)).
      { apply (calculate_bpm_600 now (set_beat_detected true s2) s3 n).
        - unfold window_ok. simpl. rewrite Hiv, Hmax. exact Hok.
        - simpl. lia.
        - simpl. unfold ticks_diff. lia.
        - simpl. rewrite Hiv. exact Htail.
        - exact Hc. }
      destruct H600 as (Htail3 & Hbpm3).
      split; [|exact Hbpm3].
      simpl. split; [reflexivity|]. split; [lia|].
      split; [exact Htail3|]. intros H5. apply Hbpm3. lia.
  - destruct Hgate as (Hlast & Hint & Hcur & _).
    destruct m as [|n]; [split; [exact I|lia]|].
    destruct Htrain as (HT & HT0 & Htail & H100).
    split.
    + simpl. rewrite Hlast, Hint, Hcur. auto.
    + intros H6. rewrite Hbpm, Hcur. apply H100. lia.
Qed.

Lemma spaced_tail d x l : spaced d (x :: l) -> spaced d l.
Proof. destruct l as [|y l]; simpl; [auto|]. intros [_ H]. exact H. Qed.

Lemma bpm_convergence_from inputs : forall s ticks m T,
  wf s -> window_ok s -> in_train m T s ->
  run inputs s = OK ticks ->
  train_continues m T (beat_times ticks) ->
  forall i t, ticks !! i = Some t ->
    (6 <= m + length (beat_times (take (S i) ticks)))%nat ->
    tick_bpm t = 100.
Proof.
  induction inputs as [|[raw now] inputs IH];
    intros s ticks m T Hwf Hok Htrain Hrun Hcont i t Hi Hcount.
  - injection Hrun as <-. discriminate.
  - apply run_cons_inv in Hrun
      as (b & r & f & bpm & s' & rest & Hd & Hrest & ->).
    pose proof (detect_beat_wf _ _ _ _ _ _ _ _ Hwf Hd) as Hwf'.
    pose proof (detect_beat_window_ok _ _ _ _ _ _ _ _ Hok Hd) as Hok'.
    pose proof (detect_beat_in_train _ _ _ _ _ _ _ _ _ _ Hwf Hok Htrain Hd)
      as Hstep.
    rewrite beat_times_cons in Hcont. simpl in Hcont.
    rewrite firstn_cons, beat_times_cons in Hcount. simpl in Hcount.
    destruct b.
    + destruct Hcont as [Hfirst Hsp].
      destruct (Hstep Hfirst) as [Htrain' H100].
      destruct i as [|i]; simpl in Hi.
      * injection Hi as <-. simpl. apply H100.
        rewrite take_0 in Hcount. simpl in Hcount. lia.
      * apply (IH s' rest (S m) now Hwf' Hok' Htrain' Hrest) with (i := i);
          [|exact Hi|simpl in Hcount; lia].
        unfold train_continues. destruct (beat_times rest) as [|y l] eqn:E;
          [exact I|].
        simpl in Hsp. destruct Hsp as [Hy Hsp]. split; [intros _; lia|].
        exact Hsp.
    + destruct Hstep as [Htrain' H100].
      destruct i as [|i]; simpl in Hi.
      * injection Hi as <-. simpl. apply H100.
        rewrite take_0 in Hcount. simpl in Hcount. lia.
      * apply (IH s' rest m T Hwf' Hok' Htrain' Hrest Hcont i t Hi).
        exact Hcount.
Qed.

Lemma reachable_window_ok s : reachable s -> window_ok s.
Proof.
  induction 1 as [factor interval|adc s Hs IH
                 |raw now s b r f bpm s' Hs IH Hd].
  - split; simpl; [reflexivity|lia].
  - unfold window_ok.
    destruct (calibrate_frame adc s) as (_ & -> & -> & _). exact IH.
  - eapply detect_beat_window_ok; eassumption.
Qed.

(** C4. From any state that satisfies the invariants (every reachable state
    with a non-negative refractory interval does) a run returns, and if the
    beats it confirms are spaced exactly 600 ms apart, then every call from
    the sixth beat onward returns a BPM of exactly 100: the five intervals
    in the window are all 600. *)
Theorem bpm_convergence (inputs : list (Z * Z)) (s : PulseSensor) :
  wf s ->
  window_ok s ->
  exists ticks,
    run inputs s = OK ticks
    /\ (spaced 600 (beat_times ticks) ->
        forall i t, ticks !! i = Some t ->
          (6 <= length (beat_times (take (S i) ticks)))%nat ->
          tick_bpm t = 100).
Proof.
  intros Hwf Hok.
  destruct (run_total inputs s Hwf) as (ticks & Hrun & _ & _).
  exists ticks. split; [exact Hrun|].
  intros Hsp i t Hi Hcount.
  apply (bpm_convergence_from inputs s ticks 0 0 Hwf Hok I Hrun)
    with (i := i); [|exact Hi|simpl; exact Hcount].
  unfold train_continues. destruct (beat_times ticks); [exact I|].
  split; [congruence|exact Hsp].
Qed.

(** The pulse train: from [warm_sensor] the beats are 600 ms apart, there
    are six of them, and the last call returns 100. *)
Lemma bpm_convergence_witness :
  exists ticks,
    run steady_inputs warm_sensor = OK ticks
    /\ beat_times ticks = [2680; 3280; 3880; 4480; 5080; 5680]
    /\ spaced 600 (beat_times ticks)
    /\ tick_bpm <$> last ticks = Some 100.
Proof.
  destruct (bpm_convergence steady_inputs warm_sensor)
    as (ticks & Hrun & Hconv).
  - concrete_wf.
  - split; [reflexivity|]. simpl. lia.
  - exists ticks.
    assert (Hticks : ticks = steady_ticks)
      by (vm_compute in Hrun; injection Hrun as <-; reflexivity).
    assert (Hbeats : beat_times ticks
                     = [2680; 3280; 3880; 4480; 5080; 5680])
      by (rewrite Hticks; vm_compute; reflexivity).
    assert (Hsp : spaced 600 (beat_times ticks))
      by (rewrite Hbeats; simpl; lia).
    split; [exact Hrun|]. split; [exact Hbeats|]. split; [exact Hsp|].
    destruct (last ticks) as [t|] eqn:Hlast;
      [|rewrite Hticks in Hlast; discriminate].
    simpl. f_equal. rewrite last_lookup in Hlast.
    apply (Hconv Hsp _ t Hlast).
    rewrite firstn_all2 by lia. rewrite Hbeats. simpl. lia.
Defined.

(** ** Hysteresis *)

(** [filtered_val < threshold * 0.9] in integer terms. *)
Lemma below_hysteresis_spec f thr :
  below_hysteresis f thr = true <-> 10 * f < 9 * thr.
Proof.
  unfold below_hysteresis.
  destruct (Qlt_le_dec (inject_Z f) (inject_Z thr * (9 # 10))) as [H|H];
    unfold Qlt, Qle in H; simpl in H; split; intros; try discriminate;
    try reflexivity; lia.
Qed.

(** One call in the ABOVE state: never a beat; the latch falls exactly
    when the filtered value is below the hysteresis floor. *)
Lemma detect_beat_armed raw now s b r f bpm s' :
  beat_detected s = true ->
  detect_beat raw now s = OK (b, r, f, bpm, s') ->
  b = false
  /\ last_beat_time s' = last_beat_time s
  /\ beat_intervals s' = beat_intervals s
  /\ bpm = current_bpm s
  /\ (beat_detected s' = true <-> 9 * threshold s' <= 10 * f).
Proof.
  intros Harmed Hd.
  pose proof (detect_beat_frame _ _ _ _ _ _ _ _ Hd) as (_ & _ & Hbpm).
  apply detect_beat_gate in Hd. destruct b.
  - destruct Hd as (_ & Hlatch & _). congruence.
  - destruct Hd as (Hl & Hiv & Hcur & _ & Hnext).
    specialize (Hnext Harmed).
    repeat split; try congruence.
    + intros E. rewrite E in Hnext.
      destruct (below_hysteresis f (threshold s')) eqn:Hh; [discriminate|].
      destruct (decide (10 * f < 9 * threshold s')) as [Hlt|]; [|lia].
      apply below_hysteresis_spec in Hlt. congruence.
    + intros Hge. rewrite Hnext.
      destruct (below_hysteresis f (threshold s')) eqn:Hh; [|reflexivity].
      apply below_hysteresis_spec in Hh. lia.
Qed.

Lemma hysteresis_hold inputs : forall s ticks,
  beat_detected s = true ->
  run inputs s = OK ticks ->
  Forall (fun t => 9 * threshold (tick_state t) <= 10 * tick_filtered t)
    ticks ->
  Forall (fun t =>
            tick_beat t = false
            /\ beat_detected (tick_state t) = true
            /\ last_beat_time (tick_state t) = last_beat_time s
            /\ beat_intervals (tick_state t) = beat_intervals s
            /\ tick_bpm t = current_bpm s
            /\ current_bpm (tick_state t) = current_bpm s) ticks.
Proof.
  induction inputs as [|[raw now] inputs IH]; intros s ticks Harmed Hrun Hband.
  - injection Hrun as <-. constructor.
  - apply run_cons_inv in Hrun
      as (b & r & f & bpm & s' & rest & Hd & Hrest & ->).
    apply Forall_cons in Hband as [Hband0 Hband]. simpl in Hband0.
    pose proof (detect_beat_frame _ _ _ _ _ _ _ _ Hd) as (_ & _ & Hbpm).
    destruct (detect_beat_armed _ _ _ _ _ _ _ _ Harmed Hd)
      as (-> & Hl & Hiv & Hcur & Hlatch).
    apply Hlatch in Hband0.
    constructor.
    + simpl. repeat split; congruence.
    + specialize (IH s' rest Hband0 Hrest Hband).
      rewrite Hl, Hiv in IH. replace (current_bpm s') with (current_bpm s) in IH
        by congruence.
      exact IH.
Qed.

(** ** The band read with the threshold of the state before the call

    [detect_beat] adapts the threshold before it takes its decision, so the
    hysteresis floor of a call is [0.9] times the threshold after the
    adaptive update of that call.  In a reachable state the threshold is
    never below the adapted one, and a filtered value between the valley and
    the peak leaves both of them, and with them the range, as they are: the
    call then computes the same product again and cannot raise the
    threshold. *)

(** The threshold of a reachable state is the adapted one (after
    [detect_beat]) or above it (after [calibrate], whose baseline is not
    below the valley). *)
Lemma reachable_threshold_adapted s :
  reachable s ->
  signal_range s > 1000 ->
  valley_value s + int (inject_Z (signal_range s) * threshold_factor s)
  <= threshold s.
Proof.
  intros Hs Hrange.
  destruct Hs as [factor interval|adc s0 Hs0|raw now s0 b r f bpm s' Hs0 Hd].
  - unfold signal_range in Hrange. simpl in Hrange. lia.
  - destruct (calibrate_levels adc s0) as (Hf & Hbase & Hthr).
    set (c := calibrate adc s0) in *. unfold signal_range in *.
    rewrite Hf, Hthr, Hbase.
    pose proof (Z.div_mod (valley_value c + peak_value c) 2 ltac:(lia)).
    pose proof (Z.mod_pos_bound (valley_value c + peak_value c) 2
                  ltac:(lia)).
    lia.
  - apply detect_beat_levels in Hd as (_ & _ & _ & Hthr).
    unfold signal_range in *. rewrite Hthr, decide_True by exact Hrange.
    lia.
Qed.

(** A call whose filtered value lies between the valley and the peak of a
    reachable state keeps both and does not raise the threshold. *)
Lemma detect_beat_inside raw now s b r f bpm s' :
  reachable s ->
  detect_beat raw now s = OK (b, r, f, bpm, s') ->
  valley_value s <= f <= peak_value s ->
  peak_value s' = peak_value s
  /\ valley_value s' = valley_value s
  /\ threshold s' <= threshold s.
Proof.
  intros Hs Hd Hin.
  pose proof (reachable_threshold_adapted s Hs) as Hadapted.
  apply detect_beat_levels in Hd as (Hp & Hv & Hf & Hthr).
  rewrite Z.max_l in Hp by lia. rewrite Z.min_l in Hv by lia.
  split; [exact Hp|]. split; [exact Hv|].
  rewrite Hthr, Hp, Hv, Hf. unfold signal_range in Hadapted.
  destruct (decide (peak_value s - valley_value s > 1000)) as [Hrange|_];
    [exact (Hadapted Hrange)|lia].
Qed.

Lemma hysteresis_hold_inside inputs : forall s ticks,
  reachable s ->
  beat_detected s = true ->
  run inputs s = OK ticks ->
  (forall i t, ticks !! i = Some t ->
     9 * threshold (state_before s ticks i) <= 10 * tick_filtered t
     /\ valley_value (state_before s ticks i) <= tick_filtered t
     /\ tick_filtered t <= peak_value (state_before s ticks i)) ->
  Forall (fun t =>
            tick_beat t = false
            /\ beat_detected (tick_state t) = true
            /\ last_beat_time (tick_state t) = last_beat_time s
            /\ beat_intervals (tick_state t) = beat_intervals s
            /\ tick_bpm t = current_bpm s
            /\ current_bpm (tick_state t) = current_bpm s
            /\ peak_value (tick_state t) = peak_value s
            /\ valley_value (tick_state t) = valley_value s
            /\ threshold (tick_state t) <= threshold s) ticks.
Proof.
  induction inputs as [|[raw now] inputs IH]; intros s ticks Hs Harmed Hrun Hband.
  - injection Hrun as <-. constructor.
  - apply run_cons_inv in Hrun
      as (b & r & f & bpm & s' & rest & Hd & Hrest & ->).
    destruct (Hband 0%nat _ eq_refl) as (Hlow & Hv & Hp).
    rewrite state_before_0 in Hlow, Hv, Hp. simpl in Hlow, Hv, Hp.
    pose proof (detect_beat_frame _ _ _ _ _ _ _ _ Hd) as (_ & _ & Hbpm).
    destruct (detect_beat_armed _ _ _ _ _ _ _ _ Harmed Hd)
      as (-> & Hl & Hiv & Hcur & Hlatch).
    destruct (detect_beat_inside _ _ _ _ _ _ _ _ Hs Hd (conj Hv Hp))
      as (Hp' & Hv' & Hthr').
    assert (Harmed' : beat_detected s' = true) by (apply Hlatch; lia).
    constructor.
    + simpl. repeat split; congruence || assumption.
    + assert (Hs' : reachable s')
        by exact (reach_detect _ _ _ _ _ _ _ _ Hs Hd).
      assert (Hband' : forall i t, rest !! i = Some t ->
                9 * threshold (state_before s' rest i) <= 10 * tick_filtered t
                /\ valley_value (state_before s' rest i) <= tick_filtered t
                /\ tick_filtered t <= peak_value (state_before s' rest i)).
      { intros i t Ht. specialize (Hband (S i) t Ht).
        rewrite state_before_cons in Hband. exact Hband. }
      specialize (IH s' rest Hs' Harmed' Hrest Hband').
      eapply Forall_impl; [exact IH|]. simpl.
      intros t (? & ? & ? & ? & ? & ? & ? & ? & ?).
      repeat split; try congruence. lia.
Qed.

Lemma warm_sensor_reachable : reachable warm_sensor.
Proof.
  assert (H : exists ticks,
             run (take 40 pulse_inputs) default_sensor = OK ticks
             /\ final_state default_sensor ticks = warm_sensor).
  { eexists. split; vm_compute; reflexivity. }
  destruct H as (ticks & Hrun & <-).
  apply (run_reachable _ _ _ (reach_init _ _) Hrun).
Qed.

(** C3, as the code has it.  In the ABOVE state (latch [beat_detected]
    set), over any number of consecutive calls, every call returns.  The
    call compares the filtered value with [0.9] times the threshold after
    its own adaptive update (lines 102-103 run before line 132): when every
    call has its filtered value at or above that floor, every call reports
    no beat, leaves the latch set and leaves the time of the last beat, the
    interval window and the BPM untouched.  Read with the threshold and the
    peak of the state before the call, as the specification words it, the
    same holds in every reachable state for filtered values that lie
    between [threshold * 0.9] and the peak and are not below the valley:
    such a call also keeps the peak and the valley and does not raise the
    threshold. *)
Theorem hysteresis_idempotence (inputs : list (Z * Z)) (s : PulseSensor) :
  wf s ->
  beat_detected s = true ->
  exists ticks,
    run inputs s = OK ticks
    /\ (Forall (fun t =>
                  9 * threshold (tick_state t) <= 10 * tick_filtered t)
          ticks ->
        Forall (fun t =>
                  tick_beat t = false
                  /\ beat_detected (tick_state t) = true
                  /\ last_beat_time (tick_state t) = last_beat_time s
                  /\ beat_intervals (tick_state t) = beat_intervals s
                  /\ tick_bpm t = current_bpm s
                  /\ current_bpm (tick_state t) = current_bpm s) ticks)
    /\ (reachable s ->
        (forall i t, ticks !! i = Some t ->
           9 * threshold (state_before s ticks i) <= 10 * tick_filtered t
           /\ valley_value (state_before s ticks i) <= tick_filtered t
           /\ tick_filtered t <= peak_value (state_before s ticks i)) ->
        Forall (fun t =>
                  tick_beat t = false
                  /\ beat_detected (tick_state t) = true
                  /\ last_beat_time (tick_state t) = last_beat_time s
                  /\ beat_intervals (tick_state t) = beat_intervals s
                  /\ tick_bpm t = current_bpm s
                  /\ current_bpm (tick_state t) = current_bpm s
                  /\ peak_value (tick_state t) = peak_value s
                  /\ valley_value (tick_state t) = valley_value s
                  /\ threshold (tick_state t) <= threshold s) ticks).
Proof.
  intros Hwf Harmed.
  destruct (run_total inputs s Hwf) as (ticks & Hrun & _ & _).
  exists ticks. split; [exact Hrun|]. split.
  - intros Hband. exact (hysteresis_hold inputs s ticks Harmed Hrun Hband).
  - intros Hs Hband.
    exact (hysteresis_hold_inside inputs s ticks Hs Harmed Hrun Hband).
Qed.

(** Four calls from [warm_sensor] (threshold 36000, valley 0, peak 60000)
    with filtered values 60000, 60000, 59000 and 57000. *)
Lemma hysteresis_idempotence_witness :
  exists ticks,
    run hold_inputs warm_sensor = OK ticks
    /\ tick_filtered <$> ticks = [60000; 60000; 59000; 57000]
    /\ (forall i t, ticks !! i = Some t ->
          9 * threshold (state_before warm_sensor ticks i)
          <= 10 * tick_filtered t
          /\ valley_value (state_before warm_sensor ticks i)
             <= tick_filtered t
          /\ tick_filtered t
             <= peak_value (state_before warm_sensor ticks i))
    /\ Forall (fun t =>
                 tick_beat t = false
                 /\ beat_detected (tick_state t) = true
                 /\ last_beat_time (tick_state t) = 2080
                 /\ beat_intervals (tick_state t) = [780]
                 /\ tick_bpm t = 0
                 /\ current_bpm (tick_state t) = 0
                 /\ peak_value (tick_state t) = 60000
                 /\ valley_value (tick_state t) = 0
                 /\ threshold (tick_state t) <= 36000) ticks.
Proof.
  destruct (hysteresis_idempotence hold_inputs warm_sensor)
    as (ticks & Hrun & _ & Hquiet).
  - concrete_wf.
  - reflexivity.
  - exists ticks.
    assert (Hband : forall i t, ticks !! i = Some t ->
              9 * threshold (state_before warm_sensor ticks i)
              <= 10 * tick_filtered t
              /\ valley_value (state_before warm_sensor ticks i)
                 <= tick_filtered t
              /\ tick_filtered t
                 <= peak_value (state_before warm_sensor ticks i)).
    { vm_compute in Hrun. injection Hrun as <-.
      intros [|[|[|[|i]]]] t Ht; try discriminate;
        injection Ht as <-; vm_compute; repeat split; discriminate. }
    split; [exact Hrun|]. split; [|split; [exact Hband|]].
    + vm_compute in Hrun. injection Hrun as <-. reflexivity.
    + exact (Hquiet warm_sensor_reachable Hband).
Defined.

(** The bound by the valley is needed: the state after ten calls from
    [cold_sensor] is reachable and has the latch set, threshold 5000 (still
    the calibrated one), valley 5000 and peak 6000.  The next call has the
    filtered value 4900, between [0.9 * 5000] and the peak, but below the
    valley: the range grows to 1100, the call adapts the threshold to 5560
    and clears the latch, a transition from ABOVE to BELOW. *)
Lemma latch_falls_when_threshold_first_adapts :
  exists ticks s s',
    run (take 10 cold_inputs) cold_sensor = OK ticks
    /\ s = final_state cold_sensor ticks
    /\ reachable s
    /\ beat_detected s = true
    /\ threshold s = 5000 /\ valley_value s = 5000 /\ peak_value s = 6000
    /\ detect_beat 49000 1200 s = OK (false, 49000, 4900, 0, s')
    /\ 9 * threshold s <= 10 * 4900
    /\ 4900 <= peak_value s
    /\ threshold s' = 5560
    /\ beat_detected s' = false.
Proof.
  assert (H : exists ticks,
             run (take 10 cold_inputs) cold_sensor = OK ticks).
  { eexists. vm_compute. reflexivity. }
  destruct H as (ticks & Hrun).
  assert (Hs : reachable (final_state cold_sensor ticks)).
  { apply (run_reachable _ _ _ (reach_calibrate _ _ (reach_init _ _)) Hrun). }
  exists ticks, (final_state cold_sensor ticks).
  vm_compute in Hrun. injection Hrun as <-.
  eexists. split; [reflexivity|]. split; [reflexivity|].
  split; [exact Hs|].
  split; [reflexivity|]. split; [reflexivity|]. split; [reflexivity|].
  split; [reflexivity|]. split; [vm_compute; reflexivity|].
  split; [vm_compute; discriminate|]. split; [vm_compute; discriminate|].
  split; reflexivity.
Qed.

(** * Further properties of the sensor *)

(** ** The filter as a sliding window *)

Lemma read_all_total raws : forall s,
  wf s ->
  exists outs s',
    read_all raws s = OK (outs, s')
    /\ wf s'
    /\ filter_size s' = filter_size s.
Proof.
  induction raws as [|raw raws IH]; intros s Hwf.
  - exists [], s. auto.
  - destruct (read_filtered_total raw s Hwf) as (s1 & Hread & Hs1 & Hwf1).
    destruct (IH s1 Hwf1) as (outs & s' & Hrun & Hwf' & Hfs).
    simpl. rewrite Hread. simpl. rewrite Hrun. simpl.
    do 2 eexists. split; [reflexivity|]. split; [exact Hwf'|].
    rewrite Hfs, Hs1. reflexivity.
Qed.

Lemma py_sum_replicate_0 n : py_sum (replicate n 0) = 0.
Proof.
  induction n as [|n IH]; [reflexivity|].
  simpl. rewrite py_sum_cons, IH. reflexivity.
Qed.

(** After any number of reads, at least as many as the window has slots,
    the filtered value is the integer mean of the values read last, one per
    slot: older readings and the initial contents have no influence. *)
Theorem filter_is_sliding_mean
    (earlier recent : list Z) (s : PulseSensor) :
  wf s ->
  len recent = filter_size s ->
  exists outs s',
    read_all (earlier ++ recent) s = OK (outs, s')
    /\ outs.*1 = earlier ++ recent
    /\ snd <$> last outs = Some (py_sum recent `div` filter_size s)
    /\ filtered_value s' = py_sum recent `div` filter_size s.
Proof.
  intros Hwf Hlen.
  destruct (read_all_total earlier s Hwf) as (outs1 & s1 & Hrun1 & Hwf1 & Hfs1).
  destruct (read_all_full_window recent s1 Hwf1)
    as (outs2 & s2 & Hrun2 & Hrs2 & _ & _); [congruence|].
  pose proof (read_all_app _ _ _ _ _ _ _ Hrun1 Hrun2) as Hrun.
  exists (outs1 ++ outs2), s2. split; [exact Hrun|].
  assert (Hne : recent <> []).
  { intros ->. destruct Hwf as [_ Hpos _ _ _ _].
    unfold len in Hlen. simpl in Hlen. lia. }
  assert (Hsum : py_sum (readings s2) = py_sum recent).
  { rewrite Hrs2, py_sum_app, Z.add_comm, <- py_sum_app, take_drop.
    reflexivity. }
  pose proof (read_all_last _ _ _ _ Hrun) as (_ & Hfst & Hlast).
  split; [exact Hfst|].
  assert (Hlast' : snd <$> last (outs1 ++ outs2)
                   = Some (py_sum recent `div` filter_size s)).
  { rewrite Hlast, Hsum; [reflexivity|].
    intros E. apply app_eq_nil in E as [_ E]. contradiction. }
  split; [exact Hlast'|].
  (* the stored filtered value is the one returned last *)
  pose proof (read_all_last _ _ _ _ Hrun2) as (_ & _ & Hlast2).
  specialize (Hlast2 Hne).
  clear Hrun Hlast Hlast' Hfst Hrun1.
  revert s1 outs2 Hwf1 Hfs1 Hrun2 Hrs2 Hlast2.
  induction recent as [|r recent IH] using rev_ind; [congruence|].
  intros s1 outs2 Hwf1 Hfs1 Hrun2 Hrs2 Hlast2.
  destruct (read_all_total recent s1 Hwf1) as (o1 & sa & Ha & Hwfa & Hfsa).
  destruct (read_filtered_total r sa Hwfa) as (sb & Hb & Hsb & _).
  assert (Hlastcall : read_all [r] sa = OK ([(r, filtered_value sb)], sb)).
  { simpl. rewrite Hb. simpl. subst sb. reflexivity. }
  pose proof (read_all_app _ _ _ _ _ _ _ Ha Hlastcall) as Hboth.
  rewrite Hrun2 in Hboth. injection Hboth as -> ->.
  rewrite last_snoc in Hlast2. simpl in Hlast2. injection Hlast2 as Hf.
  rewrite Hf, Hsum, Hfs1. reflexivity.
Qed.

Lemma filter_is_sliding_mean_witness :
  exists outs s',
    read_all ([7; 7; 7] ++ [10; 20; 30; 40; 50; 60; 70; 80; 90; 107])
      default_sensor = OK (outs, s')
    /\ outs.*1 = [7; 7; 7] ++ [10; 20; 30; 40; 50; 60; 70; 80; 90; 107]
    /\ snd <$> last outs = Some 55
    /\ filtered_value s' = 55.
Proof.
  apply (filter_is_sliding_mean [7; 7; 7]
           [10; 20; 30; 40; 50; 60; 70; 80; 90; 107] default_sensor).
  - concrete_wf.
  - reflexivity.
Defined.

(** From a zeroed window with the write index at its start (the state after
    construction), the filtered value after [k] reads, [k] at most the
    number of slots, is the sum of the values read divided by the number of
    slots, not by [k]: the output is biased toward zero until the window has
    filled. *)
Theorem filter_startup_bias (raws : list Z) (s : PulseSensor) :
  wf s ->
  readings s = replicate (Z.to_nat (filter_size s)) 0 ->
  reading_index s = 0 ->
  raws <> [] ->
  len raws <= filter_size s ->
  exists outs s',
    read_all raws s = OK (outs, s')
    /\ snd <$> last outs = Some (py_sum raws `div` filter_size s)
    /\ readings s'
       = raws ++ replicate (Z.to_nat (filter_size s - len raws)) 0.
Proof.
  intros Hwf Hzero Hix Hne Hlen.
  pose proof Hwf as [Hsz Hpos _ _ _ _].
  destruct (read_all_fill raws s [] (replicate (length raws) 0)
              (replicate (Z.to_nat (filter_size s - len raws)) 0) Hwf)
    as (outs & s' & Hrun & Hrs & _ & _).
  - rewrite Hzero. simpl. rewrite <- replicate_add. f_equal.
    unfold len in *. lia.
  - rewrite Hix. reflexivity.
  - apply length_replicate.
  - exists outs, s'. split; [exact Hrun|]. split; [|exact Hrs].
    apply read_all_last in Hrun as (_ & _ & Hlast).
    rewrite (Hlast Hne). simpl in Hrs.
    rewrite Hrs, py_sum_app, py_sum_replicate_0, Z.add_0_r. reflexivity.
Qed.

Lemma filter_startup_bias_witness :
  exists outs s',
    read_all [30000; 30000; 30000] default_sensor = OK (outs, s')
    /\ snd <$> last outs = Some 9000
    /\ readings s' = [30000; 30000; 30000] ++ replicate 7 0.
Proof.
  apply (filter_startup_bias [30000; 30000; 30000] default_sensor).
  - concrete_wf.
  - reflexivity.
  - reflexivity.
  - discriminate.
  - unfold len. simpl. lia.
Defined.

(** ** Values stay in the range of the converter *)

Lemma py_sum_u16 (l : list Z) :
  Forall u16 l -> 0 <= py_sum l <= 65535 * len l.
Proof.
  unfold len. induction 1 as [|x l Hx Hl IH].
  - unfold py_sum. simpl. lia.
  - rewrite py_sum_cons, length_cons. unfold u16 in Hx. lia.
Qed.

Lemma init_adc_range factor interval : adc_range (init factor interval).
Proof.
  unfold adc_range, u16. simpl.
  split; [repeat constructor; lia|]. lia.
Qed.

Lemma calibrate_loop_u16 adc n : forall i lo hi,
  (forall k, u16 (adc k)) -> u16 lo -> u16 hi ->
  u16 (calibrate_loop adc i n lo hi).1 /\ u16 (calibrate_loop adc i n lo hi).2.
Proof.
  induction n as [|n IH]; intros i lo hi Hadc Hlo Hhi; simpl; [auto|].
  apply IH; [exact Hadc| |]; specialize (Hadc i); unfold u16 in *; lia.
Qed.

Lemma calibrate_adc_range adc s :
  (forall k, u16 (adc k)) -> adc_range s -> adc_range (calibrate adc s).
Proof.
  intros Hadc (Hrs & _ & _). unfold calibrate.
  pose proof (calibrate_loop_u16 adc (calibration_samples s) 0 65535 0 Hadc)
    as Hloop.
  destruct (calibrate_loop adc 0 (calibration_samples s) 65535 0) as [lo hi].
  destruct Hloop as [Hlo Hhi]; [unfold u16; lia|unfold u16; lia|].
  unfold adc_range. simpl. auto.
Qed.

(** The filter part of one [detect_beat] call. *)
Lemma detect_beat_filter raw now s b r f bpm s' :
  wf s ->
  detect_beat raw now s = OK (b, r, f, bpm, s') ->
  r = raw
  /\ f = py_sum (readings s') `div` filter_size s
  /\ readings s' = <[Z.to_nat (reading_index s) := raw]> (readings s)
  /\ filtered_value s' = f.
Proof.
  intros Hwf Hd.
  apply detect_beat_inv in Hd as (s1 & Hread & Hd).
  destruct (read_filtered_total raw s Hwf) as (s0 & Hread0 & Hs0 & _).
  rewrite Hread in Hread0. injection Hread0 as Hr Hf Hs1. subst s1.
  set (s2 := adjust_threshold (update_peak_valley f s0)) in *.
  assert (H2 : readings s2 = readings s0
               /\ filtered_value s2 = filtered_value s0).
  { subst s2. unfold adjust_threshold, update_peak_valley.
    repeat case_decide; auto. }
  clearbody s2. destruct H2 as [Hr2 Hf2].
  assert (Hs' : readings s' = readings s0
                /\ filtered_value s' = filtered_value s0).
  { destruct b.
    - destruct Hd as (_ & s3 & Hc & -> & _). simpl.
      unfold calculate_bpm in Hc. revert Hc.
      repeat case_decide; intros Hc; try inv_bind Hc; injection Hc as <-;
        simpl; auto.
    - destruct Hd as (_ & -> & _).
      destruct (below_hysteresis _ _); simpl; auto. }
  destruct Hs' as [Hrs' Hfv'].
  rewrite Hrs', Hfv', Hs0. simpl. auto.
Qed.

(** With 16-bit readings the filtered value, the peak and the valley are
    16-bit values, over any run of [detect_beat] calls from a state whose
    window, peak and valley are (the state after construction or after a
    calibration is one), and the filtered value of every call lies between
    the valley and the peak of that call. *)
Theorem levels_stay_in_adc_range (inputs : list (Z * Z)) (s : PulseSensor) :
  wf s ->
  adc_range s ->
  Forall (fun i => u16 i.1) inputs ->
  exists ticks,
    run inputs s = OK ticks
    /\ Forall (fun t =>
                 u16 (tick_filtered t)
                 /\ 0 <= valley_value (tick_state t)
                 /\ valley_value (tick_state t) <= tick_filtered t
                 /\ tick_filtered t <= peak_value (tick_state t)
                 /\ peak_value (tick_state t) <= 65535
                 /\ adc_range (tick_state t)) ticks.
Proof.
  revert s. induction inputs as [|[raw now] inputs IH]; intros s Hwf Hrange Hin.
  - exists []. split; [reflexivity|constructor].
  - apply Forall_cons in Hin as [Hraw Hin]. simpl in Hraw.
    destruct (detect_beat_total raw now s Hwf)
      as (b & r & f & bpm & s' & Hd & Hwf').
    pose proof (detect_beat_filter _ _ _ _ _ _ _ _ Hwf Hd)
      as (_ & Hf & Hrs' & _).
    pose proof (detect_beat_levels _ _ _ _ _ _ _ _ Hd) as (Hp' & Hv' & _).
    destruct Hrange as (Hrs & Hp & Hv).
    assert (Hrs1 : Forall u16 (readings s')).
    { rewrite Hrs'. apply Forall_insert; assumption. }
    assert (Hf16 : u16 f).
    { pose proof (py_sum_u16 _ Hrs1) as Hsum.
      destruct Hwf as [Hsz Hpos _ _ _ _].
      assert (Hlen : len (readings s') = filter_size s)
        by (rewrite Hrs', len_insert; congruence).
      rewrite Hlen in Hsum. rewrite Hf. unfold u16. split.
      - apply Z.div_pos; lia.
      - apply Z.div_le_upper_bound; lia. }
    assert (Hrange' : adc_range s').
    { unfold adc_range, u16 in *. rewrite Hp', Hv'.
      split; [exact Hrs1|]. lia. }
    destruct (IH s' Hwf' Hrange' Hin) as (ticks & Hrun & Hall).
    simpl. rewrite Hd. simpl. rewrite Hrun. simpl.
    eexists. split; [reflexivity|]. constructor; [|exact Hall].
    simpl. split; [exact Hf16|].
    do 4 (split; [unfold u16 in *; lia|]). exact Hrange'.
Qed.

Lemma levels_stay_in_adc_range_witness :
  exists ticks,
    run chatter_inputs (calibrate alternating_readings default_sensor)
    = OK ticks
    /\ Forall (fun t =>
                 u16 (tick_filtered t)
                 /\ 0 <= valley_value (tick_state t)
                 /\ valley_value (tick_state t) <= tick_filtered t
                 /\ tick_filtered t <= peak_value (tick_state t)
                 /\ peak_value (tick_state t) <= 65535
                 /\ adc_range (tick_state t)) ticks.
Proof.
  apply (levels_stay_in_adc_range chatter_inputs
           (calibrate alternating_readings default_sensor)).
  - concrete_wf.
  - apply calibrate_adc_range; [|apply init_adc_range].
    intros k. unfold u16, alternating_readings.
    pose proof (Z.mod_pos_bound (Z.of_nat k) 2 ltac:(lia)). lia.
  - unfold chatter_inputs. apply Forall_fmap, Forall_forall. intros k _.
    unfold u16. simpl. destruct (_ <? 7)%nat; lia.
Defined.

(** ** Calibration on arbitrary readings *)

(** For any readings in the range of the converter, at least one of them,
    [calibrate] sets the valley and the peak to the smallest and the largest
    reading, the baseline between them, and, for a non-negative factor, the
    threshold at or above the baseline; the beat and BPM state is left as it
    was. *)
Theorem calibrate_extrema (adc : nat -> Z) (s : PulseSensor) :
  (0 < calibration_samples s)%nat ->
  (forall i, (i < calibration_samples s)%nat -> u16 (adc i)) ->
  let s' := calibrate adc s in
  (forall i, (i < calibration_samples s)%nat ->
     valley_value s' <= adc i <= peak_value s')
  /\ (exists i, (i < calibration_samples s)%nat /\ adc i = valley_value s')
  /\ (exists i, (i < calibration_samples s)%nat /\ adc i = peak_value s')
  /\ valley_value s' <= baseline s' <= peak_value s'
  /\ ((0 <= threshold_factor s)%Q -> baseline s' <= threshold s')
  /\ beat_detected s' = beat_detected s
  /\ last_beat_time s' = last_beat_time s
  /\ beat_intervals s' = beat_intervals s
  /\ current_bpm s' = current_bpm s
  /\ readings s' = readings s.
Proof.
  intros Hn Hadc. unfold calibrate.
  pose proof (calibrate_loop_spec adc (calibration_samples s) 0 65535 0)
    as Hspec.
  destruct (calibrate_loop adc 0 (calibration_samples s) 65535 0) as [lo hi].
  destruct Hspec as (_ & Hall & Hmin & Hmax). simpl.
  assert (H0 : lo <= adc 0%nat <= hi) by (apply Hall; lia).
  pose proof (Hadc 0%nat Hn) as H016. unfold u16 in *.
  assert (Hlo : exists i, (i < calibration_samples s)%nat /\ adc i = lo).
  { destruct Hmin as [->|(k & Hk & E)].
    - exists 0%nat. split; [lia|]. lia.
    - exists k. split; [lia|exact E]. }
  assert (Hhi : exists i, (i < calibration_samples s)%nat /\ adc i = hi).
  { destruct Hmax as [->|(k & Hk & E)].
    - exists 0%nat. split; [lia|]. lia.
    - exists k. split; [lia|exact E]. }
  split; [intros i Hi; apply Hall; lia|].
  split; [exact Hlo|]. split; [exact Hhi|].
  assert (Hmid : lo <= (lo + hi) `div` 2 <= hi).
  { split.
    - apply Z.div_le_lower_bound; lia.
    - apply Z.div_le_upper_bound; lia. }
  split; [exact Hmid|].
  split; [|repeat split; reflexivity].
  intros Hf.
  pose proof (int_scale_mono 0 (hi - lo) (threshold_factor s) Hf
                ltac:(lia)) as Hscale.
  assert (Hz : int (inject_Z 0 * threshold_factor s) = 0).
  { unfold int. destruct (threshold_factor s). reflexivity. }
  lia.
Qed.

Lemma calibrate_extrema_witness :
  let s' := calibrate alternating_readings default_sensor in
  (forall i, (i < 100)%nat ->
     valley_value s' <= alternating_readings i <= peak_value s')
  /\ valley_value s' = 20000
  /\ peak_value s' = 40000
  /\ valley_value s' <= baseline s' <= peak_value s'
  /\ baseline s' <= threshold s'.
Proof.
  destruct (calibrate_extrema alternating_readings default_sensor)
    as (Hall & _ & _ & Hmid & Hthr & _).
  - simpl. lia.
  - intros i _. unfold u16, alternating_readings.
    pose proof (Z.mod_pos_bound (Z.of_nat i) 2 ltac:(lia)). lia.
  - split; [exact Hall|]. split; [reflexivity|]. split; [reflexivity|].
    split; [exact Hmid|]. apply Hthr. vm_compute. discriminate.
Defined.

(** ** Signal strength over a run *)

Lemma signal_strength_mono s1 s2 :
  signal_range s1 <= signal_range s2 ->
  get_signal_strength s1 <= get_signal_strength s2.
Proof.
  unfold signal_range, get_signal_strength. intros H.
  apply Z.min_le_compat_l, Z.max_le_compat_l, Z.div_le_mono; lia.
Qed.

(** Without a calibration in between the signal strength never decreases:
    it is computed from the range, and [detect_beat] only widens the
    range. *)
Theorem signal_strength_never_decreases
    (inputs : list (Z * Z)) (s : PulseSensor) :
  wf s ->
  exists ticks,
    run inputs s = OK ticks
    /\ forall i j, (i <= j <= length ticks)%nat ->
         get_signal_strength (state_before s ticks i)
         <= get_signal_strength (state_before s ticks j).
Proof.
  intros Hwf. destruct (run_total inputs s Hwf) as (ticks & Hrun & _ & _).
  exists ticks. split; [exact Hrun|]. intros i j Hij.
  apply signal_strength_mono. unfold signal_range.
  destruct (run_range_grows _ _ _ Hrun i j Hij). lia.
Qed.

Lemma signal_strength_never_decreases_witness :
  exists ticks,
    run spike_inputs default_sensor = OK ticks
    /\ get_signal_strength (final_state default_sensor ticks) = 55
    /\ forall i, (i <= length ticks)%nat ->
         get_signal_strength (state_before default_sensor ticks i) <= 55.
Proof.
  destruct (signal_strength_never_decreases spike_inputs default_sensor)
    as (ticks & Hrun & Hmono).
  - concrete_wf.
  - exists ticks.
    assert (Hlast : get_signal_strength (final_state default_sensor ticks)
                    = 55)
      by (vm_compute in Hrun; injection Hrun as <-; reflexivity).
    split; [exact Hrun|]. split; [exact Hlast|].
    intros i Hi. rewrite <- Hlast, <- state_before_all.
    apply Hmono. lia.
Defined.

(** ** The BPM is bounded by the refractory interval *)

Lemma calculate_bpm_Forall (P : Z -> Prop) now s s3 :
  Forall P (beat_intervals s) ->
  P (ticks_diff now (last_beat_time s)) ->
  calculate_bpm now s = OK s3 ->
  Forall P (beat_intervals s3).
Proof.
  intros Hall Hnew. unfold calculate_bpm.
  destruct (decide (last_beat_time s > 0)); [|intros [= <-]; exact Hall].
  set (l := beat_intervals s ++ [ticks_diff now (last_beat_time s)]).
  assert (Hl : Forall P l).
  { apply Forall_app. split; [exact Hall|]. constructor; [exact Hnew|].
    constructor. }
  simpl. fold l.
  set (s1 := if decide (len l > max_intervals s) then _ else _).
  assert (H1 : Forall P (beat_intervals s1)).
  { subst s1. case_decide; simpl; [apply Forall_drop|]; exact Hl. }
  clearbody s1.
  case_decide; intros Hc; [inv_bind Hc|]; injection Hc as <-; exact H1.
Qed.

Lemma detect_beat_gated raw now s b r f bpm s' :
  intervals_gated s ->
  detect_beat raw now s = OK (b, r, f, bpm, s') ->
  intervals_gated s'.
Proof.
  unfold intervals_gated. intros Hg Hd.
  pose proof (detect_beat_frame _ _ _ _ _ _ _ _ Hd) as (Hm & _).
  rewrite Hm.
  apply detect_beat_decision in Hd as (s2 & (Hiv & _ & Hl & _ & Hm2 & _) & Hd).
  destruct b.
  - destruct Hd as (Hedge & s3 & Hc & -> & _). simpl.
    apply rising_edge_true in Hedge as (_ & _ & Hgap).
    apply (calculate_bpm_Forall _ now (set_beat_detected true s2) s3);
      simpl; [rewrite Hiv; exact Hg|rewrite <- Hm2; lia|exact Hc].
  - destruct Hd as (_ & -> & _).
    destruct (below_hysteresis _ _); simpl; rewrite Hiv; exact Hg.
Qed.

Lemma reachable_gated s : reachable s -> intervals_gated s.
Proof.
  induction 1 as [factor interval|adc s Hs IH
                 |raw now s b r f bpm s' Hs IH Hd].
  - constructor.
  - unfold intervals_gated.
    destruct (calibrate_frame adc s) as (-> & _ & -> & _). exact IH.
  - eapply detect_beat_gated; eassumption.
Qed.



Lemma py_sum_lower (l : list Z) (m : Z) :
  Forall (fun d => m < d) l -> len l * (m + 1) <= py_sum l.
Proof.
  unfold len. induction 1 as [|x l Hx Hl IH].
  - unfold py_sum. simpl. lia.
  - rewrite py_sum_cons, length_cons. lia.
Qed.

(** In every reachable state with a non-negative refractory interval the
    BPM is at least 0 and at most [60000 // (min_beat_interval + 1)]: every
    interval in the window exceeds the refractory interval.  With the
    default 300 ms the BPM never exceeds 199. *)
Theorem bpm_bounded_by_refractory (s : PulseSensor) :
  reachable s ->
  0 <= min_beat_interval s ->
  intervals_gated s
  /\ 0 <= current_bpm s <= 60000 `div` (min_beat_interval s + 1).
Proof.
  intros Hs Hm.
  pose proof (reachable_gated s Hs) as Hg.
  split; [exact Hg|].
  destruct (reachable_bpm_ok s Hs) as [Hlt Hge].
  assert (Hq : 0 <= 60000 `div` (min_beat_interval s + 1))
    by (apply Z.div_pos; lia).
  destruct (decide (length (beat_intervals s) < 2)%nat) as [Hshort|Hlong].
  - rewrite (Hlt Hshort). lia.
  - specialize (Hge ltac:(lia)).
    pose proof (py_sum_lower _ _ Hg) as Hsum.
    assert (Hlen : 2 <= len (beat_intervals s)) by (unfold len; lia).
    rewrite average_bpm_pos in Hge.
    + injection Hge as <-. split; [apply Z.div_pos; nia|].
      etransitivity.
      * apply Z.div_le_compat_l with (q := len (beat_intervals s)
                                           * (min_beat_interval s + 1));
          nia.
      * rewrite (Z.mul_comm 60000), Z.div_mul_cancel_l by lia. lia.
    + intros E. rewrite E in Hlen. unfold len in Hlen. simpl in Hlen. lia.
    + nia.
Qed.

(** The third beat of the pulse train: the first non-zero BPM. *)
Lemma bpm_bounded_by_refractory_witness :
  exists s',
    detect_beat 60000 2680 bpm_sensor = OK (true, 60000, 42000, 86, s')
    /\ current_bpm s' = 86
    /\ 0 <= current_bpm s' <= 199.
Proof.
  assert (Hd : exists s',
             detect_beat 60000 2680 bpm_sensor
             = OK (true, 60000, 42000, 86, s'))
    by (eexists; vm_compute; reflexivity).
  destruct Hd as [s' Hd]. exists s'. split; [exact Hd|].
  pose proof (detect_beat_frame _ _ _ _ _ _ _ _ Hd) as (Hm & _ & Hbpm).
  split; [symmetry; exact Hbpm|].
  destruct (bpm_bounded_by_refractory s') as [_ Hbound].
  - apply (reach_detect _ _ _ _ _ _ _ _ bpm_sensor_reachable Hd).
  - rewrite Hm. simpl. lia.
  - rewrite Hm in Hbound. exact Hbound.
Defined.

(** ** Between two beats the signal has fallen below the hysteresis floor *)

(** Where the latch is set before one call and clear before a later one, a
    call in between reported no beat and found the filtered value below
    [threshold * 0.9]. *)
Lemma run_latch_falls inputs s ticks :
  run inputs s = OK ticks ->
  forall a b, (a <= b <= length ticks)%nat ->
    beat_detected (state_before s ticks a) = true ->
    beat_detected (state_before s ticks b) = false ->
    exists k t, (a <= k < b)%nat /\ ticks !! k = Some t
      /\ tick_beat t = false
      /\ 10 * tick_filtered t < 9 * threshold (tick_state t).
Proof.
  intros Hrun a b [Hab Hb]. induction Hab as [|b Hab IH]; intros Ha Hclear.
  - congruence.
  - destruct (lookup_lt_is_Some_2 ticks b ltac:(lia)) as [t Ht].
    destruct (beat_detected (state_before s ticks b)) eqn:Hprev.
    + exists b, t. split; [lia|]. split; [exact Ht|].
      destruct (run_step _ _ _ _ _ Hrun Ht) as (raw & _ & Hd).
      rewrite (state_before_S _ _ _ _ Ht) in Hclear.
      destruct (detect_beat_armed _ _ _ _ _ _ _ _ Hprev Hd)
        as (Hbeat & _ & _ & _ & Hlatch).
      split; [exact Hbeat|].
      destruct (decide (10 * tick_filtered t < 9 * threshold (tick_state t)))
        as [Hlt|Hge]; [exact Hlt|].
      assert (beat_detected (tick_state t) = true) by (apply Hlatch; lia).
      congruence.
    + destruct (IH ltac:(lia) Ha eq_refl) as (k & tk & Hk & Htk & Hrest).
      exists k, tk. split; [lia|]. auto.
Qed.

(** One physical pulse gives one beat: between any two calls that report a
    beat there is a call that reports none and whose filtered value is below
    the hysteresis floor [threshold * 0.9]; in particular two successive
    calls never both report a beat. *)
Theorem beats_separated_by_a_dip (inputs : list (Z * Z)) (s : PulseSensor) :
  wf s ->
  exists ticks,
    run inputs s = OK ticks
    /\ forall i j ti tj, (i < j)%nat ->
         ticks !! i = Some ti -> ticks !! j = Some tj ->
         tick_beat ti = true -> tick_beat tj = true ->
         exists k tk, (i < k < j)%nat /\ ticks !! k = Some tk
           /\ tick_beat tk = false
           /\ 10 * tick_filtered tk < 9 * threshold (tick_state tk).
Proof.
  intros Hwf. destruct (run_total inputs s Hwf) as (ticks & Hrun & _ & _).
  exists ticks. split; [exact Hrun|].
  intros i j ti tj Hij Hi Hj Hbi Hbj.
  destruct (run_step _ _ _ _ _ Hrun Hi) as (rawi & _ & Hdi).
  destruct (run_step _ _ _ _ _ Hrun Hj) as (rawj & _ & Hdj).
  apply detect_beat_gate in Hdi, Hdj. rewrite Hbi in Hdi. rewrite Hbj in Hdj.
  destruct Hdi as (_ & _ & _ & _ & Hset).
  destruct Hdj as (_ & Hclear & _).
  rewrite <- (state_before_S s _ _ _ Hi) in Hset.
  pose proof (lookup_lt_Some _ _ _ Hj) as Hlen.
  destruct (run_latch_falls _ _ _ Hrun (S i) j ltac:(lia) Hset Hclear)
    as (k & tk & Hk & Htk & Hrest).
  exists k, tk. split; [lia|]. auto.
Qed.

(** The square wave of period 280 ms: between the beats at 1140 ms and at
    1500 ms the filtered value 18000 is below 0.9 * 25200. *)
Lemma beats_separated_by_a_dip_witness :
  exists ticks ti tj,
    run chatter_inputs default_sensor = OK ticks
    /\ ticks !! 7%nat = Some ti /\ tick_beat ti = true
    /\ ticks !! 25%nat = Some tj /\ tick_beat tj = true
    /\ exists k tk, (7 < k < 25)%nat /\ ticks !! k = Some tk
         /\ tick_beat tk = false
         /\ 10 * tick_filtered tk < 9 * threshold (tick_state tk).
Proof.
  destruct (beats_separated_by_a_dip chatter_inputs default_sensor)
    as (ticks & Hrun & Hdip).
  - concrete_wf.
  - assert (Hticks : exists ti tj,
              ticks !! 7%nat = Some ti /\ tick_beat ti = true
              /\ ticks !! 25%nat = Some tj /\ tick_beat tj = true).
    { vm_compute in Hrun. injection Hrun as <-.
      do 2 eexists. repeat split; reflexivity. }
    destruct Hticks as (ti & tj & Hi & Hbi & Hj & Hbj).
    exists ticks, ti, tj. split; [exact Hrun|].
    repeat (split; [assumption|]).
    apply (Hdip 7%nat 25%nat ti tj); [lia|assumption..].
Defined.

(** ** The BPM changes only with a beat *)

(** A call that reports no beat leaves the BPM, the interval window and the
    time of the last beat as they were; over a run without a beat, however
    long, the BPM returned is the one from before the run. *)
Theorem bpm_changes_only_with_a_beat
    (inputs : list (Z * Z)) (s : PulseSensor) :
  wf s ->
  exists ticks,
    run inputs s = OK ticks
    /\ (forall i t, ticks !! i = Some t -> tick_beat t = false ->
          tick_bpm t = current_bpm (state_before s ticks i)
          /\ beat_intervals (tick_state t)
             = beat_intervals (state_before s ticks i)
          /\ last_beat_time (tick_state t)
             = last_beat_time (state_before s ticks i))
    /\ (Forall (fun t => tick_beat t = false) ticks ->
        Forall (fun t =>
                  tick_bpm t = current_bpm s
                  /\ beat_intervals (tick_state t) = beat_intervals s
                  /\ last_beat_time (tick_state t) = last_beat_time s) ticks).
Proof.
  intros Hwf. destruct (run_total inputs s Hwf) as (ticks & Hrun & _ & _).
  exists ticks. split; [exact Hrun|].
  assert (Hone : forall i t, ticks !! i = Some t -> tick_beat t = false ->
            tick_bpm t = current_bpm (state_before s ticks i)
            /\ current_bpm (tick_state t)
               = current_bpm (state_before s ticks i)
            /\ beat_intervals (tick_state t)
               = beat_intervals (state_before s ticks i)
            /\ last_beat_time (tick_state t)
               = last_beat_time (state_before s ticks i)).
  { intros i t Ht Hb.
    destruct (run_step _ _ _ _ _ Hrun Ht) as (raw & _ & Hd).
    pose proof (detect_beat_frame _ _ _ _ _ _ _ _ Hd) as (_ & _ & Hbpm).
    apply detect_beat_gate in Hd. rewrite Hb in Hd.
    destruct Hd as (Hl & Hiv & Hcur & _). rewrite Hbpm. auto. }
  split; [intros i t Ht Hb; destruct (Hone i t Ht Hb) as (? & _ & ? & ?); auto|].
  intros Hquiet.
  assert (Hall : forall i, (i <= length ticks)%nat ->
            current_bpm (state_before s ticks i) = current_bpm s
            /\ beat_intervals (state_before s ticks i) = beat_intervals s
            /\ last_beat_time (state_before s ticks i) = last_beat_time s).
  { induction i as [|i IH]; intros Hi; [auto|].
    destruct (lookup_lt_is_Some_2 ticks i ltac:(lia)) as [t Ht].
    pose proof (proj1 (Forall_lookup _ _) Hquiet i t Ht) as Hb.
    destruct (Hone i t Ht Hb) as (_ & H1 & H2 & H3).
    destruct (IH ltac:(lia)) as (I1 & I2 & I3).
    rewrite (state_before_S _ _ _ _ Ht). repeat split; congruence. }
  apply Forall_lookup. intros i t Ht.
  pose proof (proj1 (Forall_lookup _ _) Hquiet i t Ht) as Hb.
  destruct (Hone i t Ht Hb) as (H0 & _ & H2 & H3).
  pose proof (lookup_lt_Some _ _ _ Ht) as Hlt.
  destruct (Hall i ltac:(lia)) as (I1 & I2 & I3).
  repeat split; congruence.
Qed.

(** After the pulse train has stopped, the BPM of 86 persists. *)
Lemma bpm_changes_only_with_a_beat_witness :
  exists s0 ticks,
    detect_beat 60000 2680 bpm_sensor = OK (true, 60000, 42000, 86, s0)
    /\ run silence_inputs s0 = OK ticks
    /\ length ticks = 40%nat
    /\ Forall (fun t => tick_beat t = false /\ tick_bpm t = 86) ticks.
Proof.
  assert (Hd : exists s0,
             detect_beat 60000 2680 bpm_sensor
             = OK (true, 60000, 42000, 86, s0)
             /\ wf s0 /\ current_bpm s0 = 86).
  { eexists. split; [vm_compute; reflexivity|]. split; [concrete_wf|].
    reflexivity. }
  destruct Hd as (s0 & Hd & Hwf & Hbpm).
  destruct (bpm_changes_only_with_a_beat silence_inputs s0 Hwf)
    as (ticks & Hrun & _ & Hstale).
  exists s0, ticks. split; [exact Hd|]. split; [exact Hrun|].
  assert (Hquiet : length ticks = 40%nat
                   /\ Forall (fun t => tick_beat t = false) ticks).
  { pose proof Hd as Hd'. vm_compute in Hd'. injection Hd' as <-.
    vm_compute in Hrun. injection Hrun as <-.
    split; [reflexivity|]. repeat constructor. }
  destruct Hquiet as [Hlen Hquiet]. split; [exact Hlen|].
  specialize (Hstale Hquiet).
  apply Forall_lookup. intros i t Ht.
  pose proof (proj1 (Forall_lookup _ _) Hquiet i t Ht) as Hb.
  pose proof (proj1 (Forall_lookup _ _) Hstale i t Ht) as (H0 & _).
  split; [exact Hb|congruence].
Defined.

(** ** No BPM before the third beat *)

Lemma calculate_bpm_length now s s3 :
  calculate_bpm now s = OK s3 ->
  (length (beat_intervals s3)
   <= length (beat_intervals s)
      + (if decide (last_beat_time s > 0)%Z then 1 else 0))%nat.
Proof.
  unfold calculate_bpm.
  destruct (decide (last_beat_time s > 0)); [|intros [= <-]; lia].
  simpl.
  set (l := beat_intervals s ++ [ticks_diff now (last_beat_time s)]).
  assert (Hl : length l = S (length (beat_intervals s)))
    by (subst l; rewrite length_app; simpl; lia).
  clearbody l.
  set (s1 := if decide (len l > max_intervals s) then _ else _).
  assert (H1 : (length (beat_intervals s1) <= length l)%nat).
  { subst s1. case_decide; simpl; rewrite ?length_drop; lia. }
  clearbody s1.
  case_decide; intros Hc; [inv_bind Hc|]; injection Hc as <-; simpl; lia.
Qed.

(** One call advances [beat_progress] by at most one, and only with a
    beat; an interval in the window implies a beat seen before. *)
Lemma detect_beat_progress raw now s b r f bpm s' :
  wf s ->
  (beat_intervals s <> [] -> last_beat_time s > 0) ->
  detect_beat raw now s = OK (b, r, f, bpm, s') ->
  (beat_intervals s' <> [] -> last_beat_time s' > 0)
  /\ (beat_progress s' <= beat_progress s + (if b then 1 else 0))%nat.
Proof.
  intros Hwf Hseen Hd. unfold beat_progress.
  pose proof (detect_beat_gate _ _ _ _ _ _ _ _ Hd) as Hgate.
  apply detect_beat_decision in Hd as (s2 & (Hiv & _ & Hl & _ & _) & Hd).
  destruct b.
  - destruct Hgate as (Hgap & _ & _ & Hnow & _).
    destruct Hd as (_ & s3 & Hc & Hs' & _).
    pose proof (calculate_bpm_length _ _ _ Hc) as Hlen. simpl in Hlen.
    rewrite Hiv, Hl in Hlen.
    assert (Hiv' : beat_intervals s' = beat_intervals s3)
      by (subst s'; reflexivity).
    pose proof (wf_min_interval s Hwf). pose proof (wf_last_beat s Hwf).
    unfold ticks_diff in Hgap. rewrite Hiv', Hnow. split; [lia|].
    rewrite decide_True by lia.
    destruct (decide (last_beat_time s > 0)) as [Hpos|Hzero]; [lia|].
    destruct (beat_intervals s) as [|x l] eqn:E; [simpl in *; lia|].
    exfalso. apply Hzero, Hseen. discriminate.
  - destruct Hgate as (-> & -> & _). split; [exact Hseen|]. lia.
Qed.

Lemma no_bpm_below_three inputs : forall s ticks (n : nat),
  wf s -> bpm_ok s ->
  (beat_intervals s <> [] -> last_beat_time s > 0) ->
  (beat_progress s <= n)%nat ->
  run inputs s = OK ticks ->
  forall i t, ticks !! i = Some t ->
    (n + length (beat_times (take (S i) ticks)) < 3)%nat ->
    tick_bpm t = 0.
Proof.
  induction inputs as [|[raw now] inputs IH];
    intros s ticks n Hwf Hok Hseen Hprog Hrun i t Hi Hcount.
  - injection Hrun as <-. discriminate.
  - apply run_cons_inv in Hrun
      as (b & r & f & bpm & s' & rest & Hd & Hrest & ->).
    pose proof (detect_beat_wf _ _ _ _ _ _ _ _ Hwf Hd) as Hwf'.
    pose proof (detect_beat_bpm_ok _ _ _ _ _ _ _ _ Hok Hd) as Hok'.
    pose proof (detect_beat_frame _ _ _ _ _ _ _ _ Hd) as (_ & _ & Hbpm).
    destruct (detect_beat_progress _ _ _ _ _ _ _ _ Hwf Hseen Hd)
      as (Hseen' & Hprog').
    rewrite firstn_cons, beat_times_cons in Hcount. simpl in Hcount.
    destruct i as [|i]; simpl in Hi.
    + injection Hi as <-. simpl. rewrite Hbpm.
      apply (proj1 Hok'). rewrite take_0 in Hcount.
      unfold beat_progress in *.
      destruct (decide (last_beat_time s' > 0)) as [Hpos|Hzero].
      * destruct b; simpl in Hcount; lia.
      * destruct (beat_intervals s') as [|x l]; [simpl; lia|].
        exfalso. apply Hzero, Hseen'. discriminate.
    + apply (IH s' rest (n + (if b then 1 else 0))%nat Hwf' Hok' Hseen'
               ltac:(lia) Hrest i t Hi).
      destruct b; simpl in Hcount; lia.
Qed.

(** Counted from a state without any beat yet (no interval in the window,
    [last_beat_time] 0, BPM 0: the state after construction and after the
    start-up calibration), every call up to and including the second beat
    returns a BPM of 0: the first beat records no interval and the BPM
    needs two. *)
Theorem no_bpm_before_third_beat (inputs : list (Z * Z)) (s : PulseSensor) :
  wf s ->
  beat_intervals s = [] ->
  last_beat_time s = 0 ->
  current_bpm s = 0 ->
  exists ticks,
    run inputs s = OK ticks
    /\ forall i t, ticks !! i = Some t ->
         (length (beat_times (take (S i) ticks)) < 3)%nat ->
         tick_bpm t = 0.
Proof.
  intros Hwf Hiv Hl Hbpm.
  destruct (run_total inputs s Hwf) as (ticks & Hrun & _ & _).
  exists ticks. split; [exact Hrun|]. intros i t Hi Hcount.
  apply (no_bpm_below_three inputs s ticks 0 Hwf) with (i := i);
    [| | |exact Hrun|exact Hi|exact Hcount].
  - split; [intros _; exact Hbpm|]. rewrite Hiv. simpl. lia.
  - rewrite Hiv. congruence.
  - unfold beat_progress. rewrite Hiv, Hl. simpl. lia.
Qed.

Lemma beat_times_take_le (ticks : list tick) (a b : nat) :
  (a <= b)%nat ->
  (length (beat_times (take a ticks)) <= length (beat_times (take b ticks)))%nat.
Proof.
  revert a b. induction ticks as [|t ticks IH]; intros a b Hab.
  - rewrite !take_nil. lia.
  - destruct a as [|a]; [simpl; lia|].
    destruct b as [|b]; [lia|].
    rewrite !firstn_cons, !beat_times_cons.
    specialize (IH a b ltac:(lia)).
    destruct (tick_beat t); simpl; lia.
Qed.

(** The pulse train after a calibration: the second beat is the call at
    2080 ms (index 36), every call before the third beat returns 0, and the
    third beat, at 2680 ms, returns 95. *)
Lemma no_bpm_before_third_beat_witness :
  exists ticks,
    run pulse_inputs (calibrate alternating_readings default_sensor)
    = OK ticks
    /\ take 3 (beat_times ticks) = [1420; 2080; 2680]
    /\ Forall (fun t => tick_bpm t = 0) (take 56 ticks)
    /\ tick_bpm <$> ticks !! 56%nat = Some 95.
Proof.
  destruct (no_bpm_before_third_beat pulse_inputs
              (calibrate alternating_readings default_sensor))
    as (ticks & Hrun & Hzero); [concrete_wf|reflexivity..|].
  exists ticks.
  assert (Hticks : take 3 (beat_times ticks) = [1420; 2080; 2680]
                   /\ tick_bpm <$> ticks !! 56%nat = Some 95
                   /\ length (beat_times (take 56 ticks)) = 2%nat).
  { vm_compute in Hrun. injection Hrun as <-.
    split; [vm_compute; reflexivity|]. split; [reflexivity|].
    vm_compute. reflexivity. }
  destruct Hticks as (Hbeats & Hthird & Hfew).
  split; [exact Hrun|]. split; [exact Hbeats|]. split; [|exact Hthird].
  apply Forall_lookup. intros i t Ht.
  pose proof (lookup_lt_Some _ _ _ Ht) as Hlt.
  rewrite length_take in Hlt.
  rewrite lookup_take_lt in Ht by lia.
  apply (Hzero i t Ht).
  pose proof (beat_times_take_le ticks (S i) 56 ltac:(lia)). lia.
Defined.

(** * The music player *)

Lemma io_bind_returns {A B} (t : list effect) (a : A) (k : A -> io B) :
  io_bind (t, Returns a) k = (t ++ (k a).1, (k a).2).
Proof. simpl. destruct (k a). reflexivity. Qed.

Lemma play_tone_eq (frequency duration_ms : Z) :
  play_tone frequency duration_ms
  = ((if decide (frequency > 0)
      then [buzzer_freq frequency; buzzer_duty_u16 32767;
            sleep_ms duration_ms]
      else [])
     ++ [buzzer_duty_u16 0], Returns tt).
Proof. unfold play_tone. case_decide; reflexivity. Qed.

Lemma duty_after_app d t1 t2 :
  duty_after d (t1 ++ t2) = duty_after (duty_after d t1) t2.
Proof. unfold duty_after. apply fold_left_app. Qed.

Lemma time_slept_from t ms :
  fold_left (fun ms e => match e with sleep_ms d => ms + d | _ => ms end) t ms
  = ms + time_slept t.
Proof.
  unfold time_slept. revert ms.
  induction t as [|e t IH]; intros ms; simpl; [lia|].
  rewrite IH, (IH (match e with sleep_ms d => 0 + d | _ => 0 end)).
  destruct e; lia.
Qed.

Lemma time_slept_app t1 t2 :
  time_slept (t1 ++ t2) = time_slept t1 + time_slept t2.
Proof.
  unfold time_slept at 1. rewrite fold_left_app.
  fold (time_slept t1). apply time_slept_from.
Qed.

(** ** [set_mode_by_bpm] *)

(** The mode follows the last BPM only: below 60 the beat tone lasts 200,
    above 100 it lasts 100, from 60 to 100 (both included) 150; a mode
    change overrides the one before, never lengthens the tone for a faster
    heart, and leaves the melody index and the note table alone. *)
Theorem set_mode_by_bpm_modes (bpm1 bpm2 : Z) (p : MusicPlayer) :
  set_mode_by_bpm bpm2 (set_mode_by_bpm bpm1 p) = set_mode_by_bpm bpm2 p
  /\ beat_tone_duration (set_mode_by_bpm bpm1 p)
     = (if decide (bpm1 < 60) then 200
        else if decide (bpm1 <= 100) then 150 else 100)
  /\ current_melody (set_mode_by_bpm bpm1 p)
     = (if decide (bpm1 < 60) then calm_melody p
        else if decide (bpm1 <= 100) then normal_melody p
        else fast_melody p)
  /\ (bpm1 <= bpm2 ->
      beat_tone_duration (set_mode_by_bpm bpm2 p)
      <= beat_tone_duration (set_mode_by_bpm bpm1 p))
  /\ melody_index (set_mode_by_bpm bpm1 p) = melody_index p
  /\ notes (set_mode_by_bpm bpm1 p) = notes p.
Proof.
  unfold set_mode_by_bpm.
  repeat split; repeat case_decide; simpl; try reflexivity; try lia.
Qed.

Lemma set_mode_by_bpm_modes_witness :
  beat_tone_duration (set_mode_by_bpm 120 new_player)
  <= beat_tone_duration (set_mode_by_bpm 55 new_player)
  /\ current_melody (set_mode_by_bpm 0 new_player) = calm_melody new_player.
Proof.
  destruct (set_mode_by_bpm_modes 55 120 new_player)
    as (_ & _ & _ & Hmono & _).
  destruct (set_mode_by_bpm_modes 0 0 new_player) as (_ & _ & Hmel & _).
  split; [apply Hmono; lia|exact Hmel].
Defined.

(** ** [play_beat_sound] *)

Lemma play_beat_sound_eq (bpm : Z) :
  let f1 := Z.max 200 (Z.min 800 (200 + 8 * (bpm - 50))) in
  let f2 := (6 * f1) `div` 5 in
  play_beat_sound bpm
  = ([buzzer_freq f1; buzzer_duty_u16 32767; sleep_ms 50; buzzer_duty_u16 0;
      sleep_ms 20;
      buzzer_freq f2; buzzer_duty_u16 32767; sleep_ms 30; buzzer_duty_u16 0],
     Returns tt).
Proof.
  intros f1 f2.
  assert (Hf1 : 200 <= f1 <= 800) by (subst f1; lia).
  assert (Hf2 : 240 <= f2).
  { subst f2. apply Z.div_le_lower_bound; lia. }
  unfold play_beat_sound.
  replace (200 + (bpm - 50) * 8) with (200 + 8 * (bpm - 50)) by lia.
  fold f1.
  assert (Hint : int (inject_Z f1 * (12 # 10)) = f2).
  { unfold int. simpl. rewrite Z.quot_div_nonneg by lia.
    subst f2.
    replace (f1 * 12) with (2 * (6 * f1)) by lia.
    change (Z.pos (1 * 10)) with (2 * 5). apply Z.div_mul_cancel_l; lia. }
  rewrite Hint, !play_tone_eq.
  rewrite !decide_True by lia. reflexivity.
Qed.

(** For every BPM the beat sound is two tones, the first at
    [200 + 8 * (bpm - 50)] Hz clamped to 200..800, the second a fifth of it
    higher (240..960 Hz), lasting 50 and 30 ms with 20 ms between; the call
    returns after 100 ms of sleeping with the buzzer off, and a higher BPM
    never gives a lower tone. *)
Theorem play_beat_sound_chirp (bpm : Z) :
  let f1 := Z.max 200 (Z.min 800 (200 + 8 * (bpm - 50))) in
  let f2 := (6 * f1) `div` 5 in
  play_beat_sound bpm
  = ([buzzer_freq f1; buzzer_duty_u16 32767; sleep_ms 50; buzzer_duty_u16 0;
      sleep_ms 20;
      buzzer_freq f2; buzzer_duty_u16 32767; sleep_ms 30; buzzer_duty_u16 0],
     Returns tt)
  /\ 200 <= f1 <= 800
  /\ 240 <= f2 <= 960
  /\ time_slept (trace (play_beat_sound bpm)) = 100
  /\ duty_after 32767 (trace (play_beat_sound bpm)) = 0
  /\ (forall bpm', bpm <= bpm' ->
        f1 <= Z.max 200 (Z.min 800 (200 + 8 * (bpm' - 50)))).
Proof.
  intros f1 f2.
  assert (Hf1 : 200 <= f1 <= 800) by (subst f1; lia).
  assert (Hf2 : 240 <= f2 <= 960).
  { subst f2. split.
    - apply Z.div_le_lower_bound; lia.
    - apply Z.div_le_upper_bound; lia. }
  pose proof (play_beat_sound_eq bpm) as Heq. simpl in Heq. fold f1 f2 in Heq.
  split; [exact Heq|]. split; [exact Hf1|]. split; [exact Hf2|].
  split; [rewrite Heq; reflexivity|].
  split; [rewrite Heq; reflexivity|].
  intros bpm' Hle. subst f1. lia.
Qed.

Lemma play_beat_sound_chirp_witness :
  frequencies (trace (play_beat_sound 70)) = [360; 432]
  /\ frequencies (trace (play_beat_sound 0)) = [200; 240]
  /\ frequencies (trace (play_beat_sound 199)) = [800; 960].
Proof.
  destruct (play_beat_sound_chirp 70) as (H70 & _).
  destruct (play_beat_sound_chirp 0) as (H0 & _).
  destruct (play_beat_sound_chirp 199) as (H199 & _).
  rewrite H70, H0, H199. repeat split; reflexivity.
Defined.

(** ** [play_melody_note] *)

Lemma set_melody_index_same p : set_melody_index (melody_index p) p = p.
Proof. destruct p. reflexivity. Qed.

Lemma note_ahead_0 p name freq :
  melody_ok p ->
  current_melody p !! Z.to_nat (melody_index p) = Some name ->
  notes p !! name = Some freq ->
  note_ahead p 0 = freq.
Proof.
  intros [_ Hix] Hname Hfreq. unfold note_ahead.
  rewrite Z.add_0_r, Z.mod_small by lia.
  rewrite Hname. simpl. rewrite Hfreq. reflexivity.
Qed.

(** One call with the index inside the melody. *)
Lemma play_melody_note_ok pitch bpm p :
  melody_ok p ->
  play_melody_note pitch bpm p
  = (trace (play_tone (pitch (note_ahead p 0) bpm) (melody_note_duration p)),
     Returns
       (set_melody_index
          ((melody_index p + 1) `mod` Z.of_nat (length (current_melody p)))
          p)).
Proof.
  intros Hok. pose proof Hok as [Hall Hix].
  destruct (lookup_lt_is_Some_2 (current_melody p)
              (Z.to_nat (melody_index p)) ltac:(lia)) as [name Hname].
  destruct (proj1 (Forall_lookup _ _) Hall _ _ Hname) as [freq Hfreq].
  rewrite (note_ahead_0 p name freq Hok Hname Hfreq).
  unfold play_melody_note, list_getitem, dict_getitem.
  rewrite decide_False by lia. rewrite decide_True by lia.
  rewrite Hname. simpl. rewrite Hfreq. simpl.
  rewrite play_tone_eq. simpl. rewrite app_nil_r. reflexivity.
Qed.

Lemma melody_ok_step p :
  melody_ok p ->
  melody_ok
    (set_melody_index
       ((melody_index p + 1) `mod` Z.of_nat (length (current_melody p))) p).
Proof.
  intros [Hall Hix]. split; simpl; [exact Hall|].
  apply Z.mod_pos_bound. lia.
Qed.

Lemma note_ahead_step p k :
  melody_ok p ->
  note_ahead
    (set_melody_index
       ((melody_index p + 1) `mod` Z.of_nat (length (current_melody p))) p) k
  = note_ahead p (S k).
Proof.
  intros [_ Hix]. unfold note_ahead. simpl.
  rewrite Z.add_mod_idemp_l by lia.
  replace (melody_index p + 1 + Z.of_nat k)
    with (melody_index p + Z.of_nat (S k)) by lia.
  reflexivity.
Qed.

(** With the index inside the current melody and its notes in the table,
    any number of [play_melody_note] calls return; call number [k] plays
    the note [k] places after the index, wrapping around at the end of the
    melody, and afterwards the index has advanced by the number of calls
    modulo the length of the melody, so a whole number of rounds brings it
    back. *)
Theorem melody_notes_cycle
    (pitch : Z -> Z -> Z) (bpms : list Z) (p : MusicPlayer) :
  melody_ok p ->
  let n := Z.of_nat (length (current_melody p)) in
  let p' := set_melody_index ((melody_index p + Z.of_nat (length bpms))
                              `mod` n) p in
  play_melody_notes pitch bpms p
  = (concat
       (imap (fun k bpm =>
                trace (play_tone (pitch (note_ahead p k) bpm)
                         (melody_note_duration p))) bpms),
     Returns p')
  /\ melody_ok p'
  /\ (Z.of_nat (length bpms) `mod` n = 0 -> p' = p).
Proof.
  intros Hok n p'. subst n p'. split; [|split].
  - revert p Hok. induction bpms as [|bpm bpms IH]; intros p Hok.
    + simpl. pose proof Hok as [_ Hix].
      rewrite Z.add_0_r, Z.mod_small by lia.
      rewrite set_melody_index_same. reflexivity.
    + simpl play_melody_notes.
      rewrite (play_melody_note_ok pitch bpm p Hok).
      unfold mbind, io_mbind. rewrite io_bind_returns.
      rewrite (IH _ (melody_ok_step p Hok)), imap_cons.
      cbn [fst snd concat]. f_equal.
      * f_equal. f_equal. apply imap_ext. intros k b _. simpl.
        rewrite (note_ahead_step p k Hok). reflexivity.
      * f_equal. destruct p as [nt cm nm fm cur ix bd md ls].
        destruct Hok as [_ Hix]. simpl in *. unfold set_melody_index. simpl.
        f_equal. rewrite Z.add_mod_idemp_l by lia. f_equal. lia.
  - destruct Hok as [Hall Hix]. split; simpl; [exact Hall|].
    apply Z.mod_pos_bound. lia.
  - intros Hround. destruct Hok as [_ Hix].
    rewrite <- Z.add_mod_idemp_r, Hround, Z.add_0_r, Z.mod_small by lia.
    apply set_melody_index_same.
Qed.

(** Nine notes of the normal melody: the ninth starts the scale again. *)
Lemma melody_notes_cycle_witness :
  exists t p',
    play_melody_notes exact_pitch (replicate 9 70) new_player
    = (t, Returns p')
    /\ frequencies t = [262; 294; 330; 349; 392; 440; 494; 523; 262]
    /\ melody_index p' = 1.
Proof.
  destruct (melody_notes_cycle exact_pitch (replicate 9 70) new_player)
    as (Hrun & _).
  - split; [|simpl; lia].
    repeat constructor; vm_compute; eauto.
  - do 2 eexists. split; [exact Hrun|]. split; reflexivity.
Defined.

(** [set_mode_by_bpm] keeps the melody index.  When the mode changes to a
    shorter melody while the index points beyond its end, the next
    [play_melody_note] raises [IndexError] before making any sound. *)
Theorem melody_index_outlives_mode_change
    (pitch : Z -> Z -> Z) (bpm bpm' : Z) (p : MusicPlayer) :
  let p' := set_mode_by_bpm bpm p in
  current_melody p' <> [] ->
  Z.of_nat (length (current_melody p')) <= melody_index p ->
  melody_index p' = melody_index p
  /\ play_melody_note pitch bpm' p' = ([], Raises (Exn IndexError)).
Proof.
  intros p' Hne Hbeyond.
  assert (Hix : melody_index p' = melody_index p)
    by (subst p'; unfold set_mode_by_bpm; repeat case_decide; reflexivity).
  split; [exact Hix|].
  unfold play_melody_note, list_getitem. rewrite Hix.
  assert (Hlen : Z.of_nat (length (current_melody p')) <> 0).
  { destruct (current_melody p'); [congruence|]. simpl. lia. }
  rewrite !decide_False by lia. reflexivity.
Qed.

(** Five notes of the normal melody, then the BPM falls to 50: the calm
    melody has four notes and the index is 5. *)
Lemma melody_index_outlives_mode_change_witness :
  exists t p5,
    play_melody_notes exact_pitch (replicate 5 70) new_player
    = (t, Returns p5)
    /\ melody_index p5 = 5
    /\ play_melody_note exact_pitch 50 (set_mode_by_bpm 50 p5)
       = ([], Raises (Exn IndexError)).
Proof.
  assert (Hrun : exists t p5,
             play_melody_notes exact_pitch (replicate 5 70) new_player
             = (t, Returns p5)
             /\ melody_index p5 = 5
             /\ current_melody (set_mode_by_bpm 50 p5)
                = ["C4"; "E4"; "G4"; "C5"]%string).
  { do 2 eexists. split; [vm_compute; reflexivity|]. split; reflexivity. }
  destruct Hrun as (t & p5 & Hrun & Hix & Hcalm).
  exists t, p5. split; [exact Hrun|]. split; [exact Hix|].
  apply (melody_index_outlives_mode_change exact_pitch 50 50 p5).
  - rewrite Hcalm. discriminate.
  - rewrite Hcalm, Hix. simpl. lia.
Defined.

(** ** The buzzer is never left sounding *)

Lemma trace_bind {A B} (m : io A) (k : A -> io B) :
  trace (io_bind m k)
  = trace m ++ match m.2 with
               | Returns a => trace (k a)
               | Raises _ => []
               end.
Proof.
  destruct m as [t [a|e]]; simpl; [|rewrite app_nil_r; reflexivity].
  unfold trace. destruct (k a). reflexivity.
Qed.

Lemma list_getitem_trace {A} (l : list A) (i : Z) :
  (list_getitem l i).1 = [].
Proof.
  unfold list_getitem.
  repeat case_decide; try reflexivity; destruct (l !! _); reflexivity.
Qed.

Lemma play_tone_silent f d d0 : duty_after d0 (trace (play_tone f d)) = 0.
Proof.
  rewrite play_tone_eq. unfold trace. simpl.
  rewrite duty_after_app. reflexivity.
Qed.

Lemma play_notes_silent table names :
  duty_after 0 (trace (play_notes table names)) = 0.
Proof.
  induction names as [|name names IH]; [reflexivity|].
  simpl. unfold mbind, io_mbind, dict_getitem.
  destruct (table !! name) as [freq|]; simpl; [|reflexivity].
  rewrite play_tone_eq. simpl.
  destruct (play_notes table names) as [t r]. unfold trace in *. simpl in *.
  rewrite !duty_after_app. simpl. exact IH.
Qed.

(** Every sound routine leaves the buzzer with duty 0: [play_tone],
    [play_beat_sound] and [play_calibration_sound] whatever the duty
    before; [play_startup_sound], [play_melody_note] and
    [play_ambient_rhythm] from a silent buzzer, for any note table, melody
    and index, also when they raise. *)
Theorem buzzer_left_silent :
  (forall f d d0, duty_after d0 (trace (play_tone f d)) = 0)
  /\ (forall bpm d0, duty_after d0 (trace (play_beat_sound bpm)) = 0)
  /\ (forall d0, duty_after d0 (trace play_calibration_sound) = 0)
  /\ (forall p, duty_after 0 (trace (play_startup_sound p)) = 0)
  /\ (forall pitch bpm p,
        duty_after 0 (trace (play_melody_note pitch bpm p)) = 0)
  /\ (forall bpm now p,
        duty_after 0 (trace (play_ambient_rhythm bpm now p)) = 0).
Proof.
  split; [exact play_tone_silent|].
  split.
  { intros bpm d0. rewrite (play_beat_sound_eq bpm). reflexivity. }
  split.
  { intros d0. vm_compute. reflexivity. }
  split; [intros p; apply play_notes_silent|].
  split.
  - intros pitch bpm p. unfold play_melody_note.
    case_decide; [reflexivity|].
    unfold mbind, io_mbind. rewrite trace_bind.
    pose proof (list_getitem_trace (current_melody p) (melody_index p))
      as Hget.
    destruct (list_getitem (current_melody p) (melody_index p))
      as [t [name|e]]; simpl in Hget; subst t; [|reflexivity].
    simpl. rewrite trace_bind.
    unfold dict_getitem. destruct (notes p !! name); simpl; [|reflexivity].
    rewrite trace_bind, duty_after_app, play_tone_silent.
    destruct (play_tone _ _).2; reflexivity.
  - intros bpm now p. unfold play_ambient_rhythm.
    case_decide; reflexivity.
Qed.

(** * The display *)

Lemma normalized_range v : 0 <= normalized v <= 31.
Proof. unfold normalized. lia. Qed.

Lemma normalized_nonneg v :
  0 <= v -> normalized v = Z.min 31 (v `div` 2048).
Proof.
  intros Hv. unfold normalized, int, Qdiv, Qmult, Qinv, inject_Z. simpl.
  change (Z.pos (1 * 2048)) with 2048. rewrite Z.mul_1_r.
  rewrite Z.quot_div_nonneg by lia.
  assert (0 <= v `div` 2048) by (apply Z.div_pos; lia). lia.
Qed.

Lemma normalized_u16 v : u16 v -> normalized v = v `div` 2048.
Proof.
  intros [Hlo Hhi]. rewrite normalized_nonneg by exact Hlo.
  assert (v `div` 2048 < 32) by (apply Z.div_lt_upper_bound; lia). lia.
Qed.

Lemma normalized_negative v : v <= 0 -> normalized v = 0.
Proof.
  intros Hv. unfold normalized, int, Qdiv, Qmult, Qinv, inject_Z. simpl.
  change (Z.pos (1 * 2048)) with 2048. rewrite Z.mul_1_r.
  assert (v `quot` 2048 <= 0).
  { rewrite <- (Z.opp_involutive v), Z.quot_opp_l by lia.
    assert (0 <= (- v) `quot` 2048) by (apply Z.quot_pos; lia). lia. }
  lia.
Qed.

Lemma add_waveform_point_ok v d :
  wave_ok d ->
  add_waveform_point v d
  = ([], Returns
           (set_waveform_index
              ((waveform_index d + 1) `mod` waveform_width d)
              (set_waveform_buffer
                 (<[Z.to_nat (waveform_index d) := normalized v]>
                    (waveform_buffer d)) d))).
Proof.
  intros [Hw Hi]. unfold add_waveform_point, list_setitem, py_mod.
  rewrite decide_True by lia. simpl. rewrite decide_False by lia.
  reflexivity.
Qed.

Lemma add_waveform_point_wave_ok v d :
  wave_ok d ->
  wave_ok
    (set_waveform_index
       ((waveform_index d + 1) `mod` waveform_width d)
       (set_waveform_buffer
          (<[Z.to_nat (waveform_index d) := normalized v]>
             (waveform_buffer d)) d)).
Proof.
  intros [Hw Hi]. split; simpl.
  - unfold len in *. rewrite length_insert. exact Hw.
  - apply Z.mod_pos_bound. lia.
Qed.

Lemma add_waveform_point_heights_ok v d :
  heights_ok d ->
  heights_ok
    (set_waveform_index
       ((waveform_index d + 1) `mod` waveform_width d)
       (set_waveform_buffer
          (<[Z.to_nat (waveform_index d) := normalized v]>
             (waveform_buffer d)) d)).
Proof.
  intros Hh. unfold heights_ok in *. simpl.
  apply Forall_insert; [exact Hh|].
  pose proof (normalized_range v). lia.
Qed.

Lemma ring_next i j w :
  0 <= i < w -> 0 <= j ->
  ((i + 1) `mod` w + j) `mod` w = (i + (j + 1)) `mod` w.
Proof.
  intros Hi Hj. rewrite Z.add_mod_idemp_l by lia. f_equal. lia.
Qed.

Lemma ring_apart i j w :
  0 <= i < w -> 0 < j < w -> (i + j) `mod` w <> i.
Proof.
  intros Hi Hj Heq.
  destruct (decide (i + j < w)) as [Hlt|Hge].
  - rewrite Z.mod_small in Heq by lia. lia.
  - replace (i + j) with (i + j - w + 1 * w) in Heq by lia.
    rewrite Z.mod_add, Z.mod_small in Heq by lia. lia.
Qed.

Lemma ring_buffer_points (values : list Z) (d : HeartDisplay) :
  wave_ok d ->
  exists d',
    add_waveform_points values d = ([], Returns d')
    /\ wave_ok d'
    /\ (heights_ok d -> heights_ok d')
    /\ waveform_width d' = waveform_width d
    /\ waveform_height d' = waveform_height d
    /\ waveform_y_offset d' = waveform_y_offset d
    /\ heart_beat_time d' = heart_beat_time d
    /\ heart_scale d' = heart_scale d
    /\ last_update_time d' = last_update_time d
    /\ update_interval d' = update_interval d
    /\ waveform_index d'
       = (waveform_index d + len values) `mod` waveform_width d
    /\ (forall (k : nat) v,
          values !! k = Some v ->
          len values - Z.of_nat k <= waveform_width d ->
          waveform_buffer d'
            !! Z.to_nat ((waveform_index d + Z.of_nat k)
                         `mod` waveform_width d)
          = Some (normalized v))
    /\ (forall j,
          len values <= j < waveform_width d ->
          waveform_buffer d'
            !! Z.to_nat ((waveform_index d + j) `mod` waveform_width d)
          = waveform_buffer d
              !! Z.to_nat ((waveform_index d + j) `mod` waveform_width d)).
Proof.
  revert d. induction values as [|v0 rest IH]; intros d Hok.
  - exists d. pose proof Hok as [Hw Hi].
    repeat split; try reflexivity; try tauto; try lia.
    + unfold len. simpl. rewrite Z.add_0_r, Z.mod_small by lia. reflexivity.
    + intros k v Hk. inversion Hk.
  - pose proof Hok as [Hw Hi].
    set (d1 := set_waveform_index
                 ((waveform_index d + 1) `mod` waveform_width d)
                 (set_waveform_buffer
                    (<[Z.to_nat (waveform_index d) := normalized v0]>
                       (waveform_buffer d)) d)).
    destruct (IH d1 (add_waveform_point_wave_ok v0 d Hok))
      as (d' & Hrun & Hok' & Hh' & Hw' & Hhe' & Hy' & Hbt' & Hs' & Hl' & Hu'
          & Hi' & Hnew & Hold).
    exists d'. simpl in Hw', Hhe', Hy', Hbt', Hs', Hl', Hu', Hi', Hnew, Hold.
    assert (Hlen : len (v0 :: rest) = len rest + 1)
      by (unfold len; simpl length; lia).
    assert (Hr0 : 0 <= len rest) by (unfold len; lia).
    split.
    { simpl. rewrite (add_waveform_point_ok v0 d Hok). fold d1.
      unfold mbind, io_mbind. simpl. rewrite Hrun. reflexivity. }
    split; [exact Hok'|].
    split.
    { intros Hh. apply Hh'. apply add_waveform_point_heights_ok, Hh. }
    repeat (split; [assumption|]).
    split.
    { rewrite Hi', Hlen, ring_next by lia. reflexivity. }
    split.
    + intros k v Hk Hlast. destruct k as [|k]; simpl in Hk.
      * injection Hk as ->.
        rewrite Hlen in Hlast.
        assert (Hj : len rest <= waveform_width d - 1 < waveform_width d)
          by lia.
        specialize (Hold _ Hj). rewrite ring_next in Hold by lia.
        replace (waveform_index d + (waveform_width d - 1 + 1))
          with (waveform_index d + 1 * waveform_width d) in Hold by lia.
        rewrite Z.mod_add, Z.mod_small in Hold by lia.
        rewrite Z.add_0_r, Z.mod_small by lia.
        rewrite Hold. apply list_lookup_insert_eq.
        unfold len in Hw. lia.
      * specialize (Hnew k v Hk). rewrite ring_next in Hnew by lia.
        replace (waveform_index d + Z.of_nat (S k))
          with (waveform_index d + (Z.of_nat k + 1)) by lia.
        apply Hnew. lia.
    + intros j Hj. rewrite Hlen in Hj.
      assert (Hj' : len rest <= j - 1 < waveform_width d) by lia.
      specialize (Hold _ Hj'). rewrite ring_next in Hold by lia.
      replace (j - 1 + 1) with j in Hold by lia.
      rewrite Hold. apply list_lookup_insert_ne.
      pose proof (ring_apart (waveform_index d) j (waveform_width d)
                    ltac:(lia) ltac:(lia)) as Hne.
      pose proof (Z.mod_pos_bound (waveform_index d + j) (waveform_width d)
                    ltac:(lia)).
      lia.
Qed.

Lemma list_getitem_ok (l : list Z) (i : Z) :
  0 <= i < len l -> list_getitem l i = io_ret (l !!! Z.to_nat i).
Proof.
  intros Hi. unfold list_getitem, len in *.
  rewrite decide_True by lia.
  destruct (lookup_lt_is_Some_2 l (Z.to_nat i) ltac:(lia)) as [x Hx].
  rewrite Hx. rewrite (list_lookup_total_correct _ _ _ Hx). reflexivity.
Qed.

Lemma draw_segments_eq (d : HeartDisplay) (n i : nat) :
  waveform_width d = len (waveform_buffer d) ->
  Z.of_nat (i + n) < waveform_width d ->
  draw_segments d (Z.of_nat i) n
  = (segment d <$> seq i n, Returns tt).
Proof.
  intros Hw. revert i. induction n as [|n IH]; intros i Hi; [reflexivity|].
  simpl draw_segments.
  rewrite list_getitem_ok by lia.
  unfold py_mod. rewrite decide_False by lia.
  rewrite Z.mod_small by lia.
  unfold mbind, io_mbind, lift. simpl.
  rewrite list_getitem_ok by lia. simpl.
  replace (Z.of_nat i + 1) with (Z.of_nat (S i)) by lia.
  rewrite IH by lia. simpl.
  unfold segment. rewrite !Nat2Z.id. do 3 f_equal. lia.
Qed.

Lemma draw_waveform_eq (d : HeartDisplay) :
  wave_ok d ->
  draw_waveform d
  = (display_fill_rect 0 (waveform_y_offset d) 128 (waveform_height d) 0
     :: (segment d <$> seq 0 (Z.to_nat (waveform_width d - 1)))
     ++ [display_line 0 (waveform_y_offset d + 16)
           127 (waveform_y_offset d + 16) 1],
     Returns tt).
Proof.
  intros [Hw Hi]. unfold draw_waveform.
  rewrite (draw_segments_eq d _ 0 Hw) by lia. reflexivity.
Qed.

Lemma segment_on_screen (d : HeartDisplay) (i : nat) :
  heights_ok d ->
  waveform_y_offset d = 32 ->
  (S i < length (waveform_buffer d))%nat ->
  (i < 127)%nat ->
  on_screen (segment d i).
Proof.
  intros Hh Hy Hlen Hi.
  destruct (lookup_lt_is_Some_2 (waveform_buffer d) i ltac:(lia)) as [a Ha].
  destruct (lookup_lt_is_Some_2 (waveform_buffer d) (S i) ltac:(lia))
    as [b Hb].
  pose proof (proj1 (Forall_lookup _ _) Hh _ _ Ha) as Ha'.
  pose proof (proj1 (Forall_lookup _ _) Hh _ _ Hb) as Hb'.
  unfold on_screen, segment, extent. simpl in Ha', Hb'.
  rewrite (list_lookup_total_correct _ _ _ Ha).
  rewrite (list_lookup_total_correct _ _ _ Hb).
  rewrite Hy. lia.
Qed.

Lemma new_display_ok : display_ok new_display.
Proof.
  repeat split; try reflexivity; simpl; try lia.
  apply Forall_replicate. lia.
Qed.

Lemma heart_scale_steps dt :
  0 <= dt < 200 ->
  3 - (dt * 3) `div` 200
  = if decide (dt < 67) then 3 else if decide (dt < 134) then 2 else 1.
Proof.
  intros Hdt.
  pose proof (Z.div_mod (dt * 3) 200 ltac:(lia)) as Hdm.
  pose proof (Z.mod_pos_bound (dt * 3) 200 ltac:(lia)) as Hb.
  repeat case_decide; lia.
Qed.

(** The heart on a beat: scale 3. *)
Lemma draw_heart_icon_beat now d :
  draw_heart_icon true now d
  = ([display_fill_rect 101 8 8 4 1; display_fill_rect 103 6 4 2 1;
      display_fill_rect 105 6 4 2 1],
     Returns (set_heart_scale 3 (set_heart_beat_time now d))).
Proof. reflexivity. Qed.

(** The heart between beats. *)
Lemma draw_heart_icon_fade now d :
  let dt := now - heart_beat_time d in
  0 <= dt ->
  draw_heart_icon false now d
  = if decide (dt < 67) then
      ([display_fill_rect 101 8 8 4 1; display_fill_rect 103 6 4 2 1;
        display_fill_rect 105 6 4 2 1], Returns (set_heart_scale 3 d))
    else if decide (dt < 134) then
      ([display_fill_rect 102 8 6 3 1; display_fill_rect 104 7 3 1 1;
        display_fill_rect 105 7 3 1 1], Returns (set_heart_scale 2 d))
    else if decide (dt < 200) then
      ([display_fill_rect 103 8 4 2 1; display_fill_rect 104 7 2 1 1;
        display_fill_rect 105 7 2 1 1], Returns (set_heart_scale 1 d))
    else ([], Returns (set_heart_scale 0 d)).
Proof.
  intros dt Hdt. unfold draw_heart_icon, ticks_diff. fold dt.
  destruct (decide (dt < 200)) as [Hlt|Hge].
  - rewrite heart_scale_steps by lia.
    repeat case_decide; simpl in *; try lia; reflexivity.
  - simpl. repeat case_decide; simpl in *; try lia; reflexivity.
Qed.

(** [draw_heart_icon] always returns, writes no text, does not call
    [show] and touches the heart fields only. *)
Lemma draw_heart_icon_frame beat now d :
  exists tr d',
    draw_heart_icon beat now d = (tr, Returns d')
    /\ texts tr = [] /\ shows tr = 0
    /\ waveform_width d' = waveform_width d
    /\ waveform_height d' = waveform_height d
    /\ waveform_y_offset d' = waveform_y_offset d
    /\ waveform_buffer d' = waveform_buffer d
    /\ waveform_index d' = waveform_index d
    /\ last_update_time d' = last_update_time d
    /\ update_interval d' = update_interval d.
Proof.
  unfold draw_heart_icon.
  destruct beat; simpl.
  - eexists _, _. split; [reflexivity|]. repeat split; reflexivity.
  - repeat case_decide; (eexists _, _; split; [reflexivity|]);
      repeat split; reflexivity.
Qed.

Lemma status_indicator_eq bpm s :
  status_indicator bpm s
  = ((if decide (s < 30) then [display_text "Check sensor!" 5 55 1]
      else if decide (bpm > 100) then [display_text "Fast!" 80 5 1]
      else if decide (0 < bpm < 60) then [display_text "Calm" 80 5 1]
      else []), Returns tt).
Proof.
  unfold status_indicator. repeat case_decide; try reflexivity; lia.
Qed.

Lemma texts_app t1 t2 : texts (t1 ++ t2) = texts t1 ++ texts t2.
Proof. unfold texts. apply omap_app. Qed.

Lemma shows_app t1 t2 : shows (t1 ++ t2) = shows t1 + shows t2.
Proof. unfold shows, len. rewrite omap_app, length_app. lia. Qed.

Lemma texts_segments d l : texts (segment d <$> l) = [].
Proof. induction l as [|i l IH]; [reflexivity|exact IH]. Qed.

Lemma shows_segments d l : shows (segment d <$> l) = 0.
Proof.
  unfold shows, len. induction l as [|i l IH]; [reflexivity|exact IH].
Qed.

(** A call that refreshes the screen. *)
Lemma update_display_refresh bpm s beat raw now hnow d :
  wave_ok d ->
  ~ now - last_update_time d < update_interval d ->
  let d1 :=
    set_waveform_index
      ((waveform_index d + 1) `mod` waveform_width d)
      (set_waveform_buffer
         (<[Z.to_nat (waveform_index d) := normalized raw]>
            (waveform_buffer d)) d) in
  exists tr d2,
    draw_heart_icon beat hnow d1 = (tr, Returns d2)
    /\ update_display bpm s beat raw now hnow d
       = (display_fill 0
          :: trace (draw_waveform d1)
          ++ [display_text (bpm_text bpm) 5 5 1;
              display_text (signal_text s) 5 15 1]
          ++ tr
          ++ trace (status_indicator bpm s)
          ++ [display_show],
          Returns (set_last_update_time now d2)).
Proof.
  intros Hok Hdue d1.
  destruct (draw_heart_icon_frame beat hnow d1) as (tr & d2 & Hheart & _).
  exists tr, d2. split; [exact Hheart|].
  unfold update_display, ticks_diff. rewrite decide_False by exact Hdue.
  rewrite (add_waveform_point_ok raw d Hok). fold d1.
  unfold mbind, io_mbind, emit. cbn [io_bind app].
  rewrite (draw_waveform_eq d1 (add_waveform_point_wave_ok raw d Hok)).
  rewrite status_indicator_eq, Hheart.
  unfold trace, io_ret. cbn [io_bind app fst snd].
  rewrite <- !app_assoc. reflexivity.
Qed.

Lemma update_display_skip bpm s beat raw now hnow d :
  now - last_update_time d < update_interval d ->
  update_display bpm s beat raw now hnow d = ([], Returns d).
Proof.
  intros Hearly. unfold update_display, ticks_diff.
  rewrite decide_True by exact Hearly. reflexivity.
Qed.

(** ** The waveform buffer *)

(** From an object whose buffer has one entry per column and whose index
    is a column, any number of [add_waveform_point] calls return and make
    no display call.  Afterwards each of the last [waveform_width] values
    is in the buffer, value number [k] at column
    [(waveform_index + k) mod waveform_width], as a height between 0 and
    31 that is [value // 2048] for a 16-bit value; the columns not written
    keep their entries and the index has advanced by the number of
    values, cyclically. *)
Theorem waveform_keeps_last_points (values : list Z) (d : HeartDisplay) :
  wave_ok d ->
  exists d',
    add_waveform_points values d = ([], Returns d')
    /\ wave_ok d'
    /\ waveform_index d'
       = (waveform_index d + len values) `mod` waveform_width d
    /\ (forall (k : nat) v,
          values !! k = Some v ->
          len values - Z.of_nat k <= waveform_width d ->
          waveform_buffer d'
            !! Z.to_nat ((waveform_index d + Z.of_nat k)
                         `mod` waveform_width d)
          = Some (normalized v)
          /\ 0 <= normalized v <= 31
          /\ (u16 v -> normalized v = v `div` 2048))
    /\ (forall j,
          len values <= j < waveform_width d ->
          waveform_buffer d'
            !! Z.to_nat ((waveform_index d + j) `mod` waveform_width d)
          = waveform_buffer d
              !! Z.to_nat ((waveform_index d + j) `mod` waveform_width d)).
Proof.
  intros Hok.
  destruct (ring_buffer_points values d Hok)
    as (d' & Hrun & Hok' & _ & _ & _ & _ & _ & _ & _ & _ & Hi & Hnew & Hold).
  exists d'. repeat (split; [assumption|]). split; [|exact Hold].
  intros k v Hk Hlast. split; [exact (Hnew k v Hk Hlast)|].
  split; [apply normalized_range|apply normalized_u16].
Qed.

(** Three points on the fresh display: heights 0, 19 and 31 in columns 0
    to 2, the initial 32 in column 3, index 3. *)
Lemma waveform_keeps_last_points_witness :
  exists d',
    add_waveform_points [0; 40000; 65535] new_display = ([], Returns d')
    /\ take 4 (waveform_buffer d') = [0; 19; 31; 32]
    /\ waveform_index d' = 3.
Proof.
  destruct (waveform_keeps_last_points [0; 40000; 65535] new_display)
    as (d' & Hrun & _).
  - split; [reflexivity|simpl; lia].
  - exists d'. split; [exact Hrun|].
    vm_compute in Hrun. injection Hrun as <-. split; reflexivity.
Defined.

(** ** [draw_waveform] *)

(** With the geometry of [__init__] and heights between 0 and 32 in the
    buffer, [draw_waveform] returns after clearing the lower half of the
    screen, drawing one line per pair of neighbouring columns, from column
    0 to column 127 whatever the index, each entry [b] at row [63 - b],
    and the reference line at row 48.  Every call stays on the 128 x 64
    screen, and the modulo in the column index never wraps. *)
Theorem draw_waveform_segments (d : HeartDisplay) :
  display_ok d ->
  draw_waveform d
  = (display_fill_rect 0 32 128 32 0
     :: ((fun i : nat =>
            display_line (Z.of_nat i) (63 - waveform_buffer d !!! i)
              (Z.of_nat i + 1) (63 - waveform_buffer d !!! S i) 1)
         <$> seq 0 127)
     ++ [display_line 0 48 127 48 1],
     Returns tt)
  /\ Forall on_screen (trace (draw_waveform d)).
Proof.
  intros (Hok & Hh & Hw & Hhe & Hy).
  rewrite (draw_waveform_eq d Hok), Hw, Hhe, Hy.
  change (Z.to_nat (128 - 1)) with 127%nat.
  assert (Hseg : forall i,
             segment d i
             = display_line (Z.of_nat i) (63 - waveform_buffer d !!! i)
                 (Z.of_nat i + 1) (63 - waveform_buffer d !!! S i) 1).
  { intros i. unfold segment. rewrite Hy. f_equal; lia. }
  split.
  - f_equal. f_equal. f_equal. apply list_fmap_ext. intros _ i _.
    apply Hseg.
  - unfold trace. cbn [fst].
    apply Forall_cons. split; [unfold on_screen; simpl; lia|].
    apply Forall_app. split.
    + apply Forall_fmap, Forall_forall. intros i Hi.
      apply elem_of_seq in Hi. destruct Hok as [Hlen _].
      unfold len in Hlen.
      apply segment_on_screen; [exact Hh|exact Hy|lia|lia].
    + apply Forall_cons. split; [unfold on_screen; simpl; lia|].
      apply Forall_nil_2.
Qed.

(** The fresh display: a flat line at row 31, one row above the area
    that [draw_waveform] clears. *)
Lemma draw_waveform_segments_witness :
  display_ok new_display
  /\ trace (draw_waveform new_display) !! 1%nat
     = Some (display_line 0 31 1 31 1)
  /\ Forall on_screen (trace (draw_waveform new_display)).
Proof.
  split; [exact new_display_ok|].
  destruct (draw_waveform_segments new_display new_display_ok)
    as [Heq Hscreen].
  split; [|exact Hscreen].
  rewrite Heq. reflexivity.
Defined.

(** ** [draw_heart_icon] *)

(** A call with a beat draws the heart at scale 3 and records the time.
    A later call without a beat, [dt] milliseconds after it, draws the
    heart at scale 3 while [dt < 67], 2 while [dt < 134], 1 while
    [dt < 200] and nothing from 200 ms on; it keeps the time of the beat,
    so the scale never grows between beats. *)
Theorem heart_fades_after_beat (t0 t : Z) (d : HeartDisplay) :
  t0 <= t ->
  let d1 := set_heart_scale 3 (set_heart_beat_time t0 d) in
  let dt := t - t0 in
  let scale :=
    if decide (dt < 67) then 3 else if decide (dt < 134) then 2
    else if decide (dt < 200) then 1 else 0 in
  draw_heart_icon true t0 d
  = ([display_fill_rect 101 8 8 4 1; display_fill_rect 103 6 4 2 1;
      display_fill_rect 105 6 4 2 1], Returns d1)
  /\ draw_heart_icon false t d1
     = ((if decide (dt < 67) then
           [display_fill_rect 101 8 8 4 1; display_fill_rect 103 6 4 2 1;
            display_fill_rect 105 6 4 2 1]
         else if decide (dt < 134) then
           [display_fill_rect 102 8 6 3 1; display_fill_rect 104 7 3 1 1;
            display_fill_rect 105 7 3 1 1]
         else if decide (dt < 200) then
           [display_fill_rect 103 8 4 2 1; display_fill_rect 104 7 2 1 1;
            display_fill_rect 105 7 2 1 1]
         else []),
        Returns (set_heart_scale scale d1))
  /\ heart_beat_time (set_heart_scale scale d1) = t0.
Proof.
  intros Ht d1 dt scale. split; [reflexivity|]. split; [|reflexivity].
  rewrite draw_heart_icon_fade by (simpl; lia).
  subst scale. simpl heart_beat_time. fold dt.
  repeat case_decide; reflexivity.
Qed.

(** A beat at 1000 ms: at 1100 ms the heart has scale 2, at 1200 ms it
    is gone. *)
Lemma heart_fades_after_beat_witness :
  (draw_heart_icon false 1100
     (set_heart_scale 3 (set_heart_beat_time 1000 new_display))).1
  = [display_fill_rect 102 8 6 3 1; display_fill_rect 104 7 3 1 1;
     display_fill_rect 105 7 3 1 1]
  /\ (draw_heart_icon false 1200
        (set_heart_scale 3 (set_heart_beat_time 1000 new_display))).1
     = [].
Proof.
  split.
  - destruct (heart_fades_after_beat 1000 1100 new_display ltac:(lia))
      as (_ & Hfade & _).
    rewrite Hfade. reflexivity.
  - destruct (heart_fades_after_beat 1000 1200 new_display ltac:(lia))
      as (_ & Hfade & _).
    rewrite Hfade. reflexivity.
Defined.

(** ** [update_display] *)

Lemma texts_draw_waveform d : wave_ok d -> texts (trace (draw_waveform d)) = [].
Proof.
  intros Hok. rewrite (draw_waveform_eq d Hok). unfold trace. cbn [fst].
  change (texts (?e :: ?l)) with (texts l) at 1.
  rewrite texts_app, texts_segments. reflexivity.
Qed.

Lemma shows_draw_waveform d : wave_ok d -> shows (trace (draw_waveform d)) = 0.
Proof.
  intros Hok. rewrite (draw_waveform_eq d Hok). unfold trace. cbn [fst].
  change (shows (?e :: ?l)) with (shows l) at 1.
  rewrite shows_app, shows_segments. reflexivity.
Qed.

Lemma texts_status bpm s :
  texts (trace (status_indicator bpm s))
  = if decide (s < 30) then [("Check sensor!"%string, 5, 55)]
    else if decide (bpm > 100) then [("Fast!"%string, 80, 5)]
    else if decide (0 < bpm < 60) then [("Calm"%string, 80, 5)]
    else [].
Proof. rewrite status_indicator_eq. repeat case_decide; reflexivity. Qed.

Lemma shows_status bpm s : shows (trace (status_indicator bpm s)) = 0.
Proof. rewrite status_indicator_eq. repeat case_decide; reflexivity. Qed.

(** The two cases of [update_display] on a well-formed object. *)
Lemma update_display_cases bpm s beat raw now hnow d :
  wave_ok d ->
  exists tr d',
    update_display bpm s beat raw now hnow d = (tr, Returns d')
    /\ wave_ok d'
    /\ (heights_ok d -> heights_ok d')
    /\ waveform_width d' = waveform_width d
    /\ waveform_height d' = waveform_height d
    /\ waveform_y_offset d' = waveform_y_offset d
    /\ update_interval d' = update_interval d
    /\ ((now - last_update_time d < update_interval d
         /\ tr = [] /\ d' = d)
        \/ (update_interval d <= now - last_update_time d
            /\ shows tr = 1
            /\ texts tr
               = [(bpm_text bpm, 5, 5); (signal_text s, 5, 15)]
                 ++ texts (trace (status_indicator bpm s))
            /\ last_update_time d' = now
            /\ waveform_index d'
               = (waveform_index d + 1) `mod` waveform_width d
            /\ waveform_buffer d'
               = <[Z.to_nat (waveform_index d) := normalized raw]>
                   (waveform_buffer d))).
Proof.
  intros Hok.
  destruct (decide (now - last_update_time d < update_interval d))
    as [Hearly|Hdue].
  - exists [], d. rewrite update_display_skip by exact Hearly.
    repeat split; try reflexivity; try apply Hok; tauto.
  - destruct (update_display_refresh bpm s beat raw now hnow d Hok Hdue)
      as (trh & d2 & Hheart & Hrun).
    pose proof (add_waveform_point_wave_ok raw d Hok) as Hok1.
    pose proof (add_waveform_point_heights_ok raw d) as Hh1.
    set (d1 := set_waveform_index _ _) in *.
    destruct (draw_heart_icon_frame beat hnow d1)
      as (trh' & d2' & Hheart' & Htx & Hsh & Hw & Hhe & Hy & Hb & Hi & Hl
          & Hu).
    rewrite Hheart in Hheart'. injection Hheart' as <- <-.
    eexists _, _. split; [exact Hrun|].
    split.
    { destruct Hok1 as [Hw1 Hi1]. split; simpl; rewrite ?Hw, ?Hb, ?Hi;
        assumption. }
    split.
    { intros Hh. unfold heights_ok. simpl. rewrite Hb. apply Hh1, Hh. }
    repeat (split; [simpl; first [rewrite Hw|rewrite Hhe|rewrite Hy
                                   |rewrite Hu]; reflexivity|]).
    right. split; [lia|].
    split.
    { change (shows (?e :: ?l)) with (shows l).
      rewrite !shows_app, (shows_draw_waveform d1 Hok1), Hsh, shows_status.
      reflexivity. }
    split.
    { change (texts (?e :: ?l)) with (texts l).
      rewrite !texts_app, (texts_draw_waveform d1 Hok1), Htx.
      change (texts [display_show]) with (@nil (string * Z * Z)).
      rewrite app_nil_r. reflexivity. }
    repeat split; simpl; first [rewrite Hi|rewrite Hb|idtac]; reflexivity.
Qed.

Lemma format_3d_length n :
  0 <= n <= 999 -> String.length (format_3d n) = 3%nat.
Proof.
  intros Hn.
  assert (Hall : forallb (fun k => Nat.eqb (String.length
                                    (format_3d (Z.of_nat k))) 3)
                   (seq 0 1000) = true) by (vm_compute; reflexivity).
  rewrite forallb_forall in Hall.
  specialize (Hall (Z.to_nat n)).
  rewrite Z2Nat.id in Hall by lia.
  apply Nat.eqb_eq, Hall, in_seq. lia.
Qed.

(** Every refresh writes the BPM line at (5, 5) and the signal line at
    (5, 15), then at most one status text: "Check sensor!" whenever the
    signal strength is below 30, whatever the BPM; otherwise "Fast!"
    above 100 BPM and "Calm" from 1 to 59 BPM.  No other text is written.
    The BPM line reads "BPM: ---" when the BPM is 0 or less and has eight
    characters for every BPM up to 999. *)
Theorem refresh_texts (bpm s : Z) (beat : bool) (raw now hnow : Z)
    (d : HeartDisplay) :
  wave_ok d ->
  update_interval d <= now - last_update_time d ->
  texts (trace (update_display bpm s beat raw now hnow d))
  = [(bpm_text bpm, 5, 5); (signal_text s, 5, 15)]
    ++ (if decide (s < 30) then [("Check sensor!"%string, 5, 55)]
        else if decide (bpm > 100) then [("Fast!"%string, 80, 5)]
        else if decide (0 < bpm < 60) then [("Calm"%string, 80, 5)]
        else [])
  /\ (bpm <= 0 -> bpm_text bpm = "BPM: ---"%string)
  /\ (bpm <= 999 -> String.length (bpm_text bpm) = 8%nat).
Proof.
  intros Hok Hdue. split; [|split].
  - destruct (update_display_cases bpm s beat raw now hnow d Hok)
      as (tr & d' & Hrun & _ & _ & _ & _ & _ & _ & [[Hearly _]|Hrefresh]);
      [lia|].
    destruct Hrefresh as (_ & _ & Htx & _).
    rewrite Hrun. unfold trace at 1. cbn [fst].
    rewrite Htx, texts_status. reflexivity.
  - intros Hbpm. unfold bpm_text. rewrite decide_False by lia. reflexivity.
  - intros Hbpm. unfold bpm_text. case_decide; [|reflexivity].
    change (String.length ("BPM: " +:+ format_3d bpm))
      with (S (S (S (S (S (String.length (format_3d bpm))))))).
    rewrite format_3d_length by lia. reflexivity.
Qed.

(** A weak signal at 120 BPM: "Check sensor!" and no "Fast!". *)
Lemma refresh_texts_witness :
  texts (trace (update_display 120 12 false 30000 1000 1000 new_display))
  = [("BPM: 120"%string, 5, 5); ("Sig: 12%"%string, 5, 15);
     ("Check sensor!"%string, 5, 55)].
Proof.
  destruct (refresh_texts 120 12 false 30000 1000 1000 new_display)
    as (Htx & _).
  - split; [reflexivity|simpl; lia].
  - simpl; lia.
  - rewrite Htx. reflexivity.
Defined.

Lemma update_displays_cons f frames d :
  update_displays (f :: frames) d
  = io_bind
      (update_display (frame_bpm f) (frame_strength f) (frame_beat f)
         (frame_raw f) (frame_now f) (frame_heart_now f) d)
      (update_displays frames).
Proof. reflexivity. Qed.

(** Between two refreshes at least [update_interval] milliseconds pass on
    the clock [update_display] reads: over any sequence of calls on a
    well-formed object, all return, the number of [show] calls times the
    interval is at most the advance of [last_update_time], which is the
    clock value of the last refresh and so not later than the latest call.
    One waveform point is stored per refresh: the samples of the calls in
    between are dropped. *)
Theorem display_refresh_rate (frames : list frame) (d : HeartDisplay) :
  wave_ok d ->
  exists tr d',
    update_displays frames d = (tr, Returns d')
    /\ wave_ok d'
    /\ update_interval d * shows tr
       <= last_update_time d' - last_update_time d
    /\ (forall T,
          last_update_time d <= T ->
          Forall (fun f => frame_now f <= T) frames ->
          last_update_time d' <= T)
    /\ waveform_index d'
       = (waveform_index d + shows tr) `mod` waveform_width d.
Proof.
  revert d. induction frames as [|f frames IH]; intros d Hok.
  - exists [], d. pose proof Hok as [Hw Hi].
    change (shows []) with 0.
    repeat split; try reflexivity; try tauto; try lia.
    rewrite Z.add_0_r, Z.mod_small by lia. reflexivity.
  - destruct (update_display_cases (frame_bpm f) (frame_strength f)
                (frame_beat f) (frame_raw f) (frame_now f)
                (frame_heart_now f) d Hok)
      as (tr1 & d1 & Hrun1 & Hok1 & _ & Hw1 & _ & _ & Hu1 & Hcase).
    destruct (IH d1 Hok1) as (tr2 & d2 & Hrun2 & Hok2 & Hrate & Hlast & Hix).
    exists (tr1 ++ tr2), d2.
    split.
    { rewrite update_displays_cons, Hrun1. cbn [io_bind].
      rewrite Hrun2. reflexivity. }
    split; [exact Hok2|].
    rewrite shows_app, Hu1, Hw1 in *.
    pose proof Hok as [Hw Hi].
    destruct Hcase as [(Hearly & -> & ->)|(Hdue & Hsh & _ & Hl & Hi1 & _)].
    + change (shows []) with 0. rewrite Z.add_0_l.
      split; [exact Hrate|]. split; [|exact Hix].
      intros T HT Hall. apply Hlast; [exact HT|].
      apply Forall_cons in Hall. apply Hall.
    + rewrite Hsh. split; [lia|]. split.
      * intros T HT Hall. apply Forall_cons in Hall.
        destruct Hall as [Hf Hall]. apply Hlast; [lia|exact Hall].
      * rewrite Hix, Hi1, Z.add_mod_idemp_l by lia. f_equal. lia.
Qed.

(** Eleven calls 20 ms apart, from 1000 ms to 1200 ms: four refreshes (at
    1000, 1060, 1120 and 1180 ms) and four waveform points. *)
Lemma display_refresh_rate_witness :
  exists tr d',
    update_displays
      ((fun k : nat =>
          mkFrame 72 45 false 30000 (1000 + 20 * Z.of_nat k)
            (1000 + 20 * Z.of_nat k)) <$> seq 0 11) new_display
    = (tr, Returns d')
    /\ shows tr = 4
    /\ last_update_time d' = 1180
    /\ waveform_index d' = 4.
Proof.
  destruct (display_refresh_rate
              ((fun k : nat =>
                  mkFrame 72 45 false 30000 (1000 + 20 * Z.of_nat k)
                    (1000 + 20 * Z.of_nat k)) <$> seq 0 11) new_display)
    as (tr & d' & Hrun & _).
  - split; [reflexivity|simpl; lia].
  - exists tr, d'. split; [exact Hrun|].
    vm_compute in Hrun. injection Hrun as <- <-.
    repeat split; reflexivity.
Defined.

(** * The application *)

Lemma play_beat_sound_returns bpm :
  play_beat_sound bpm = (trace (play_beat_sound bpm), Returns tt).
Proof. rewrite play_beat_sound_eq. reflexivity. Qed.

Lemma fourth_beats_0 c : fourth_beats c 0 = 0.
Proof. unfold fourth_beats. rewrite Z.add_0_r. lia. Qed.

Lemma fourth_beats_step c k :
  fourth_beats c (k + 1)
  = fourth_beats c k + (if decide ((c + k + 1) `mod` 4 = 0) then 1 else 0).
Proof.
  unfold fourth_beats.
  pose proof (Z.div_mod (c + k) 4 ltac:(lia)).
  pose proof (Z.mod_pos_bound (c + k) 4 ltac:(lia)).
  pose proof (Z.div_mod (c + k + 1) 4 ltac:(lia)).
  pose proof (Z.mod_pos_bound (c + k + 1) 4 ltac:(lia)).
  replace (c + (k + 1)) with (c + k + 1) by lia.
  case_decide; lia.
Qed.

Lemma fourth_beats_nonneg c k : 0 <= k -> 0 <= fourth_beats c k.
Proof.
  intros Hk. unfold fourth_beats.
  assert (c `div` 4 <= (c + k) `div` 4) by (apply Z.div_le_mono; lia). lia.
Qed.

Lemma fourth_beats_shift c k :
  fourth_beats c (k + 1) = fourth_beats c 1 + fourth_beats (c + 1) k.
Proof.
  unfold fourth_beats. replace (c + 1 + k) with (c + (k + 1)) by lia. lia.
Qed.

(** One call with the index inside the melody. *)
Lemma handle_beat_detected_ok pitch bpm now app :
  melody_ok (App.music_player app) ->
  let c := App.beat_count app in
  let p := App.music_player app in
  handle_beat_detected pitch bpm now app
  = (trace (play_beat_sound bpm)
     ++ (if decide ((c + 1) `mod` 4 = 0) then
           trace (play_tone (pitch (note_ahead p 0) bpm)
                    (melody_note_duration p))
         else []),
     Returns
       (App.set_last_beat_time now
          (App.set_music_player
             (if decide ((c + 1) `mod` 4 = 0) then
                set_melody_index
                  ((melody_index p + 1)
                   `mod` Z.of_nat (length (current_melody p))) p
              else p)
             (App.set_beat_count (c + 1) app)))).
Proof.
  intros Hok c p. unfold handle_beat_detected.
  rewrite play_beat_sound_returns.
  unfold mbind, io_mbind. cbn [io_bind App.beat_count App.set_beat_count
                                App.music_player].
  fold c p. destruct (decide ((c + 1) `mod` 4 = 0)) as [H4|H4].
  - rewrite (play_melody_note_ok pitch bpm p Hok).
    unfold io_ret. cbn [io_bind]. unfold trace. cbn [fst].
    rewrite !app_nil_r. reflexivity.
  - unfold io_ret. cbn [io_bind]. rewrite !app_nil_r.
    destruct app. reflexivity.
Qed.

Lemma fourth_beats_1 c :
  fourth_beats c 1 = if decide ((c + 1) `mod` 4 = 0) then 1 else 0.
Proof.
  rewrite <- (Z.add_0_l 1) at 1. rewrite fourth_beats_step, fourth_beats_0.
  rewrite Z.add_0_r. reflexivity.
Qed.

Lemma set_melody_index_twice v w p :
  set_melody_index v (set_melody_index w p) = set_melody_index v p.
Proof. reflexivity. Qed.

(** From a player whose index is inside the current melody, with its
    notes in the table, any number of [handle_beat_detected] calls
    return.  Every call plays the two-tone chirp of its BPM; the calls
    that bring the beat count to a multiple of four also play a melody
    note, the first of them the note at the index, the next one the note
    after it, and so on around the melody.  Afterwards the beat count has
    grown by the number of calls, the melody index by the number of
    multiples of four passed, [last_beat_time] is the clock value of the
    last call, and the sensor and the display are untouched. *)
Theorem melody_note_every_fourth_beat
    (pitch : Z -> Z -> Z) (beats : list (Z * Z))
    (app : App.BeatToMusicApp) :
  melody_ok (App.music_player app) ->
  let c := App.beat_count app in
  let p := App.music_player app in
  let n := Z.of_nat (length beats) in
  exists app',
    handle_beats pitch beats app
    = (concat
         (imap (fun (k : nat) (beat : Z * Z) =>
                  trace (play_beat_sound beat.1)
                  ++ (if decide ((c + Z.of_nat k + 1) `mod` 4 = 0) then
                        trace
                          (play_tone
                             (pitch
                                (note_ahead p
                                   (Z.to_nat
                                      (fourth_beats c (Z.of_nat k))))
                                beat.1)
                             (melody_note_duration p))
                      else [])) beats),
       Returns app')
    /\ App.beat_count app' = c + n
    /\ App.music_player app'
       = set_melody_index
           ((melody_index p + fourth_beats c n)
            `mod` Z.of_nat (length (current_melody p))) p
    /\ melody_ok (App.music_player app')
    /\ App.last_beat_time app'
       = default (App.last_beat_time app) (snd <$> last beats)
    /\ App.display app' = App.display app
    /\ App.pulse_sensor app' = App.pulse_sensor app.
Proof.
  revert app. induction beats as [|[bpm now] beats IH]; intros app Hok c p n.
  - exists app. subst n. simpl length. rewrite fourth_beats_0.
    pose proof Hok as [_ Hix].
    split; [reflexivity|]. split; [simpl; lia|].
    split.
    { rewrite Z.add_0_r, Z.mod_small by exact Hix.
      fold p. rewrite set_melody_index_same. reflexivity. }
    split; [exact Hok|]. repeat split; reflexivity.
  - pose proof (handle_beat_detected_ok pitch bpm now app Hok) as Hcall.
    cbv zeta in Hcall. fold c p in Hcall.
    set (p1 := if decide ((c + 1) `mod` 4 = 0) then
                 set_melody_index
                   ((melody_index p + 1)
                    `mod` Z.of_nat (length (current_melody p))) p
               else p) in *.
    set (app1 := App.set_last_beat_time now
                   (App.set_music_player p1
                      (App.set_beat_count (c + 1) app))) in *.
    assert (Hok1 : melody_ok (App.music_player app1)).
    { simpl. subst p1. case_decide; [apply melody_ok_step|]; exact Hok. }
    assert (Hcur : current_melody p1 = current_melody p)
      by (subst p1; case_decide; reflexivity).
    assert (Hdur : melody_note_duration p1 = melody_note_duration p)
      by (subst p1; case_decide; reflexivity).
    assert (Hahead : forall j : Z,
               0 <= j ->
               note_ahead p1 (Z.to_nat j)
               = note_ahead p (Z.to_nat (fourth_beats c 1 + j))).
    { intros j Hj. rewrite fourth_beats_1. subst p1. case_decide.
      - rewrite (note_ahead_step p _ Hok). f_equal. lia.
      - reflexivity. }
    destruct (IH app1 Hok1) as (app' & Hrun & Hc & Hp & Hok' & Hl & Hd & Hs).
    cbv zeta in Hrun, Hc, Hp. simpl App.beat_count in Hrun, Hc, Hp.
    simpl App.music_player in Hrun, Hp.
    exists app'. split; [|split; [|split; [|split; [|split; [|split]]]]].
    + cbn [handle_beats]. unfold mbind, io_mbind. rewrite Hcall.
      cbn [io_bind]. rewrite Hrun, imap_cons. cbn [concat fst].
      f_equal. f_equal.
      * cbn [fst]. rewrite Z.add_0_r, fourth_beats_0. reflexivity.
      * f_equal. apply imap_ext. intros k beat _. unfold compose.
        replace (c + Z.of_nat (S k) + 1) with (c + 1 + Z.of_nat k + 1)
          by lia.
        rewrite Hdur.
        rewrite (Hahead (fourth_beats (c + 1) (Z.of_nat k)))
          by (apply fourth_beats_nonneg; lia).
        rewrite <- fourth_beats_shift.
        replace (Z.of_nat k + 1) with (Z.of_nat (S k)) by lia.
        reflexivity.
    + rewrite Hc. subst n. simpl length. lia.
    + rewrite Hp, Hcur. subst n. simpl length.
      replace (Z.of_nat (S (length beats)))
        with (Z.of_nat (length beats) + 1) by lia.
      rewrite fourth_beats_shift, fourth_beats_1.
      pose proof Hok as [_ Hix]. fold p in Hix.
      subst p1. case_decide.
      * rewrite set_melody_index_twice. f_equal. simpl melody_index.
        rewrite Z.add_mod_idemp_l by lia. f_equal. lia.
      * f_equal; f_equal; lia.
    + exact Hok'.
    + rewrite Hl. simpl App.last_beat_time.
      destruct beats as [|b beats']; [reflexivity|].
      rewrite last_cons_cons.
      destruct (last (b :: beats')) eqn:Hlast; [reflexivity|].
      apply last_None in Hlast. discriminate.
    + rewrite Hd. reflexivity.
    + rewrite Hs. reflexivity.
Qed.

(** Eight beats at 70 BPM on the fresh application: C4 after the fourth
    chirp, D4 after the eighth. *)
Lemma melody_note_every_fourth_beat_witness :
  exists tr app',
    handle_beats exact_pitch
      ((fun k : nat => (70, 1000 + 800 * Z.of_nat k)) <$> seq 0 8)
      (new_app 0 0)
    = (tr, Returns app')
    /\ frequencies tr
       = [360; 432; 360; 432; 360; 432; 360; 432; 262;
          360; 432; 360; 432; 360; 432; 360; 432; 294]
    /\ App.beat_count app' = 8
    /\ melody_index (App.music_player app') = 2.
Proof.
  destruct (melody_note_every_fourth_beat exact_pitch
              ((fun k : nat => (70, 1000 + 800 * Z.of_nat k)) <$> seq 0 8)
              (new_app 0 0))
    as (app' & Hrun & _).
  - split; [|simpl; lia].
    repeat constructor; vm_compute; eauto.
  - eexists _, app'. split; [exact Hrun|].
    vm_compute in Hrun. injection Hrun as <-.
    repeat split; reflexivity.
Defined.

(** ** One iteration of the main loop *)

Lemma display_call_not_buzzer t :
  Forall display_call t -> Forall (fun e => ~ buzzer_call e) t.
Proof.
  intros H. eapply Forall_impl; [exact H|]. intros []; simpl; tauto.
Qed.

Lemma draw_heart_icon_calls beat now d :
  Forall display_call (draw_heart_icon beat now d).1.
Proof.
  unfold draw_heart_icon.
  destruct beat; simpl; repeat case_decide; simpl; repeat constructor.
Qed.

Lemma segments_calls d l : Forall display_call (segment d <$> l).
Proof. apply Forall_fmap, Forall_forall. intros i _. exact I. Qed.

Lemma status_indicator_calls bpm s :
  Forall display_call (trace (status_indicator bpm s)).
Proof.
  rewrite status_indicator_eq. unfold trace. cbn [fst].
  repeat case_decide; repeat constructor.
Qed.

(** [update_display] makes display calls only. *)
Lemma update_display_calls bpm s beat raw now hnow d :
  wave_ok d ->
  Forall display_call (trace (update_display bpm s beat raw now hnow d)).
Proof.
  intros Hok.
  destruct (decide (now - last_update_time d < update_interval d))
    as [Hearly|Hdue].
  - rewrite update_display_skip by exact Hearly. constructor.
  - destruct (update_display_refresh bpm s beat raw now hnow d Hok Hdue)
      as (trh & d2 & Hheart & Hrun).
    rewrite Hrun. unfold trace at 1. cbn [fst].
    pose proof (draw_heart_icon_calls beat hnow
                  (set_waveform_index
                     ((waveform_index d + 1) `mod` waveform_width d)
                     (set_waveform_buffer
                        (<[Z.to_nat (waveform_index d):=normalized raw]>
                           (waveform_buffer d)) d))) as Hh.
    rewrite Hheart in Hh. cbn [fst] in Hh.
    rewrite (draw_waveform_eq _ (add_waveform_point_wave_ok raw d Hok)).
    unfold trace at 1. cbn [fst].
    constructor; [exact I|]. constructor; [exact I|].
    rewrite <- ?app_assoc.
    repeat (apply Forall_app; split);
      try apply segments_calls; try apply status_indicator_calls;
      try exact Hh; repeat constructor.
Qed.

Lemma loop_pause_quiet clock :
  Forall (fun e => ~ buzzer_call e) (loop_pause clock).
Proof.
  unfold loop_pause. case_decide; repeat constructor. simpl. tauto.
Qed.

(** The part of an iteration that follows the beat handling. *)
Lemma loop_body_tail pitch adc clock app b raw f bpm s' :
  wave_ok (App.display app) ->
  detect_beat adc (t_detect clock) (App.pulse_sensor app)
  = OK (b, raw, f, bpm, s') ->
  exists tr d',
    update_display bpm (get_signal_strength s') b raw
      (t_display clock) (t_heart clock) (App.display app)
    = (tr, Returns d')
    /\ Forall display_call tr
    /\ loop_body pitch adc clock app
       = io_bind
           (if b then
              handle_beat_detected pitch bpm (t_beat clock)
                (App.set_pulse_sensor s' app)
            else io_ret (App.set_pulse_sensor s' app))
           (fun a => (tr ++ loop_pause clock,
                      Returns (after_iteration bpm d' clock a))).
Proof.
  intros Hok Hdetect.
  destruct (update_display_cases bpm (get_signal_strength s') b raw
              (t_display clock) (t_heart clock) (App.display app) Hok)
    as (tr & d' & Hupd & _).
  exists tr, d'. split; [exact Hupd|]. split.
  { pose proof (update_display_calls bpm (get_signal_strength s') b raw
                  (t_display clock) (t_heart clock) (App.display app) Hok)
      as Hcalls.
    rewrite Hupd in Hcalls. exact Hcalls. }
  unfold loop_body. rewrite Hdetect.
  unfold mbind, io_mbind, lift, io_ret. cbn [io_bind Datatypes.app].
  assert (Htail : forall a : App.BeatToMusicApp,
             App.display a = App.display app ->
             App.pulse_sensor a = s' ->
             io_bind
               (update_display bpm
                  (get_signal_strength
                     (App.pulse_sensor
                        (App.set_music_player
                           (set_mode_by_bpm bpm (App.music_player a)) a)))
                  b raw (t_display clock) (t_heart clock)
                  (App.display
                     (App.set_music_player
                        (set_mode_by_bpm bpm (App.music_player a)) a)))
               (fun display =>
                  io_bind
                    (if decide (ticks_diff (t_loop_end clock)
                                  (t_loop_start clock) < 20)
                     then emit (sleep_ms
                                  (20 - ticks_diff (t_loop_end clock)
                                          (t_loop_start clock)))
                     else ([], Returns tt))
                    (fun _ =>
                       ([], Returns
                              (App.set_loop_count
                                 (App.loop_count
                                    (monitor_performance (t_monitor clock)
                                       (App.set_display display
                                          (App.set_music_player
                                             (set_mode_by_bpm bpm
                                                (App.music_player a)) a)))
                                  + 1)
                                 (monitor_performance (t_monitor clock)
                                    (App.set_display display
                                       (App.set_music_player
                                          (set_mode_by_bpm bpm
                                             (App.music_player a))
                                          a)))))))
             = (tr ++ loop_pause clock,
                Returns (after_iteration bpm d' clock a))).
  { intros a Hd Hs. cbn [App.display App.pulse_sensor
                          App.set_music_player].
    rewrite Hd, Hs, Hupd. cbn [io_bind].
    unfold loop_pause, after_iteration, emit.
    assert (Hlc : forall t x,
               App.loop_count (monitor_performance t x) = App.loop_count x)
      by (intros t x; unfold monitor_performance; case_decide; reflexivity).
    rewrite Hlc. cbn [App.loop_count App.set_display App.set_music_player].
    case_decide; cbn [io_bind Datatypes.app]; rewrite ?app_nil_r; reflexivity. }
  destruct b.
  - destruct (handle_beat_detected pitch bpm (t_beat clock)
                (App.set_pulse_sensor s' app)) as [tb [a|e]] eqn:Hbeat;
      cbn [io_bind]; [|reflexivity].
    assert (Ha : App.display a = App.display app /\ App.pulse_sensor a = s').
    { unfold handle_beat_detected in Hbeat.
      rewrite play_beat_sound_returns in Hbeat.
      unfold mbind, io_mbind, io_ret in Hbeat. cbn [io_bind] in Hbeat.
      case_decide.
      - destruct (play_melody_note _ _ _) as [tm [pl|e]];
          cbn [io_bind] in Hbeat; [|discriminate].
        injection Hbeat as _ <-. split; reflexivity.
      - cbn [io_bind] in Hbeat. injection Hbeat as _ <-.
        split; reflexivity. }
    destruct Ha as [Hd Hs]. rewrite (Htail a Hd Hs). reflexivity.
  - cbn [io_bind Datatypes.app].
    rewrite (Htail (App.set_pulse_sensor s' app) eq_refl eq_refl).
    reflexivity.
Qed.

Lemma detect_beat_raw adc now s b raw f bpm s' :
  detect_beat adc now s = OK (b, raw, f, bpm, s') -> raw = adc.
Proof.
  intros H. apply detect_beat_inv in H as (s1 & Hread & _).
  apply read_filtered_inv in Hread as (rs & _ & _ & Hraw & _). exact Hraw.
Qed.

Lemma monitor_performance_frame t a :
  App.display (monitor_performance t a) = App.display a
  /\ App.pulse_sensor (monitor_performance t a) = App.pulse_sensor a
  /\ App.music_player (monitor_performance t a) = App.music_player a
  /\ App.beat_count (monitor_performance t a) = App.beat_count a
  /\ App.last_beat_time (monitor_performance t a) = App.last_beat_time a
  /\ App.loop_count (monitor_performance t a) = App.loop_count a.
Proof.
  unfold monitor_performance. case_decide; repeat split; reflexivity.
Qed.

Lemma after_iteration_frame bpm d clock a :
  App.display (after_iteration bpm d clock a) = d
  /\ App.pulse_sensor (after_iteration bpm d clock a) = App.pulse_sensor a
  /\ App.music_player (after_iteration bpm d clock a)
     = set_mode_by_bpm bpm (App.music_player a)
  /\ App.beat_count (after_iteration bpm d clock a) = App.beat_count a
  /\ App.last_beat_time (after_iteration bpm d clock a)
     = App.last_beat_time a
  /\ App.loop_count (after_iteration bpm d clock a) = App.loop_count a + 1.
Proof.
  unfold after_iteration. cbn [App.display App.pulse_sensor App.music_player
    App.beat_count App.last_beat_time App.loop_count App.set_loop_count].
  destruct (monitor_performance_frame (t_monitor clock)
              (App.set_display d
                 (App.set_music_player
                    (set_mode_by_bpm bpm (App.music_player a)) a)))
    as (-> & -> & -> & -> & -> & _).
  repeat split; reflexivity.
Qed.

(** An iteration of the main loop in which [detect_beat] reports no beat,
    on a well-formed display object: the iteration returns; the BPM is
    the one the sensor had before; the display is called with it, the
    signal strength of the sensor after the call and the raw reading; no
    call is made on the buzzer; the mode is set from the BPM and the
    melody index, the beat count and the time of the last beat stay as
    they were; the loop count grows by one. *)
Theorem loop_without_beat
    (pitch : Z -> Z -> Z) (adc : Z) (clock : loop_clock)
    (app : App.BeatToMusicApp) (raw f bpm : Z) (s' : PulseSensor) :
  wave_ok (App.display app) ->
  detect_beat adc (t_detect clock) (App.pulse_sensor app)
  = OK (false, raw, f, bpm, s') ->
  raw = adc
  /\ bpm = current_bpm (App.pulse_sensor app)
  /\ exists tr d' app',
       update_display bpm (get_signal_strength s') false adc
         (t_display clock) (t_heart clock) (App.display app)
       = (tr, Returns d')
       /\ loop_body pitch adc clock app
          = (tr ++ loop_pause clock, Returns app')
       /\ Forall (fun e => ~ buzzer_call e) (tr ++ loop_pause clock)
       /\ App.display app' = d'
       /\ App.pulse_sensor app' = s'
       /\ App.music_player app'
          = set_mode_by_bpm bpm (App.music_player app)
       /\ App.beat_count app' = App.beat_count app
       /\ App.last_beat_time app' = App.last_beat_time app
       /\ App.loop_count app' = App.loop_count app + 1.
Proof.
  intros Hok Hdetect.
  pose proof (detect_beat_raw _ _ _ _ _ _ _ _ Hdetect) as ->.
  split; [reflexivity|]. split.
  { apply detect_beat_decision in Hdetect
      as (s2 & (_ & Hbpm & _) & _ & _ & ->). exact Hbpm. }
  destruct (loop_body_tail pitch adc clock app _ _ _ _ _ Hok Hdetect)
    as (tr & d' & Hupd & Hcalls & Hbody).
  exists tr, d',
    (after_iteration bpm d' clock (App.set_pulse_sensor s' app)).
  split; [exact Hupd|]. split; [exact Hbody|]. split.
  { apply Forall_app. split;
      [apply display_call_not_buzzer, Hcalls|apply loop_pause_quiet]. }
  destruct (after_iteration_frame bpm d' clock
              (App.set_pulse_sensor s' app))
    as (-> & -> & -> & -> & -> & ->).
  repeat split; reflexivity.
Qed.

(** [sample_app] on a reading of 0 at 2680 ms: no beat, a refresh of the
    screen and nothing else. *)
Lemma loop_without_beat_witness :
  exists tr app',
    loop_body exact_pitch 0 sample_clock sample_app = (tr, Returns app')
    /\ Forall (fun e => ~ buzzer_call e) tr
    /\ App.beat_count app' = 3
    /\ App.loop_count app' = 1.
Proof.
  destruct (detect_beat 0 (t_detect sample_clock)
              (App.pulse_sensor sample_app))
    as [[[[[b raw] f] bpm] s']|e] eqn:Hd.
  - pose proof Hd as Hd'. vm_compute in Hd'.
    injection Hd' as <- <- <- <- <-.
    destruct (loop_without_beat exact_pitch 0 sample_clock sample_app
                _ _ _ _ ltac:(split; [reflexivity|simpl; lia]) Hd)
      as (_ & _ & tr & d' & app' & _ & Hbody & Hquiet & _ & _ & _ & Hc & _
          & Hl).
    exists (tr ++ loop_pause sample_clock), app'.
    split; [exact Hbody|]. split; [exact Hquiet|].
    split; [exact Hc|exact Hl].
  - vm_compute in Hd. discriminate.
Defined.

Lemma play_beat_sound_time bpm :
  time_slept (trace (play_beat_sound bpm)) = 100.
Proof. rewrite play_beat_sound_eq. reflexivity. Qed.

Lemma play_melody_note_index_error pitch bpm p :
  current_melody p <> [] ->
  Z.of_nat (length (current_melody p)) <= melody_index p ->
  play_melody_note pitch bpm p = ([], Raises (Exn IndexError)).
Proof.
  intros Hne Hbeyond. unfold play_melody_note, list_getitem.
  assert (0 < Z.of_nat (length (current_melody p)))
    by (destruct (current_melody p); [congruence|simpl; lia]).
  rewrite !decide_False by lia. reflexivity.
Qed.

(** An iteration of the main loop in which [detect_beat] reports a beat,
    with the melody index inside the current melody: the iteration
    returns after the chirp of the new BPM, on every fourth beat the
    melody note at the index, taken from the melody that was current
    before this iteration, then the display update and the pause.  The
    mode is set from the new BPM only afterwards.  When the clock has
    advanced by the 100 ms of the chirp since a time not before the last
    refresh, and the refresh interval is at most 100 ms, the screen is
    refreshed in this iteration with the heart at scale 3. *)
Theorem loop_with_beat
    (pitch : Z -> Z -> Z) (adc : Z) (clock : loop_clock)
    (app : App.BeatToMusicApp) (raw f bpm : Z) (s' : PulseSensor) :
  wave_ok (App.display app) ->
  melody_ok (App.music_player app) ->
  detect_beat adc (t_detect clock) (App.pulse_sensor app)
  = OK (true, raw, f, bpm, s') ->
  let c := App.beat_count app in
  let p := App.music_player app in
  let d := App.display app in
  bpm = current_bpm s'
  /\ exists tr d' app',
       update_display bpm (get_signal_strength s') true adc
         (t_display clock) (t_heart clock) d
       = (tr, Returns d')
       /\ loop_body pitch adc clock app
          = (trace (play_beat_sound bpm)
             ++ (if decide ((c + 1) `mod` 4 = 0) then
                   trace (play_tone (pitch (note_ahead p 0) bpm)
                            (melody_note_duration p))
                 else [])
             ++ tr ++ loop_pause clock,
             Returns app')
       /\ App.display app' = d'
       /\ App.pulse_sensor app' = s'
       /\ App.music_player app'
          = set_mode_by_bpm bpm
              (if decide ((c + 1) `mod` 4 = 0) then
                 set_melody_index
                   ((melody_index p + 1)
                    `mod` Z.of_nat (length (current_melody p))) p
               else p)
       /\ App.beat_count app' = c + 1
       /\ App.last_beat_time app' = t_beat clock
       /\ App.loop_count app' = App.loop_count app + 1
       /\ (last_update_time d <= t_beat clock ->
           t_beat clock + time_slept (trace (play_beat_sound bpm))
           <= t_display clock ->
           update_interval d <= 100 ->
           shows tr = 1
           /\ heart_scale d' = 3
           /\ heart_beat_time d' = t_heart clock
           /\ last_update_time d' = t_display clock).
Proof.
  intros Hok Hmel Hdetect c p d. subst d.
  pose proof (detect_beat_raw _ _ _ _ _ _ _ _ Hdetect) as ->.
  split.
  { apply detect_beat_frame in Hdetect as (_ & _ & Hbpm). exact Hbpm. }
  destruct (loop_body_tail pitch adc clock app _ _ _ _ _ Hok Hdetect)
    as (tr & d' & Hupd & Hcalls & Hbody).
  pose proof (handle_beat_detected_ok pitch bpm (t_beat clock)
                (App.set_pulse_sensor s' app) Hmel) as Hbeat.
  cbv zeta in Hbeat.
  cbn [App.beat_count App.music_player App.set_pulse_sensor] in Hbeat.
  fold c p in Hbeat.
  rewrite Hbeat in Hbody. cbn [io_bind] in Hbody.
  rewrite <- app_assoc in Hbody.
  eexists tr, d', _. split; [exact Hupd|]. split; [exact Hbody|].
  match goal with
  | |- App.display (after_iteration ?b ?dd ?cl ?a) = _ /\ _ =>
      destruct (after_iteration_frame b dd cl a)
        as (-> & -> & -> & -> & -> & ->)
  end.
  repeat (split; [reflexivity|]).
  intros Hlast Hslept Hint.
  rewrite play_beat_sound_time in Hslept.
  assert (Hdue : ~ t_display clock - last_update_time (App.display app)
                  < update_interval (App.display app)) by lia.
  destruct (update_display_refresh bpm (get_signal_strength s') true adc
              (t_display clock) (t_heart clock) (App.display app) Hok Hdue)
    as (trh & d2 & Hheart & Hrun).
  rewrite draw_heart_icon_beat in Hheart. injection Hheart as <- <-.
  rewrite Hupd in Hrun. injection Hrun as -> ->.
  split; [|repeat split; reflexivity].
  destruct (update_display_cases bpm (get_signal_strength s') true adc
              (t_display clock) (t_heart clock) (App.display app) Hok)
    as (tr0 & d0 & Hupd0 & _ & _ & _ & _ & _ & _ & [[Hearly _]|Hrefresh]);
    [lia|].
  rewrite Hupd in Hupd0. injection Hupd0 as <- _.
  destruct Hrefresh as (_ & Hshows & _). exact Hshows.
Qed.

(** [sample_app] on the reading that completes its fourth beat: the
    chirp of 86 BPM, the first note of the normal melody, and a refresh
    with the heart at scale 3. *)
Lemma loop_with_beat_witness :
  exists tr app',
    loop_body exact_pitch 60000 sample_clock sample_app = (tr, Returns app')
    /\ frequencies tr = [488; 585; 282]
    /\ shows tr = 1
    /\ App.beat_count app' = 4
    /\ heart_scale (App.display app') = 3.
Proof.
  destruct (detect_beat 60000 (t_detect sample_clock)
              (App.pulse_sensor sample_app))
    as [[[[[b raw] f] bpm] s']|e] eqn:Hd.
  - pose proof Hd as Hd'. vm_compute in Hd'.
    injection Hd' as <- <- <- <- <-.
    destruct (loop_with_beat exact_pitch 60000 sample_clock sample_app
                _ _ _ _ ltac:(split; [reflexivity|simpl; lia])
                ltac:(split; [repeat constructor; vm_compute; eauto
                             |simpl; lia]) Hd)
      as (_ & tr & d' & app' & Hupd & Hbody & Hd' & _ & _ & Hc & _ & _
          & Hheart).
    destruct Hheart as (_ & Hscale & _);
      [vm_compute; discriminate|vm_compute; discriminate
      |vm_compute; discriminate|].
    eexists _, app'. split; [exact Hbody|].
    vm_compute in Hupd. injection Hupd as <- _.
    split; [vm_compute; reflexivity|].
    split; [vm_compute; reflexivity|].
    split; [exact Hc|]. rewrite Hd'. exact Hscale.
  - vm_compute in Hd. discriminate.
Defined.

(** An iteration with a beat that brings the beat count to a multiple of
    four while the melody index is beyond the end of the current melody
    (as after a change to a shorter melody): the chirp is played, then
    [play_melody_note] raises [IndexError] out of the [try] block, before
    the mode is set and before the display is updated; the handler shows
    the error screen and sleeps for two seconds. *)
Theorem loop_melody_index_error
    (pitch : Z -> Z -> Z) (adc : Z) (clock : loop_clock)
    (app : App.BeatToMusicApp) (raw f bpm : Z) (s' : PulseSensor) :
  detect_beat adc (t_detect clock) (App.pulse_sensor app)
  = OK (true, raw, f, bpm, s') ->
  (App.beat_count app + 1) `mod` 4 = 0 ->
  current_melody (App.music_player app) <> [] ->
  Z.of_nat (length (current_melody (App.music_player app)))
  <= melody_index (App.music_player app) ->
  loop_body pitch adc clock app
  = (trace (play_beat_sound bpm), Raises (Exn IndexError))
  /\ loop_effects (loop_body pitch adc clock app)
     = trace (play_beat_sound bpm)
       ++ [display_fill 0; display_text "ERROR:" 30 20 1;
           display_text "Runtime error!" 10 35 1; display_show;
           sleep_ms 2000].
Proof.
  intros Hdetect Hfourth Hne Hbeyond.
  assert (Hbody : loop_body pitch adc clock app
                  = (trace (play_beat_sound bpm), Raises (Exn IndexError))).
  { unfold loop_body. rewrite Hdetect.
    unfold mbind, io_mbind, lift, io_ret. cbn [io_bind Datatypes.app].
    unfold handle_beat_detected. rewrite play_beat_sound_returns.
    unfold mbind, io_mbind, io_ret.
    cbn [io_bind App.beat_count App.set_beat_count App.music_player
         App.set_pulse_sensor].
    rewrite decide_True by exact Hfourth.
    rewrite (play_melody_note_index_error pitch bpm _ Hne Hbeyond).
    cbn [io_bind]. rewrite !app_nil_r. reflexivity. }
  split; [exact Hbody|]. rewrite Hbody. reflexivity.
Qed.

(** [stuck_app] on the reading that completes its fourth beat. *)
Lemma loop_melody_index_error_witness :
  loop_effects (loop_body exact_pitch 60000 sample_clock stuck_app)
  = [buzzer_freq 488; buzzer_duty_u16 32767; sleep_ms 50; buzzer_duty_u16 0;
     sleep_ms 20;
     buzzer_freq 585; buzzer_duty_u16 32767; sleep_ms 30; buzzer_duty_u16 0;
     display_fill 0; display_text "ERROR:" 30 20 1;
     display_text "Runtime error!" 10 35 1; display_show; sleep_ms 2000].
Proof.
  destruct (detect_beat 60000 (t_detect sample_clock)
              (App.pulse_sensor stuck_app))
    as [[[[[b raw] f] bpm] s']|e] eqn:Hd.
  - pose proof Hd as Hd'. vm_compute in Hd'.
    injection Hd' as <- <- <- <- <-.
    destruct (loop_melody_index_error exact_pitch 60000 sample_clock
                stuck_app _ _ _ _ Hd)
      as (_ & Heff).
    + reflexivity.
    + vm_compute. discriminate.
    + vm_compute. discriminate.
    + rewrite Heff. reflexivity.
  - vm_compute in Hd. discriminate.
Defined.
